(** * wavdump: a shallow embedding of [wavdump.c] and its properties

    The program reads a file name, a duration and a list of frequencies
    from the command line, synthesises a mono 16-bit signal at 44100 Hz as
    a sum of sine harmonics and writes it out as a RIFF/WAVE file.

    The embedding follows [main] section by section.  It fixes the data
    model the program is compiled for: LP64, little-endian, IEEE 754
    arithmetic evaluated in the precision of each operand type
    ([int] and [unsigned int] are 32 bits wide, [long] and [size_t] 64,
    [short] 16, [float] is binary32, [double] is binary64).  Behaviour that
    C leaves undefined is an explicit [UB] result. *)

From Stdlib Require Import ZArith QArith Qpower Qround Lia Bool String Ascii List.
From Stdlib Require Import Strings.Byte Floats.SpecFloat.
From stdpp Require Import base option list.
Import ListNotations.

Open Scope Z_scope.

(** ** Machine integers *)

Module Int.

Definition UINT_MODULUS : Z := 2 ^ 32.
Definition INT_MAX : Z := 2 ^ 31 - 1.
Definition INT_MIN : Z := - 2 ^ 31.
Definition LONG_MAX : Z := 2 ^ 63 - 1.
Definition LONG_MIN : Z := - 2 ^ 63.
Definition SHRT_MAX : Z := 32767.
Definition SHRT_MIN : Z := -32768.

(** Conversion to [unsigned int]: reduction modulo 2^32. *)
Definition to_uint (z : Z) : Z := z mod UINT_MODULUS.

(** Conversion of an [unsigned int] value to [int]: the two's complement
    reading of the same 32 bits. *)
Definition to_int (z : Z) : Z :=
  let u := to_uint z in
  if u <=? INT_MAX then u else u - UINT_MODULUS.

(** Conversion to [unsigned short] and to [size_t]: both are modular. *)
Definition to_ushort (z : Z) : Z := z mod 2 ^ 16.
Definition to_size_t (z : Z) : Z := z mod 2 ^ 64.

End Int.

(** ** Undefined behaviour as an error result *)

Inductive undefined :=
| NullDereference      (* store through the null pointer malloc returned *)
| OutOfBounds          (* access past the end of an allocated block *)
| SignedOverflow       (* int arithmetic leaving the range of int *)
| DivisionByZero
| FloatToIntOverflow.  (* float converted to an integer type that cannot hold it *)

Inductive result (A : Type) :=
| Ok (a : A)
| UB (u : undefined).
Arguments Ok {A} a.
Arguments UB {A} u.

#[global] Instance result_ret : MRet result := fun A a => Ok a.

#[global] Instance result_bind : MBind result := fun A B k r =>
  match r with
  | Ok a => k a
  | UB u => UB u
  end.

(** [for (i = 0; i < n; i++) body]: [fuel] is the number of iterations left
    and [i] the current value of the counter. *)
Fixpoint for_from {S : Type} (fuel : nat) (i : Z)
    (body : Z -> S -> result S) (s : S) : result S :=
  match fuel with
  | O => Ok s
  | Datatypes.S fuel' => s' ← body i s; for_from fuel' (i + 1) body s'
  end.

Definition for_loop {S : Type} (n : Z) (body : Z -> S -> result S) (s : S)
  : result S :=
  for_from (Z.to_nat n) 0 body s.

(** ** The C library's [atol]

    [atol] is [strtol] in base 10: leading white space is skipped, an
    optional sign is read, then the longest run of decimal digits; glibc
    clamps a value that does not fit a 64-bit [long]. *)

Module Libc.

Definition isspace (c : ascii) : bool :=
  let n := N_of_ascii c in
  ((n =? 32) || ((9 <=? n) && (n <=? 13)))%N.

Definition digit_of (c : ascii) : option Z :=
  let n := N_of_ascii c in
  if ((48 <=? n) && (n <=? 57))%N then Some (Z.of_N n - 48) else None.

Fixpoint skip_space (s : string) : string :=
  match s with
  | String c s' => if isspace c then skip_space s' else s
  | EmptyString => s
  end.

Fixpoint digits (acc : Z) (s : string) : Z :=
  match s with
  | String c s' =>
      match digit_of c with
      | Some d => digits (10 * acc + d) s'
      | None => acc
      end
  | EmptyString => acc
  end.

Definition clamp_long (z : Z) : Z :=
  Z.max Int.LONG_MIN (Z.min Int.LONG_MAX z).

Definition atol (s : string) : Z :=
  match skip_space s with
  | String "-"%char r => clamp_long (- digits 0 r)
  | String "+"%char r => clamp_long (digits 0 r)
  | r => clamp_long (digits 0 r)
  end.

End Libc.

(** ** Command line *)

Definition MIN_FREQ : Z := 20.
Definition MAX_FREQ : Z := 22050.

(** What the program prints, one constructor per [printf] (or [perror])
    call.  [CurrentValue p] is [printf("Its current value is '%s'!", p)];
    [p] is [None] when the pointer handed to [printf] is not one of the
    argument strings, that is when it is [argv[argc]] or lies past it. *)
Inductive printed :=
| IncompleteArguments
| Synopsis
| Syntax
| Usage (example : string)
| InvalidArguments
| DurationNotPositive
| FrequencyOutsideRange (lo hi : Z)
| CurrentValue (p : option string)
| CouldNotOpen (name : string)
| Reason
| Aborting.

Record arguments := {
  filename : string;
  filetime : Z;          (* unsigned int *)
  freqsize : Z;          (* unsigned int *)
  freqbuff : list Z      (* unsigned int[freqsize] *)
}.

Definition argc (argv : list string) : Z := Z.of_nat (length argv).

(** [argv[i]] as a string; the empty string stands in where the source
    never looks (the reads below are guarded by [argc > 3]). *)
Definition arg (argv : list string) (i : Z) : string :=
  nth (Z.to_nat i) argv EmptyString.

Definition usage : list printed :=
  [ IncompleteArguments; Synopsis; Syntax;
    Usage "wavdump test.wav 5 440 880";
    Usage "wavdump a.wav 10 1000 2000 3000" ].

(** Lines 62-83: [None] is the [else] branch, which prints the usage text
    and calls [exit(0)].  [argc] is an [int] greater than 3 here, so the
    conversion of [argc - 3] to [unsigned int] keeps its value. *)
Definition read_arguments (argv : list string) : option arguments :=
  if 3 <? argc argv then
    Some {| filename := arg argv 1;
            filetime := Int.to_uint (Libc.atol (arg argv 2));
            freqsize := argc argv - 3;
            freqbuff := map (fun s => Int.to_uint (Libc.atol s)) (skipn 3 argv) |}
  else None.

Definition out_of_range (f : Z) : bool :=
  (f <? MIN_FREQ) || (MAX_FREQ <? f).

(** Lines 94-101: the index of the first frequency the loop rejects. *)
Fixpoint first_rejected (i : Z) (fs : list Z) : option Z :=
  match fs with
  | [] => None
  | f :: fs' => if out_of_range f then Some i else first_rejected (i + 1) fs'
  end.

(** Lines 87-101: [Some msgs] when validation prints [msgs] and exits
    with status 0, [None] when both checks pass. *)
Definition validate (argv : list string) (a : arguments)
  : option (list printed) :=
  if filetime a =? 0 then
    Some [ InvalidArguments; DurationNotPositive;
           CurrentValue (argv !! 2%nat) ]
  else
    match first_rejected 0 (freqbuff a) with
    | Some i =>
        Some [ InvalidArguments; FrequencyOutsideRange MIN_FREQ MAX_FREQ;
               CurrentValue (argv !! Z.to_nat (5 + i)) ]
    | None => None
    end.

(** ** Floating point: IEEE 754 binary32 and binary64 *)

Module Float.

(** [(double)z] and [(float)z] for an integer [z]. *)
Definition double_of_int (z : Z) : spec_float := binary_normalize 53 1024 z 0 false.
Definition float_of_int (z : Z) : spec_float := binary_normalize 24 128 z 0 false.

(** [(float)x] for a [double] [x]: rounding to nearest, ties to even. *)
Definition float_of_double (x : spec_float) : spec_float :=
  match x with
  | S754_finite s m e => binary_round 24 128 s m e
  | _ => x
  end.

Definition dmul : spec_float -> spec_float -> spec_float := SFmul 53 1024.
Definition ddiv : spec_float -> spec_float -> spec_float := SFdiv 53 1024.
Definition fmul : spec_float -> spec_float -> spec_float := SFmul 24 128.
Definition fadd : spec_float -> spec_float -> spec_float := SFadd 24 128.

(** [M_PI] of <math.h>, 3.14159265358979323846, as the nearest double:
    0x400921FB54442D18. *)
Definition M_PI : spec_float := S754_finite false 7074237752028440 (-51).

(** The integer part of a finite float (rounding toward zero). *)
Definition truncate (x : spec_float) : option Z :=
  match x with
  | S754_zero _ => Some 0
  | S754_finite s m e =>
      Some (cond_Zopp s (if 0 <=? e then Zpos m * 2 ^ e else Zpos m / 2 ^ (- e)))
  | _ => None
  end.

(** [(short)x]: the fractional part is discarded; the conversion is
    undefined when the integer part does not fit (C11 6.3.1.4). *)
Definition to_short (x : spec_float) : result Z :=
  match truncate x with
  | Some z =>
      if (Int.SHRT_MIN <=? z) && (z <=? Int.SHRT_MAX) then Ok z
      else UB FloatToIntOverflow
  | None => UB FloatToIntOverflow
  end.

(** [x] is a zero or a finite number of magnitude at most [n]. *)
Definition magnitude_le (n : Z) (x : spec_float) : Prop :=
  match x with
  | S754_zero _ => 0 <= n
  | S754_finite _ m e => Zpos m * 2 ^ Z.max e 0 <= n * 2 ^ Z.max (- e) 0
  | _ => False
  end.

End Float.

(** ** A reference single-precision sine

    [sinf] belongs to the C library; the program is embedded over an
    arbitrary [sinf] and the theorems quantify over it.  [Sine.sinf] is a
    concrete one for running the embedding on examples: fixed-point
    arithmetic with 80 fractional bits, reduction of the argument by
    multiples of pi/2, the Taylor series on the reduced argument, and
    rounding of the result to binary32. *)

Module Sine.

Definition SCALE : Z := 80.
Definition ONE : Z := 2 ^ SCALE.

(** floor (pi/2 * 2^80) *)
Definition HALF_PI : Z := 1898976236818169290393996.

Definition fixed_mul (a b : Z) : Z := Z.shiftr (a * b) SCALE.

(** [terms] more terms of an alternating Taylor series: [t] is the
    current term, [n] the index of its factorial, [r2] the square of the
    reduced argument. *)
Fixpoint series (terms : nat) (r2 t n acc : Z) : Z :=
  match terms with
  | O => acc
  | S terms' =>
      let t' := - (fixed_mul t r2) / ((n + 1) * (n + 2)) in
      series terms' r2 t' (n + 2) (acc + t')
  end.

Definition sin_fixed (r : Z) : Z := series 14 (fixed_mul r r) r 1 r.
Definition cos_fixed (r : Z) : Z := series 14 (fixed_mul r r) ONE 0 ONE.

(** The sine of [x / 2^80] for [0 <= x], scaled by 2^80 and kept in
    [[-2^80, 2^80]]. *)
Definition sin_reduced (x : Z) : Z :=
  let n := (2 * x + HALF_PI) / (2 * HALF_PI) in
  let r := x - n * HALF_PI in
  let y := match n mod 4 with
           | 0 => sin_fixed r
           | 1 => cos_fixed r
           | 2 => - sin_fixed r
           | _ => - cos_fixed r
           end in
  Z.max (- ONE) (Z.min ONE y).

Definition sinf (x : spec_float) : spec_float :=
  match x with
  | S754_finite s m e =>
      if Zpos (digits2_pos m) + e <=? -12 then x
      else
        let y := sin_reduced (Z.shiftl (Zpos m) (e + SCALE)) in
        binary_normalize 24 128 (cond_Zopp s y) (- SCALE) s
  | S754_zero _ => x
  | _ => S754_nan
  end.

End Sine.

(** ** Signal generation (lines 103-149) *)

Section Synthesis.

Variable sinf : spec_float -> spec_float.

Definition wavechnl : Z := 1.
Definition wavebits : Z := 16.
Definition waverate : Z := Int.to_int (MAX_FREQ * 2).

(** Line 123.  The product is computed in [unsigned int], because
    [filetime] is unsigned, and converted to [int]. *)
Definition wavesize (filetime : Z) : Z :=
  Int.to_int (wavechnl * (wavebits / 8) * waverate * filetime).

(** [(short* )malloc(size)]: the block as an array of [short].  A request
    that [malloc] cannot satisfy (a negative [int] is a size of at least
    2^64 - 2^31 bytes) yields the null pointer, a block without cells.
    The cells start at 0 here; C leaves them indeterminate, and the loops
    below store to a cell before they read it. *)
Definition malloc (size : Z) : list Z :=
  replicate (Z.to_nat (if size <? 0 then 0 else size / 2)) 0.

Definition load (buf : list Z) (idx : Z) : result Z :=
  if idx <? 0 then UB OutOfBounds
  else match buf !! Z.to_nat idx with
       | Some v => Ok v
       | None => UB OutOfBounds
       end.

Definition store (buf : list Z) (idx : Z) (v : Z) : result (list Z) :=
  if (0 <=? idx) && (idx <? Z.of_nat (length buf))
  then Ok (<[Z.to_nat idx := v]> buf)
  else UB OutOfBounds.

(** The value of an [int] expression. *)
Definition int_value (z : Z) : result Z :=
  if (Int.INT_MIN <=? z) && (z <=? Int.INT_MAX) then Ok z
  else UB SignedOverflow.

(** [i * waverate + j] *)
Definition sample_index (i j : Z) : result Z :=
  p ← int_value (i * waverate); int_value (p + j).

(** [(2 * M_PI * freqbuff[k] * j) / waverate], in [double]. *)
Definition angle (f j : Z) : spec_float :=
  Float.ddiv
    (Float.dmul
       (Float.dmul (Float.dmul (Float.double_of_int 2) Float.M_PI)
                   (Float.double_of_int f))
       (Float.double_of_int j))
    (Float.double_of_int waverate).

(** [32765 / freqsize], an [unsigned int] division. *)
Definition amplitude (freqsize : Z) : result Z :=
  if freqsize =? 0 then UB DivisionByZero else Ok (32765 / freqsize).

(** [sinf(angle) * (32765 / freqsize)], a [float]. *)
Definition harmonic (freqsize f j : Z) : result spec_float :=
  a ← amplitude freqsize;
  Ok (Float.fmul (sinf (Float.float_of_double (angle f j))) (Float.float_of_int a)).

(** [s += h] for a [short s] and a [float h]: [s = (short)((float)s + h)]. *)
Definition add_assign (s : Z) (h : spec_float) : result Z :=
  Float.to_short (Float.fadd (Float.float_of_int s) h).

(** Line 147, the body of the loop over [k]. *)
Definition add_harmonic (a : arguments) (i j k : Z) (wavebuff : list Z)
  : result (list Z) :=
  idx ← sample_index i j;
  s ← load wavebuff idx;
  f ← load (freqbuff a) k;
  h ← harmonic (freqsize a) f j;
  s' ← add_assign s h;
  store wavebuff idx s'.

(** Lines 144-148, the body of the loop over [j]. *)
Definition generate_sample (a : arguments) (i j : Z) (wavebuff : list Z)
  : result (list Z) :=
  idx ← sample_index i j;
  wavebuff ← store wavebuff idx 0;
  for_loop (freqsize a) (add_harmonic a i j) wavebuff.

(** Lines 142-149. *)
Definition generate_signal (a : arguments) (wavebuff : list Z)
  : result (list Z) :=
  for_loop (filetime a)
    (fun i => for_loop waverate (generate_sample a i)) wavebuff.

(** Lines 123-149: allocation and generation. *)
Definition generate (a : arguments) : result (list Z) :=
  generate_signal a (malloc (wavesize (filetime a))).

End Synthesis.

(** The value lines 144-148 leave in a cell, as a function of the
    position [j] inside the second: the cell is cleared and the harmonics
    are added one after the other, each addition narrowed to [short]. *)
Fixpoint accumulate (sinf : spec_float -> spec_float) (freqsize j : Z)
    (fs : list Z) (s : Z) : result Z :=
  match fs with
  | [] => Ok s
  | f :: fs' =>
      h ← harmonic sinf freqsize f j;
      s' ← add_assign s h;
      accumulate sinf freqsize j fs' s'
  end.

Definition sample (sinf : spec_float -> spec_float) (a : arguments) (j : Z)
  : result Z :=
  accumulate sinf (freqsize a) j (freqbuff a) 0.

(** ** The .wav headers (lines 14-37 and 158-182) *)

Record wave_riffhead := {
  chunk0id : list byte;     (* char[4] *)
  chunk0size : Z;           (* unsigned int *)
  format : list byte        (* char[4] *)
}.

Record wave_frmthead := {
  chunk1id : list byte;     (* char[4] *)
  clsize : Z;               (* unsigned int *)
  audioformat : Z;          (* unsigned short *)
  audiochannels : Z;        (* unsigned short *)
  samplerate : Z;           (* unsigned int *)
  byterate : Z;             (* unsigned int *)
  blockalign : Z;           (* unsigned short *)
  bitspersample : Z         (* unsigned short *)
}.

Record wave_datahead := {
  chunk2id : list byte;     (* char[4] *)
  chunk2size : Z            (* unsigned int *)
}.

(** [sizeof]: every member sits at a multiple of its own size, so the
    structures have no padding. *)
Definition sizeof_riffhead : Z := 4 + 4 + 4.
Definition sizeof_frmthead : Z := 4 + 4 + 2 + 2 + 4 + 4 + 2 + 2.
Definition sizeof_datahead : Z := 4 + 4.

(** Lines 158-164.  The sum is formed in [size_t] and stored in an
    [unsigned int]. *)
Definition riffhead (wavesize : Z) : wave_riffhead :=
  {| chunk0id := list_byte_of_string "RIFF";
     chunk0size :=
       Int.to_uint
         (Int.to_size_t
            (sizeof_riffhead + sizeof_frmthead + sizeof_datahead
             + Int.to_size_t wavesize - 8));
     format := list_byte_of_string "WAVE" |}.

(** Lines 167-176. *)
Definition frmthead : wave_frmthead :=
  {| chunk1id := list_byte_of_string "fmt ";
     clsize := Int.to_uint (sizeof_frmthead - 8);
     audioformat := 1;
     audiochannels := Int.to_ushort wavechnl;
     samplerate := Int.to_uint waverate;
     byterate := Int.to_uint (wavechnl * (wavebits / 8) * waverate);
     blockalign := Int.to_ushort (wavechnl * (wavebits / 8));
     bitspersample := Int.to_ushort wavebits |}.

(** Lines 179-182. *)
Definition datahead (wavesize : Z) : wave_datahead :=
  {| chunk2id := list_byte_of_string "data";
     chunk2size := Int.to_uint wavesize |}.

(** ** Objects as bytes

    [fwrite] copies the bytes of an object as they lie in memory: integers
    least significant byte first, negative ones in two's complement. *)

Module Memory.

Definition byte_of_Z (z : Z) : byte :=
  match Byte.of_N (Z.to_N (z mod 256)) with
  | Some b => b
  | None => x00
  end.

Definition Z_of_byte (b : byte) : Z := Z.of_N (Byte.to_N b).

Fixpoint le_bytes (n : nat) (z : Z) : list byte :=
  match n with
  | O => []
  | S n' => byte_of_Z z :: le_bytes n' (z / 256)
  end.

Definition of_riffhead (h : wave_riffhead) : list byte :=
  chunk0id h ++ le_bytes 4 (chunk0size h) ++ format h.

Definition of_frmthead (h : wave_frmthead) : list byte :=
  chunk1id h ++ le_bytes 4 (clsize h) ++ le_bytes 2 (audioformat h)
  ++ le_bytes 2 (audiochannels h) ++ le_bytes 4 (samplerate h)
  ++ le_bytes 4 (byterate h) ++ le_bytes 2 (blockalign h)
  ++ le_bytes 2 (bitspersample h).

Definition of_datahead (h : wave_datahead) : list byte :=
  chunk2id h ++ le_bytes 4 (chunk2size h).

Definition of_shorts (buf : list Z) : list byte :=
  flat_map (le_bytes 2) buf.

End Memory.

(** ** The output file (lines 186-216) *)

(** What the environment does with the output path: whether [fopen]
    succeeds, and how many bytes the device takes before writes fail. *)
Record device := {
  creatable : bool;
  room : nat
}.

Record FILE := {
  written : list byte;
  space : nat
}.

Definition fopen (d : device) : option FILE :=
  if creatable d then Some {| written := []; space := room d |} else None.

(** [fwrite(ptr, 1, n, f)] for an object whose bytes are [ptr]: the number
    of bytes written and the stream afterwards.  Reading more bytes than
    the object has is undefined. *)
Definition fwrite (ptr : list byte) (n : Z) (f : FILE) : result (Z * FILE) :=
  if Z.of_nat (length ptr) <? n then UB OutOfBounds
  else
    let chunk := take (space f) (take (Z.to_nat n) ptr) in
    Ok (Z.of_nat (length chunk),
        {| written := written f ++ chunk;
           space := (space f - length chunk)%nat |}).

(** What a run leaves behind: the exit status, the lines printed, and the
    contents of the output file when it was created. *)
Record outcome := {
  status : Z;
  stdout : list printed;
  output : option (list byte)
}.

(** Lines 191-216.  The values [fwrite] and [fclose] return are not
    looked at. *)
Definition write_out (d : device) (name : string) (wavesize : Z)
    (wavebuff : list Z) : result outcome :=
  match fopen d with
  | None =>
      Ok {| status := 0;
            stdout := [CouldNotOpen name; Reason; Aborting];
            output := None |}
  | Some ofile =>
      '(_, ofile) ← fwrite (Memory.of_riffhead (riffhead wavesize))
                       sizeof_riffhead ofile;
      '(_, ofile) ← fwrite (Memory.of_frmthead frmthead)
                       sizeof_frmthead ofile;
      '(_, ofile) ← fwrite (Memory.of_datahead (datahead wavesize))
                       sizeof_datahead ofile;
      '(_, ofile) ← fwrite (Memory.of_shorts wavebuff)
                       (Int.to_size_t wavesize) ofile;
      Ok {| status := 0; stdout := []; output := Some (written ofile) |}
  end.

(** [main], for a C library sine [sinf] and a file system [fs]. *)
Definition main (sinf : spec_float -> spec_float) (fs : string -> device)
    (argv : list string) : result outcome :=
  match read_arguments argv with
  | None => Ok {| status := 0; stdout := usage; output := None |}
  | Some a =>
      match validate argv a with
      | Some msgs => Ok {| status := 0; stdout := msgs; output := None |}
      | None =>
          wavebuff ← generate sinf a;
          write_out (fs (filename a)) (filename a) (wavesize (filetime a))
            wavebuff
      end
  end.

(** ** Reading a .wav file back

    The canonical layout a WAVE decoder expects: the RIFF chunk descriptor
    at offset 0, the format chunk at offset 12 and the header of the data
    chunk at offset 36, all integers little-endian. *)

Module Wave.

Definition le_value (bs : list byte) : Z :=
  fold_right (fun b acc => Memory.Z_of_byte b + 256 * acc) 0 bs.

Definition field (off len : nat) (file : list byte) : list byte :=
  take len (drop off file).

Definition read_riffhead (file : list byte) : option wave_riffhead :=
  if (12 <=? length file)%nat then
    Some {| chunk0id := field 0 4 file;
            chunk0size := le_value (field 4 4 file);
            format := field 8 4 file |}
  else None.

Definition read_frmthead (file : list byte) : option wave_frmthead :=
  if (36 <=? length file)%nat then
    Some {| chunk1id := field 12 4 file;
            clsize := le_value (field 16 4 file);
            audioformat := le_value (field 20 2 file);
            audiochannels := le_value (field 22 2 file);
            samplerate := le_value (field 24 4 file);
            byterate := le_value (field 28 4 file);
            blockalign := le_value (field 32 2 file);
            bitspersample := le_value (field 34 2 file) |}
  else None.

Definition read_datahead (file : list byte) : option wave_datahead :=
  if (44 <=? length file)%nat then
    Some {| chunk2id := field 36 4 file;
            chunk2size := le_value (field 40 4 file) |}
  else None.

End Wave.

(** ** The sample formula of the specification

    For two harmonics the specification gives each sample as
    [truncate(sin(2 pi 440 t) * (32765/2) + sin(2 pi 880 t) * (32765/2))]:
    the two products and their sum are exact, and the sum is truncated
    once.  [Formula.two_harmonics] computes this in rational arithmetic
    from the values [sinf] returns for the angles of the program. *)

Module Formula.

Definition value (x : spec_float) : Q :=
  match x with
  | S754_finite s m e => (inject_Z (cond_Zopp s (Zpos m)) * Qpower 2 e)%Q
  | _ => 0%Q
  end.

Definition truncate (q : Q) : Z :=
  if Qle_bool 0 q then Qfloor q else Qceiling q.

Definition sine (sinf : spec_float -> spec_float) (f n : Z) : Q :=
  value (sinf (Float.float_of_double (angle f n))).

Definition two_harmonics (sinf : spec_float -> spec_float) (f1 f2 n : Z) : Z :=
  truncate (sine sinf f1 n * (32765 # 2) + sine sinf f2 n * (32765 # 2))%Q.

(** The time of the specification, [t = (n mod sampleRate) / sampleRate]
    in seconds, and its sine argument [2 pi f t], with [M_PI] for pi. *)
Definition time (n : Z) : Q := Qmake (n mod 44100) 44100.

Definition phase (f n : Z) : Q :=
  (2 * value Float.M_PI * inject_Z f * time n)%Q.

(** [x] is within [eps * y] of [y], for [y] that is not negative. *)
Definition close (eps x y : Q) : Prop :=
  ((1 - eps) * y <= x <= (1 + eps) * y)%Q.

(** Rounding a positive number to [prec] bits, in the normal range,
    multiplies it by a factor between [least prec] and [most prec]. *)
Definition least (prec : Z) : Q :=
  Qmake ((2 ^ (prec - 1) - 1) * (2 ^ (prec - 1) - 1))
        (Z.to_pos (2 ^ (prec - 1) * 2 ^ (prec - 1))).

Definition most (prec : Z) : Q :=
  Qmake (2 ^ (prec - 1) + 1) (Z.to_pos (2 ^ (prec - 1))).

End Formula.

(** [sinf] stays within [[-1, 1]] on every angle the program computes for
    the frequencies of [a]. *)
Definition sine_bounded (sinf : spec_float -> spec_float) (a : arguments)
  : Prop :=
  forall f j, In f (freqbuff a) -> 0 <= j < waverate ->
    Float.magnitude_le 1 (sinf (Float.float_of_double (angle f j))).

(** The bytes the program hands to [fwrite], in order. *)
Definition image (wavesize : Z) (wavebuff : list Z) : list byte :=
  Memory.of_riffhead (riffhead wavesize) ++ Memory.of_frmthead frmthead
  ++ Memory.of_datahead (datahead wavesize) ++ Memory.of_shorts wavebuff.

(** ** Notions used in the proofs *)

Definition is_uint (z : Z) : Prop := 0 <= z < Int.UINT_MODULUS.

(** What [read_arguments] guarantees about its result. *)
Definition well_formed (a : arguments) : Prop :=
  freqsize a = Z.of_nat (length (freqbuff a)) /\ 0 < freqsize a /\
  is_uint (filetime a) /\ Forall is_uint (freqbuff a).

(** The cells below [n] hold the signal: cell [m] holds the sample for
    the position [m mod waverate] inside its second. *)
Definition filled (sinf : spec_float -> spec_float) (a : arguments) (n : Z)
    (buf : list Z) : Prop :=
  forall m, 0 <= m < n ->
    exists v, buf !! Z.to_nat m = Some v /\ sample sinf a (m mod waverate) = Ok v.

(** The state of the buffer when the loops have reached second [i],
    position [j]. *)
Definition progress (sinf : spec_float -> spec_float) (a : arguments)
    (len : nat) (i j : Z) (buf : list Z) : Prop :=
  length buf = len /\ i * waverate + j <= Z.of_nat len /\
  filled sinf a (i * waverate + j) buf.

Definition unit_sine (sinf : spec_float -> spec_float) (f j : Z) : Prop :=
  Float.magnitude_le 1 (sinf (Float.float_of_double (angle f j))).

(** [x] is a positive finite number of [prec] bits whose exponent is at
    least [k] and whose value lies between [lo * v] and [hi * v]. *)
Definition tracks (prec : Z) (lo hi v : Q) (k : Z) (x : spec_float) : Prop :=
  match x with
  | S754_finite false m e =>
      Zpos m < 2 ^ prec /\ k <= e /\ (lo * v <= Formula.value x <= hi * v)%Q
  | _ => False
  end.

(** [m * 2^e <= n], without fractions. *)
Definition le2 (m e n : Z) : Prop :=
  m * 2 ^ Z.max e 0 <= n * 2 ^ Z.max (- e) 0.

Definition inexact (l : location) : Z :=
  match l with
  | loc_Exact => 0
  | loc_Inexact _ => 1
  end.

Definition sticky (x : shr_record) : Z :=
  if shr_r x || shr_s x then 1 else 0.

(** One application of [shr_1] after another: the mantissa is divided by
    two each time, and the round and sticky bits are only set when a one
    was shifted out or they were set before. *)
Definition shifted (k : Z) (x y : shr_record) : Prop :=
  (0 <= shr_m x -> shr_m y = shr_m x / 2 ^ k) /\
  (0 <= shr_m x -> shr_r y || shr_s y = true ->
   shr_m x mod 2 ^ k <> 0 \/ shr_r x || shr_s x = true).

(** ** Command lines and devices used as examples *)

Module Example.

Local Open Scope string_scope.

(** [wavdump a.wav 1 f] *)
Definition one_frequency (f : string) : list string :=
  ["wavdump"; "a.wav"; "1"; f].

(** [wavdump a.wav d 440] *)
Definition with_duration (d : string) : list string :=
  ["wavdump"; "a.wav"; d; "440"].

(** [wavdump a.wav 1 440 880] *)
Definition two_harmonics : list string :=
  ["wavdump"; "a.wav"; "1"; "440"; "880"].

(** [wavdump a.wav 1 5 440 5] *)
Definition repeated_frequency : list string :=
  ["wavdump"; "a.wav"; "1"; "5"; "440"; "5"].

(** [wavdump a.wav 1 440 ... 440], with 32766 frequencies *)
Definition many_frequencies : list string :=
  ["wavdump"; "a.wav"; "1"] ++ repeat "440" (Z.to_nat 32766).

(** What [read_arguments] makes of these command lines: the file name
    [a.wav], a duration and a list of frequencies. *)
Definition request (filetime : Z) (freqbuff : list Z) : arguments :=
  {| filename := "a.wav";
     filetime := filetime;
     freqsize := Z.of_nat (length freqbuff);
     freqbuff := freqbuff |}.

(** A device that takes a whole second of sound, and one that fails
    after ten bytes. *)
Definition roomy (name : string) : device :=
  {| creatable := true; room := Z.to_nat 88244 |}.
Definition cramped (name : string) : device :=
  {| creatable := true; room := 10 |}.

End Example.

(** The 44 bytes of the three headers. *)
Definition headers (wavesize : Z) : list byte :=
  Memory.of_riffhead (riffhead wavesize) ++ Memory.of_frmthead frmthead
  ++ Memory.of_datahead (datahead wavesize).

(** * Proofs *)

(** * Rounding never crosses a representable bound *)

Section Rounding.

Variables prec emax : Z.
Hypothesis prec_pos : 0 < prec.
Hypothesis prec_emax : 2 * prec <= emax.

Lemma digits2_pos_bounds (m : positive) :
  2 ^ (Zpos (digits2_pos m) - 1) <= Zpos m < 2 ^ Zpos (digits2_pos m).
Proof.
  induction m as [m IH | m IH |]; cbn [digits2_pos].
  - rewrite Pos2Z.inj_succ, Z.pow_succ_r by lia.
    replace (Z.succ (Zpos (digits2_pos m)) - 1) with (Z.succ (Zpos (digits2_pos m) - 1)) by lia.
    rewrite Z.pow_succ_r by lia. lia.
  - rewrite Pos2Z.inj_succ, Z.pow_succ_r by lia.
    replace (Z.succ (Zpos (digits2_pos m)) - 1) with (Z.succ (Zpos (digits2_pos m) - 1)) by lia.
    rewrite Z.pow_succ_r by lia. lia.
  - cbn. lia.
Qed.

Lemma Zdigits2_nonneg (m : Z) : 0 <= Zdigits2 m.
Proof. destruct m; cbn; lia. Qed.

Lemma Zdigits2_lt (m : Z) : 0 <= m -> m < 2 ^ Zdigits2 m.
Proof.
  destruct m as [| p | p]; cbn [Zdigits2]; intros H; try lia.
  apply digits2_pos_bounds.
Qed.

Lemma Zdigits2_le (m k : Z) : 0 <= m -> 0 <= k -> m < 2 ^ k -> Zdigits2 m <= k.
Proof.
  intros Hm Hk Hlt. destruct m as [| p | p]; cbn [Zdigits2]; try lia.
  destruct (Z_lt_le_dec k (Zpos (digits2_pos p))) as [Hc | Hc]; [ | lia ].
  exfalso. pose proof (digits2_pos_bounds p) as [Hlo _].
  assert (2 ^ k <= 2 ^ (Zpos (digits2_pos p) - 1)) by (apply Z.pow_le_mono_r; lia).
  lia.
Qed.

Lemma shifted_shr_1 (x : shr_record) : shifted 1 x (shr_1 x).
Proof.
  destruct x as [m r s]. unfold shifted. cbn [shr_m shr_r shr_s].
  change (2 ^ 1) with 2.
  destruct m as [| [p | p |] | p]; cbn [shr_1 shr_m shr_r shr_s]; split; intros Hm; try lia.
  - reflexivity.
  - intros H. right. rewrite orb_false_l in H. exact H.
  - rewrite Pos2Z.inj_xI. apply Z.div_unique with 1; lia.
  - intros _. left. rewrite Pos2Z.inj_xI. intros Hz.
    apply Z.mod_divide in Hz; [ | lia ]. destruct Hz as [q Hq]. lia.
  - rewrite Pos2Z.inj_xO. apply Z.div_unique with 0; lia.
  - intros H. right. rewrite orb_false_l in H. exact H.
  - reflexivity.
  - intros _. left. discriminate.
Qed.

Lemma shifted_trans (a b : Z) (x y z : shr_record) :
  0 <= a -> 0 <= b -> shifted a x y -> shifted b y z -> shifted (a + b) x z.
Proof.
  intros Ha Hb [Hxy1 Hxy2] [Hyz1 Hyz2]. split.
  - intros Hx. specialize (Hxy1 Hx).
    assert (0 <= shr_m y) by (rewrite Hxy1; apply Z.div_pos; lia).
    rewrite Hyz1, Hxy1 by assumption.
    rewrite Z.pow_add_r, Z.div_div by lia. reflexivity.
  - intros Hx Hz. specialize (Hxy1 Hx).
    assert (Hy : 0 <= shr_m y) by (rewrite Hxy1; apply Z.div_pos; lia).
    destruct (Hyz2 Hy Hz) as [Hmod | Hrs].
    + left. intros Hzero. apply Hmod. rewrite Hxy1.
      rewrite Z.pow_add_r in Hzero by lia.
      apply Z.mod_divide in Hzero; [ | lia ].
      destruct Hzero as [q Hq]. rewrite Hq.
      replace (q * (2 ^ a * 2 ^ b)) with (q * 2 ^ b * 2 ^ a) by ring.
      rewrite Z.div_mul by lia. apply Z.mod_mul. lia.
    + destruct (Hxy2 Hx Hrs) as [Hmod | Hrs'].
      * left. intros Hzero. apply Hmod.
        rewrite Z.pow_add_r in Hzero by lia.
        apply Z.mod_divide in Hzero; [ | lia ].
        destruct Hzero as [q Hq]. rewrite Hq.
        replace (q * (2 ^ a * 2 ^ b)) with (q * 2 ^ b * 2 ^ a) by ring.
        apply Z.mod_mul. lia.
      * right. exact Hrs'.
Qed.

Lemma shifted_iter_pos (p : positive) (x : shr_record) :
  shifted (Zpos p) x (SpecFloat.iter_pos shr_1 p x).
Proof.
  revert x. induction p as [p IH | p IH |]; intros x; cbn [SpecFloat.iter_pos].
  - rewrite Pos2Z.inj_xI.
    replace (2 * Zpos p + 1) with (1 + Zpos p + Zpos p) by lia.
    apply shifted_trans with (SpecFloat.iter_pos shr_1 p (shr_1 x)); try lia; [ | apply IH ].
    apply shifted_trans with (shr_1 x); try lia; [ apply shifted_shr_1 | apply IH ].
  - rewrite Pos2Z.inj_xO.
    replace (2 * Zpos p) with (Zpos p + Zpos p) by lia.
    apply shifted_trans with (SpecFloat.iter_pos shr_1 p x); try lia; apply IH.
  - apply shifted_shr_1.
Qed.


Lemma le2_scale (m e n k : Z) :
  0 <= k -> 0 <= e + k -> le2 m e n <-> m * 2 ^ (e + k) <= n * 2 ^ k.
Proof.
  intros Hk Hek. unfold le2.
  destruct (Z_le_gt_dec 0 e) as [He | He].
  - rewrite Z.max_l, Z.max_r by lia. rewrite Z.pow_add_r by lia.
    change (2 ^ 0) with 1. rewrite Z.mul_1_r, Z.mul_assoc.
    assert (0 < 2 ^ k) by (apply Z.pow_pos_nonneg; lia).
    apply Z.mul_le_mono_pos_r. assumption.
  - rewrite Z.max_r, Z.max_l by lia.
    change (2 ^ 0) with 1. rewrite Z.mul_1_r.
    replace k with (- e + (e + k)) at 2 by lia.
    rewrite (Z.pow_add_r 2 (- e) (e + k)) by lia. rewrite Z.mul_assoc.
    assert (0 < 2 ^ (e + k)) by (apply Z.pow_pos_nonneg; lia).
    apply Z.mul_le_mono_pos_r. assumption.
Qed.

Lemma le2_mono (m m' e n n' : Z) :
  m' <= m -> n <= n' -> le2 m e n -> le2 m' e n'.
Proof.
  unfold le2. intros Hm Hn H.
  assert (0 < 2 ^ Z.max e 0) by (apply Z.pow_pos_nonneg; lia).
  assert (0 < 2 ^ Z.max (- e) 0) by (apply Z.pow_pos_nonneg; lia).
  nia.
Qed.

Lemma div_round_up (m n a d0 d1 : Z) :
  0 <= m -> 0 <= n -> 0 <= d0 <= 1 -> 0 <= d1 <= 1 ->
  m + d0 <= a * 2 ^ n ->
  (d1 = 1 -> m mod 2 ^ n <> 0 \/ d0 = 1) ->
  m / 2 ^ n + d1 <= a.
Proof.
  intros Hm Hn Hd0 Hd1 Hle Hin.
  assert (Hp : 0 < 2 ^ n) by (apply Z.pow_pos_nonneg; lia).
  pose proof (Z.div_mod m (2 ^ n) ltac:(lia)) as Hdm.
  pose proof (Z.mod_pos_bound m (2 ^ n) Hp) as Hr.
  destruct (Z.eq_dec d1 1) as [H1 | H1].
  - destruct (Hin H1) as [Hnz | H0]; nia.
  - nia.
Qed.

Lemma sticky_of_loc (m : Z) (l : location) :
  sticky (shr_record_of_loc m l) = inexact l /\ shr_m (shr_record_of_loc m l) = m.
Proof. destruct l as [| []]; cbn; auto. Qed.

Lemma round_nearest_even_bounds (x : shr_record) :
  shr_m x <= round_nearest_even (shr_m x) (loc_of_shr_record x) <= shr_m x + sticky x.
Proof.
  destruct x as [m [] []]; cbn; try lia.
  destruct (Z.even m); lia.
Qed.

(** What [shr_fexp] returns: the exponent grows by the number of bits
    shifted out, and that number is zero when the mantissa is short
    enough already. *)
Lemma shr_fexp_spec (m e : Z) (l : location) :
  let n := fexp prec emax (Zdigits2 m + e) - e in
  let '(r, e') := shr_fexp prec emax m e l in
  (n <= 0 /\ r = shr_record_of_loc m l /\ e' = e) \/
  (0 < n /\ shifted n (shr_record_of_loc m l) r /\ e' = e + n).
Proof.
  unfold shr_fexp, shr. cbv zeta.
  destruct (fexp prec emax (Zdigits2 m + e) - e) as [| p | p] eqn:Hn.
  - left. repeat split; reflexivity || lia.
  - right. split; [ lia | ]. split; [ apply shifted_iter_pos | reflexivity ].
  - left. repeat split; reflexivity || lia.
Qed.

Lemma emin_nonpos : emin prec emax <= 0.
Proof. unfold emin. lia. Qed.

(** A first right shift followed by rounding to nearest stays below a
    bound [b * 2^c] that is itself representable. *)
Lemma shr_fexp_round_le (m e : Z) (l : location) (b c : Z) :
  0 <= m -> 0 <= b < 2 ^ prec -> 0 <= c ->
  le2 (m + inexact l) e (b * 2 ^ c) ->
  let '(r, e') := shr_fexp prec emax m e l in
  0 <= shr_m r /\ le2 (shr_m r + sticky r) e' (b * 2 ^ c).
Proof.
  intros Hm Hb Hc Hle.
  pose proof (shr_fexp_spec m e l) as Hspec. cbv zeta in Hspec.
  destruct (shr_fexp prec emax m e l) as [r e'].
  destruct (sticky_of_loc m l) as [Hst Hsm].
  destruct Hspec as [(Hn & -> & ->) | (Hn & [Hsh1 Hsh2] & ->)].
  - rewrite Hst, Hsm. auto.
  - rewrite Hsm in Hsh1, Hsh2. specialize (Hsh1 Hm). specialize (Hsh2 Hm).
    set (n := fexp prec emax (Zdigits2 m + e) - e) in *.
    assert (Hr0 : 0 <= shr_m r) by (rewrite Hsh1; apply Z.div_pos; [ lia | apply Z.pow_pos_nonneg; lia ]).
    split; [ exact Hr0 | ].
    set (k := Z.max 0 (- e)).
    assert (Hk : 0 <= k) by lia. assert (Hek : 0 <= e + k) by lia.
    apply (le2_scale _ _ _ k Hk Hek) in Hle.
    assert (Hpk : 0 < 2 ^ k) by (apply Z.pow_pos_nonneg; lia).
    assert (Hpek : 0 < 2 ^ (e + k)) by (apply Z.pow_pos_nonneg; lia).
    assert (Hpc : 0 < 2 ^ c) by (apply Z.pow_pos_nonneg; lia).
    assert (Hinex : 0 <= inexact l <= 1) by (destruct l; cbn; lia).
    (* the new exponent does not exceed [c] *)
    assert (He' : e + n <= c).
    { unfold n. replace (e + (fexp prec emax (Zdigits2 m + e) - e))
        with (fexp prec emax (Zdigits2 m + e)) by lia.
      unfold fexp. pose proof emin_nonpos. apply Z.max_lub; [ | lia ].
      destruct (Z_le_gt_dec (Zdigits2 m + e - prec) c) as [Hok | Hbad]; [ exact Hok | exfalso ].
      assert (Hmpos : 0 < m).
      { destruct m as [| p | p]; try lia. cbn [Zdigits2] in Hbad.
        unfold n, fexp in Hn. cbn [Zdigits2] in Hn. lia. }
      destruct m as [| p | p]; try lia. cbn [Zdigits2] in Hbad.
      pose proof (digits2_pos_bounds p) as [Hlo _].
      assert (Hbig : 2 ^ (c + prec + k) <= Zpos p * 2 ^ (e + k)).
      { destruct (Z_le_gt_dec e (c + prec)) as [Hec | Hec].
        - replace (c + prec + k) with ((c + prec - e) + (e + k)) by lia.
          rewrite Z.pow_add_r by lia.
          apply Z.mul_le_mono_nonneg_r; [ lia | ].
          etransitivity; [ | exact Hlo ]. apply Z.pow_le_mono_r; lia.
        - assert (2 ^ (c + prec + k) <= 2 ^ (e + k)) by (apply Z.pow_le_mono_r; lia).
          nia. }
      assert (Hsmall : b * 2 ^ c * 2 ^ k < 2 ^ (c + prec + k)).
      { replace (c + prec + k) with (prec + c + k) by lia.
        rewrite !Z.pow_add_r by lia. nia. }
      nia. }
    apply (le2_scale _ _ _ k Hk); [ lia | ].
    set (a := b * 2 ^ (c - (e + n))).
    assert (Ha : b * 2 ^ c * 2 ^ k = a * 2 ^ n * 2 ^ (e + k)).
    { unfold a. rewrite <- !Z.mul_assoc. f_equal.
      rewrite <- !Z.pow_add_r by lia. f_equal. lia. }
    assert (Hdiv : m / 2 ^ n + sticky r <= a).
    { apply div_round_up with (inexact l); try lia.
      - unfold sticky. destruct (shr_r r || shr_s r); lia.
      - rewrite Ha in Hle. nia.
      - intros Hs1. unfold sticky in Hs1.
        destruct (shr_r r || shr_s r) eqn:Hrs; [ | lia ].
        destruct (Hsh2 eq_refl) as [Hmod | Hl]; [ left; exact Hmod | right ].
        rewrite <- Hst. unfold sticky. rewrite Hl. reflexivity. }
    rewrite Hsh1.
    replace (e + n + k) with (n + (e + k)) by lia.
    rewrite Ha, Z.pow_add_r by lia.
    assert (0 < 2 ^ n) by (apply Z.pow_pos_nonneg; lia).
    rewrite <- (Z.mul_assoc a).
    apply Z.mul_le_mono_nonneg_r; [ nia | exact Hdiv ].
Qed.


Lemma le2_pos_exponent (p : positive) (e b c : Z) :
  0 <= b < 2 ^ prec -> 0 <= c -> le2 (Zpos p) e (b * 2 ^ c) -> e < prec + c.
Proof.
  intros Hb Hc Hle.
  set (k := Z.max 0 (- e)).
  apply (le2_scale _ _ _ k) in Hle; try lia.
  destruct (Z_lt_le_dec e (prec + c)) as [Hok | Hbad]; [ exact Hok | exfalso ].
  assert (0 < 2 ^ k) by (apply Z.pow_pos_nonneg; lia).
  assert (0 < 2 ^ c) by (apply Z.pow_pos_nonneg; lia).
  assert (2 ^ (prec + c + k) <= 2 ^ (e + k)) by (apply Z.pow_le_mono_r; lia).
  assert (b * 2 ^ c * 2 ^ k < 2 ^ (prec + c + k)).
  { rewrite !Z.pow_add_r by lia. nia. }
  assert (0 < 2 ^ (e + k)) by (apply Z.pow_pos_nonneg; lia).
  nia.
Qed.

(** Rounding a mantissa and an exponent to the format: a value at most
    [b * 2^c] is rounded to a zero or a finite number at most
    [b * 2^c]. *)
Lemma binary_round_aux_le (s : bool) (m e : Z) (l : location) (b c : Z) :
  0 <= m -> 0 <= b < 2 ^ prec -> 0 <= c <= emax - 2 * prec + 1 ->
  le2 (m + inexact l) e (b * 2 ^ c) ->
  Float.magnitude_le (b * 2 ^ c) (binary_round_aux prec emax s m e l).
Proof.
  intros Hm Hb Hc Hle. unfold binary_round_aux.
  pose proof (shr_fexp_round_le m e l b c Hm Hb (proj1 Hc) Hle) as H1.
  destruct (shr_fexp prec emax m e l) as [r1 e1]. destruct H1 as [Hr1 Hle1].
  pose proof (round_nearest_even_bounds r1) as Hrne.
  set (mr := round_nearest_even (shr_m r1) (loc_of_shr_record r1)) in *.
  assert (Hmr : 0 <= mr) by lia.
  assert (Hle2 : le2 (mr + inexact loc_Exact) e1 (b * 2 ^ c)).
  { cbn [inexact]. apply le2_mono with (shr_m r1 + sticky r1) (b * 2 ^ c); lia || assumption. }
  pose proof (shr_fexp_round_le mr e1 loc_Exact b c Hmr Hb (proj1 Hc) Hle2) as H2.
  destruct (shr_fexp prec emax mr e1 loc_Exact) as [r2 e2]. destruct H2 as [Hr2 Hle3].
  assert (Hfin : le2 (shr_m r2) e2 (b * 2 ^ c)).
  { apply le2_mono with (shr_m r2 + sticky r2) (b * 2 ^ c); try lia; try assumption.
    unfold sticky. destruct (shr_r r2 || shr_s r2); lia. }
  assert (0 < 2 ^ c) by (apply Z.pow_pos_nonneg; lia).
  destruct (shr_m r2) as [| p | p] eqn:Hp; cbn [Float.magnitude_le]; try nia.
  pose proof (le2_pos_exponent p e2 b c Hb (proj1 Hc) Hfin) as He2.
  replace (e2 <=? emax - prec) with true by (symmetry; apply Z.leb_le; lia).
  exact Hfin.
Qed.

Lemma iter_xO_value (d m : positive) :
  Zpos (Pos.iter xO m d) = Zpos m * 2 ^ Zpos d.
Proof.
  induction d as [| d IH] using Pos.peano_ind.
  - cbn. lia.
  - rewrite Pos.iter_succ, Pos2Z.inj_xO, IH, Pos2Z.inj_succ, Z.pow_succ_r by lia.
    ring.
Qed.

Lemma shl_align_value (mx : positive) (ex ex' : Z) :
  let '(m, e) := shl_align mx ex ex' in
  e <= ex /\ Zpos m = Zpos mx * 2 ^ (ex - e).
Proof.
  unfold shl_align. destruct (ex' - ex) as [| d | d] eqn:Hd.
  - rewrite Z.sub_diag. change (2 ^ 0) with 1. lia.
  - rewrite Z.sub_diag. change (2 ^ 0) with 1. lia.
  - split; [ lia | ]. replace (ex - ex') with (Zpos d) by lia.
    apply iter_xO_value.
Qed.

Lemma le2_shift (m e e' n : Z) :
  e' <= e -> le2 m e n -> le2 (m * 2 ^ (e - e')) e' n.
Proof.
  intros He Hle. set (k := Z.max 0 (- e')).
  apply (le2_scale _ _ _ k); try lia.
  apply (le2_scale _ _ _ k) in Hle; try lia.
  rewrite <- Z.mul_assoc, <- Z.pow_add_r by lia.
  replace (e - e' + (e' + k)) with (e + k) by lia. exact Hle.
Qed.

Lemma binary_round_le (s : bool) (m : positive) (e b c : Z) :
  0 <= b < 2 ^ prec -> 0 <= c <= emax - 2 * prec + 1 ->
  le2 (Zpos m) e (b * 2 ^ c) ->
  Float.magnitude_le (b * 2 ^ c) (binary_round prec emax s m e).
Proof.
  intros Hb Hc Hle. unfold binary_round.
  pose proof (shl_align_value m e (fexp prec emax (Zpos (digits2_pos m) + e))) as Hsh.
  destruct (shl_align m e (fexp prec emax (Zpos (digits2_pos m) + e))) as [mz ez].
  destruct Hsh as [Hez Hmz].
  apply binary_round_aux_le; try assumption; try lia.
  cbn [inexact]. rewrite Z.add_0_r, Hmz. apply le2_shift; assumption.
Qed.

Lemma binary_normalize_le (m e b c : Z) (szero : bool) :
  0 <= b < 2 ^ prec -> 0 <= c <= emax - 2 * prec + 1 ->
  le2 (Z.abs m) e (b * 2 ^ c) ->
  Float.magnitude_le (b * 2 ^ c) (binary_normalize prec emax m e szero).
Proof.
  intros Hb Hc Hle.
  assert (0 < 2 ^ c) by (apply Z.pow_pos_nonneg; lia).
  destruct m as [| p | p]; cbn [binary_normalize Float.magnitude_le].
  - nia.
  - apply binary_round_le; assumption.
  - apply binary_round_le; assumption.
Qed.


Lemma magnitude_le_mono (n n' : Z) (x : spec_float) :
  n <= n' -> Float.magnitude_le n x -> Float.magnitude_le n' x.
Proof.
  intros Hn. destruct x as [s | s | | s m e]; cbn [Float.magnitude_le]; try lia.
  intros H. exact (le2_mono _ _ _ _ _ (Z.le_refl _) Hn H).
Qed.

Lemma magnitude_le_nonneg (n : Z) (x : spec_float) :
  Float.magnitude_le n x -> 0 <= n.
Proof.
  destruct x as [s | s | | s m e]; cbn [Float.magnitude_le]; intros H; try lia.
  all: assert (0 < 2 ^ Z.max e 0) by (apply Z.pow_pos_nonneg; lia).
  all: assert (0 < 2 ^ Z.max (- e) 0) by (apply Z.pow_pos_nonneg; lia).
  all: nia.
Qed.

Lemma le2_mul (m1 e1 n1 m2 e2 n2 : Z) :
  0 <= m1 -> 0 <= m2 -> le2 m1 e1 n1 -> le2 m2 e2 n2 ->
  le2 (m1 * m2) (e1 + e2) (n1 * n2).
Proof.
  intros Hm1 Hm2 H1 H2.
  set (k1 := Z.max 0 (- e1)). set (k2 := Z.max 0 (- e2)).
  apply (le2_scale _ _ _ k1) in H1; try lia.
  apply (le2_scale _ _ _ k2) in H2; try lia.
  apply (le2_scale _ _ _ (k1 + k2)); try lia.
  replace (e1 + e2 + (k1 + k2)) with ((e1 + k1) + (e2 + k2)) by lia.
  rewrite (Z.pow_add_r 2 (e1 + k1) (e2 + k2)), (Z.pow_add_r 2 k1 k2) by lia.
  assert (0 < 2 ^ (e1 + k1)) by (apply Z.pow_pos_nonneg; lia).
  assert (0 < 2 ^ (e2 + k2)) by (apply Z.pow_pos_nonneg; lia).
  replace (m1 * m2 * (2 ^ (e1 + k1) * 2 ^ (e2 + k2)))
    with ((m1 * 2 ^ (e1 + k1)) * (m2 * 2 ^ (e2 + k2))) by ring.
  replace (n1 * n2 * (2 ^ k1 * 2 ^ k2)) with ((n1 * 2 ^ k1) * (n2 * 2 ^ k2)) by ring.
  apply Z.mul_le_mono_nonneg; try assumption; apply Z.mul_nonneg_nonneg; lia.
Qed.

Lemma le2_add (m1 m2 e n1 n2 : Z) :
  le2 m1 e n1 -> le2 m2 e n2 -> le2 (m1 + m2) e (n1 + n2).
Proof. unfold le2. nia. Qed.

(** The product of two numbers of magnitude at most [n1] and [n2]. *)
Lemma SFmul_le (x y : spec_float) (n1 n2 b c : Z) :
  0 <= b < 2 ^ prec -> 0 <= c <= emax - 2 * prec + 1 ->
  n1 * n2 <= b * 2 ^ c ->
  Float.magnitude_le n1 x -> Float.magnitude_le n2 y ->
  Float.magnitude_le (b * 2 ^ c) (SFmul prec emax x y).
Proof.
  intros Hb Hc Hn Hx Hy.
  assert (0 < 2 ^ c) by (apply Z.pow_pos_nonneg; lia).
  destruct x as [sx | sx | | sx mx ex]; cbn [Float.magnitude_le] in Hx; try contradiction;
    destruct y as [sy | sy | | sy my ey]; cbn [Float.magnitude_le] in Hy; try contradiction;
    cbn [SFmul Float.magnitude_le]; try nia.
  apply binary_round_aux_le; try assumption; try lia.
  cbn [inexact]. rewrite Z.add_0_r, Pos2Z.inj_mul.
  apply le2_mono with (Zpos mx * Zpos my) (n1 * n2); try lia.
  apply le2_mul; try lia; assumption.
Qed.

Lemma shl_align_fst (mx : positive) (ex ez : Z) :
  ez <= ex -> Zpos (fst (shl_align mx ex ez)) = Zpos mx * 2 ^ (ex - ez).
Proof.
  intros He. unfold shl_align. destruct (ez - ex) as [| d | d] eqn:Hd; cbn [fst].
  - replace (ex - ez) with 0 by lia. change (2 ^ 0) with 1. lia.
  - lia.
  - replace (ex - ez) with (Zpos d) by lia. apply iter_xO_value.
Qed.

(** The sum of two numbers of magnitude at most [n1] and [n2]. *)
Lemma SFadd_le (x y : spec_float) (n1 n2 b c : Z) :
  0 <= b < 2 ^ prec -> 0 <= c <= emax - 2 * prec + 1 ->
  n1 + n2 <= b * 2 ^ c ->
  Float.magnitude_le n1 x -> Float.magnitude_le n2 y ->
  Float.magnitude_le (b * 2 ^ c) (SFadd prec emax x y).
Proof.
  intros Hb Hc Hn Hx Hy.
  pose proof (magnitude_le_nonneg _ _ Hx) as Hn1.
  pose proof (magnitude_le_nonneg _ _ Hy) as Hn2.
  destruct x as [sx | sx | | sx mx ex]; try contradiction;
    destruct y as [sy | sy | | sy my ey]; try contradiction.
  - cbn [SFadd]. destruct sx, sy; cbn [Float.magnitude_le]; lia.
  - cbn [SFadd]. apply magnitude_le_mono with n2; [ lia | assumption ].
  - cbn [SFadd]. apply magnitude_le_mono with n1; [ lia | assumption ].
  - cbn [SFadd Float.magnitude_le] in *. cbv zeta.
    set (ez := Z.min ex ey).
    apply binary_normalize_le; try assumption.
    rewrite !shl_align_fst by (unfold ez; lia).
    apply le2_mono with (Zpos mx * 2 ^ (ex - ez) + Zpos my * 2 ^ (ey - ez)) (n1 + n2); try lia.
    + assert (0 < 2 ^ (ex - ez)) by (apply Z.pow_pos_nonneg; unfold ez; lia).
      assert (0 < 2 ^ (ey - ez)) by (apply Z.pow_pos_nonneg; unfold ez; lia).
      destruct sx, sy; cbn [cond_Zopp]; lia.
    + apply le2_add; apply le2_shift; (unfold ez; lia) || assumption.
Qed.

Lemma new_location_inexact (n k : Z) : inexact (new_location n k) = 1 -> k <> 0.
Proof.
  unfold new_location, new_location_even, new_location_odd.
  intros H ->. destruct (Z.even n); cbn in H; discriminate.
Qed.

Lemma shiftl_cases (m s : Z) :
  0 <= s ->
  match s with Zpos _ => Z.shiftl m s | Z0 => m | Zneg _ => 0 end = m * 2 ^ s.
Proof.
  intros Hs. destruct s as [| p | p]; try lia.
  rewrite Z.shiftl_mul_pow2 by lia. reflexivity.
Qed.

(** A quotient by a number that is at least one. *)
Lemma SFdiv_le (x : spec_float) (sy : bool) (my : positive) (ey : Z) (n b c : Z) :
  0 <= b < 2 ^ prec -> 0 <= c <= emax - 2 * prec + 1 ->
  n <= b * 2 ^ c -> ey <= 0 -> 2 ^ (- ey) <= Zpos my ->
  Float.magnitude_le n x ->
  Float.magnitude_le (b * 2 ^ c) (SFdiv prec emax x (S754_finite sy my ey)).
Proof.
  intros Hb Hc Hn Hey Hy Hx.
  assert (Hpc : 0 < 2 ^ c) by (apply Z.pow_pos_nonneg; lia).
  destruct x as [sx | sx | | sx mx ex]; cbn [Float.magnitude_le] in Hx; try contradiction;
    cbn [SFdiv Float.magnitude_le]; try nia.
  unfold SFdiv_core_binary. cbv zeta.
  set (e' := Z.min (fexp prec emax (Zdigits2 (Zpos mx) + ex - (Zdigits2 (Zpos my) + ey))) (ex - ey)).
  set (s := ex - ey - e').
  assert (Hs : 0 <= s) by (unfold s, e'; lia).
  set (m' := match s with Zpos _ => Z.shiftl (Zpos mx) s | Z0 => Zpos mx | Zneg _ => 0 end).
  assert (Hm' : m' = Zpos mx * 2 ^ s) by (apply shiftl_cases; exact Hs).
  pose proof (Z.div_eucl_eq m' (Zpos my) ltac:(lia)) as Hdiv.
  pose proof (Z.mod_pos_bound m' (Zpos my) ltac:(lia)) as Hrem.
  unfold Z.modulo in Hrem.
  destruct (Z.div_eucl m' (Zpos my)) as [q r].
  assert (Hq : 0 <= q) by nia.
  apply binary_round_aux_le; try assumption.
  apply le2_mono with (m := q + inexact (new_location (Zpos my) r)) (n := b * 2 ^ c); try lia.
  (* the exponent of the quotient is not above [c] *)
  assert (Hx' : le2 (Zpos mx) ex (b * 2 ^ c)) by (apply le2_mono with (Zpos mx) n; lia || assumption).
  pose proof (le2_pos_exponent mx ex b c Hb (proj1 Hc) Hx') as Hex.
  assert (He'c : e' <= c).
  { unfold e'. etransitivity; [ apply Z.le_min_l | ].
    unfold fexp. pose proof emin_nonpos. apply Z.max_lub; [ | lia ].
    cbn [Zdigits2].
    pose proof (digits2_pos_bounds mx) as [Hlox _].
    pose proof (digits2_pos_bounds my) as [_ Hhiy].
    assert (Hdy : 1 <= Zpos (digits2_pos my) + ey).
    { destruct (Z_lt_le_dec (Zpos (digits2_pos my) + ey) 1) as [Hc' | Hc']; [ exfalso | lia ].
      assert (2 ^ Zpos (digits2_pos my) <= 2 ^ (- ey)) by (apply Z.pow_le_mono_r; lia). lia. }
    destruct (Z_le_gt_dec (Zpos (digits2_pos mx) + ex - prec) c) as [Hok | Hbad]; [ lia | exfalso ].
    set (k := Z.max 0 (- ex)).
    apply (le2_scale _ _ _ k) in Hx'; try lia.
    assert (Hbig : 2 ^ (c + prec + k) <= Zpos mx * 2 ^ (ex + k)).
    { replace (c + prec + k) with ((c + prec - ex) + (ex + k)) by lia.
      rewrite Z.pow_add_r by lia.
      apply Z.mul_le_mono_nonneg_r; [ apply Z.pow_nonneg; lia | ].
      etransitivity; [ | exact Hlox ]. apply Z.pow_le_mono_r; lia. }
    assert (0 < 2 ^ k) by (apply Z.pow_pos_nonneg; lia).
    assert (b * 2 ^ c * 2 ^ k < 2 ^ (c + prec + k)).
    { replace (c + prec + k) with (prec + c + k) by lia.
      rewrite !Z.pow_add_r by lia. nia. }
    lia. }
  set (k := Z.max 0 (- ex) + Z.max 0 (- e')).
  apply (le2_scale _ _ _ k); try lia.
  apply (le2_scale _ _ _ k) in Hx'; try lia.
  set (a := b * 2 ^ (c - e')).
  assert (Ha : b * 2 ^ c * 2 ^ k = a * 2 ^ (e' + k)).
  { unfold a. rewrite <- !Z.mul_assoc. f_equal.
    rewrite <- !Z.pow_add_r by lia. f_equal. lia. }
  assert (Hpy : 0 < 2 ^ (- ey)) by (apply Z.pow_pos_nonneg; lia).
  assert (Hpe : 0 < 2 ^ (e' + k)) by (apply Z.pow_pos_nonneg; lia).
  assert (Hsplit : Zpos mx * 2 ^ s * 2 ^ (e' + k) = Zpos mx * 2 ^ (ex + k) * 2 ^ (- ey)).
  { rewrite <- !Z.mul_assoc. f_equal. rewrite <- !Z.pow_add_r by lia. f_equal. unfold s. lia. }
  assert (Hqle : q * 2 ^ (e' + k) * 2 ^ (- ey) <= Zpos mx * 2 ^ (ex + k) * 2 ^ (- ey)).
  { rewrite <- Hsplit, <- Hm', Hdiv. nia. }
  rewrite Ha in *.
  apply Z.mul_le_mono_nonneg_r; [ lia | ].
  assert (Hqa : q * 2 ^ (e' + k) <= a * 2 ^ (e' + k)) by nia.
  destruct (Z.eq_dec (inexact (new_location (Zpos my) r)) 1) as [Hin | Hex1].
  - pose proof (new_location_inexact _ _ Hin) as Hr.
    rewrite Hin.
    assert (Hlt : q * 2 ^ (e' + k) * 2 ^ (- ey) < Zpos mx * 2 ^ (ex + k) * 2 ^ (- ey)).
    { rewrite <- Hsplit, <- Hm', Hdiv. nia. }
    apply Z.mul_lt_mono_pos_r in Hlt; [ | exact Hpy ].
    assert (Hlt' : q * 2 ^ (e' + k) < a * 2 ^ (e' + k)) by lia.
    apply Z.mul_lt_mono_pos_r in Hlt'; [ lia | exact Hpe ].
  - assert (Hz : inexact (new_location (Zpos my) r) = 0).
    { destruct (new_location (Zpos my) r); cbn in *; lia. }
    rewrite Hz. apply Z.mul_le_mono_pos_r in Hqa; [ lia | exact Hpe ].
Qed.

(** The integer part of a number of magnitude at most [n] fits [short]
    when [n] does. *)
Lemma to_short_le (x : spec_float) (n : Z) :
  n <= Int.SHRT_MAX -> Float.magnitude_le n x ->
  exists z, Float.to_short x = Ok z /\ - n <= z <= n.
Proof.
  intros Hn Hx. unfold Float.to_short.
  assert (Ht : exists z, Float.truncate x = Some z /\ - n <= z <= n).
  { destruct x as [s | s | | s m e]; cbn [Float.magnitude_le Float.truncate] in *; try contradiction.
    - exists 0. split; [ reflexivity | lia ].
    - eexists. split; [ reflexivity | ].
      destruct (Z.leb_spec 0 e) as [He | He].
      + rewrite Z.max_l, Z.max_r in Hx by lia. change (2 ^ 0) with 1 in Hx.
        destruct s; cbn [cond_Zopp]; lia.
      + rewrite Z.max_r, Z.max_l in Hx by lia. change (2 ^ 0) with 1 in Hx.
        assert (0 < 2 ^ (- e)) by (apply Z.pow_pos_nonneg; lia).
        assert (0 <= Zpos m / 2 ^ (- e) <= n).
        { split; [ apply Z.div_pos; lia | ].
          apply Z.div_le_upper_bound; lia. }
        destruct s; cbn [cond_Zopp]; lia. }
  destruct Ht as (z & -> & Hz). exists z.
  unfold Int.SHRT_MIN, Int.SHRT_MAX in *.
  replace ((-32768 <=? z) && (z <=? 32767)) with true; [ auto | ].
  symmetry. apply andb_true_iff. split; apply Z.leb_le; lia.
Qed.

End Rounding.

(** * How far rounding moves a number *)

Section Accuracy.

Variables prec emax : Z.
Hypothesis prec_pos : 0 < prec.

Lemma Zdigits2_ge (m : Z) : 0 < m -> 2 ^ (Zdigits2 m - 1) <= m.
Proof.
  destruct m as [| p | p]; try lia. intros _. cbn [Zdigits2].
  apply digits2_pos_bounds.
Qed.

(** One right shift to the format, for a mantissa in the normal range:
    [n] bits are dropped, none when the mantissa has at most [prec]
    bits. *)
Lemma shr_fexp_accurate (m e : Z) (l : location) :
  0 < m -> emin prec emax <= e ->
  exists n, 0 <= n /\ snd (shr_fexp prec emax m e l) = e + n /\
    shr_m (fst (shr_fexp prec emax m e l)) = m / 2 ^ n /\
    m < 2 ^ (prec + n) /\
    (n = 0 /\ sticky (fst (shr_fexp prec emax m e l)) = inexact l \/
     0 < n /\ 2 ^ (prec - 1 + n) <= m).
Proof.
  intros Hm He.
  pose proof (shr_fexp_spec prec emax m e l) as Hspec. cbv zeta in Hspec.
  destruct (shr_fexp prec emax m e l) as [r e']. cbn [fst snd].
  destruct (sticky_of_loc m l) as [Hst Hsm].
  pose proof (Zdigits2_lt m ltac:(lia)) as Hlt.
  pose proof (Zdigits2_ge m Hm) as Hge.
  assert (Hn : fexp prec emax (Zdigits2 m + e) - e
               = Z.max (Zdigits2 m - prec) (emin prec emax - e))
    by (unfold fexp; lia).
  rewrite Hn in Hspec.
  destruct Hspec as [(Hn0 & -> & ->) | (Hn0 & [Hsh _] & ->)].
  - exists 0. split; [ lia | ]. split; [ lia | ].
    rewrite Hsm, Z.div_1_r. split; [ reflexivity | ]. split.
    + rewrite Z.add_0_r. eapply Z.lt_le_trans; [ exact Hlt | ].
      apply Z.pow_le_mono_r; lia.
    + left. split; [ reflexivity | exact Hst ].
  - set (n := Z.max (Zdigits2 m - prec) (emin prec emax - e)) in *.
    assert (Hnd : n = Zdigits2 m - prec) by lia.
    exists n. split; [ lia | ]. split; [ reflexivity | ].
    rewrite Hsm in Hsh. split; [ apply Hsh; lia | ]. split.
    + replace (prec + n) with (Zdigits2 m) by lia. exact Hlt.
    + right. split; [ exact Hn0 | ].
      replace (prec - 1 + n) with (Zdigits2 m - 1) by lia. exact Hge.
Qed.

(** What one shift loses: the kept mantissa times [2^n] is within one
    part in [2^(prec-1)] of the mantissa it came from. *)
Lemma shift_loss (m n P : Z) :
  0 < m -> 0 <= n -> 0 < P -> (n = 0 \/ P * 2 ^ n <= m) ->
  0 < m / 2 ^ n /\
  m / 2 ^ n * 2 ^ n <= m /\
  (P - 1) * m <= P * (m / 2 ^ n * 2 ^ n) /\
  P * ((m / 2 ^ n + 1) * 2 ^ n) <= (P + 1) * m + (if n =? 0 then P else 0).
Proof.
  intros Hm Hn HP Hc.
  assert (HA : 0 < 2 ^ n) by (apply Z.pow_pos_nonneg; lia).
  pose proof (Z.mul_div_le m (2 ^ n) HA) as Hlo.
  pose proof (Z.mul_succ_div_gt m (2 ^ n) HA) as Hhi.
  destruct (Z.eqb_spec n 0) as [-> | Hn0].
  - change (2 ^ 0) with 1 in *. rewrite Z.div_1_r. nia.
  - destruct Hc as [Hc | Hc]; [ lia | ].
    assert (0 < m / 2 ^ n) by (apply Z.div_str_pos; nia).
    nia.
Qed.

Lemma binary_round_aux_accurate (s : bool) (m e : Z) (l : location) :
  0 < m -> emin prec emax <= e ->
  match binary_round_aux prec emax s m e l with
  | S754_finite s' m' e' =>
      s' = s /\ e <= e' /\ Zpos m' < 2 ^ prec /\
      (2 ^ (prec - 1) - 1) * (2 ^ (prec - 1) - 1) * m
        <= 2 ^ (prec - 1) * 2 ^ (prec - 1) * (Zpos m' * 2 ^ (e' - e)) /\
      2 ^ (prec - 1) * (Zpos m' * 2 ^ (e' - e))
        <= (2 ^ (prec - 1) + 1) * (m + inexact l)
  | S754_infinity _ => True
  | _ => False
  end.
Proof.
  intros Hm He. unfold binary_round_aux.
  destruct (shr_fexp_accurate m e l Hm He) as (n1 & Hn1 & He1 & Hm1 & Hlt1 & Hc1).
  destruct (shr_fexp prec emax m e l) as [r1 e1]. cbn [fst snd] in *.
  set (P := 2 ^ (prec - 1)).
  assert (HP : 0 < P) by (apply Z.pow_pos_nonneg; lia).
  assert (Hc1' : n1 = 0 \/ P * 2 ^ n1 <= m).
  { destruct Hc1 as [[H _] | [_ H]]; [ left; exact H | right ].
    unfold P. rewrite <- Z.pow_add_r by lia. exact H. }
  destruct (shift_loss m n1 P Hm Hn1 HP Hc1') as (Hp1 & Hle1 & Hlo1 & Hhi1).
  pose proof (round_nearest_even_bounds r1) as Hrne.
  set (mr := round_nearest_even (shr_m r1) (loc_of_shr_record r1)) in *.
  rewrite Hm1 in Hrne.
  assert (Hst1 : 0 <= sticky r1 <= 1) by (unfold sticky; destruct (_ || _); lia).
  assert (Hmr : 0 < mr) by lia.
  assert (He1' : emin prec emax <= e1) by lia.
  destruct (shr_fexp_accurate mr e1 loc_Exact Hmr He1') as (n2 & Hn2 & He2 & Hm2 & Hlt2 & Hc2).
  destruct (shr_fexp prec emax mr e1 loc_Exact) as [r2 e2]. cbn [fst snd] in *.
  assert (Hc2' : n2 = 0 \/ P * 2 ^ n2 <= mr).
  { destruct Hc2 as [[H _] | [_ H]]; [ left; exact H | right ].
    unfold P. rewrite <- Z.pow_add_r by lia. exact H. }
  destruct (shift_loss mr n2 P Hmr Hn2 HP Hc2') as (Hp2 & Hle2 & Hlo2 & Hhi2).
  rewrite <- Hm2 in Hp2, Hle2, Hlo2.
  assert (HA : 0 < 2 ^ n1) by (apply Z.pow_pos_nonneg; lia).
  assert (HB : 0 < 2 ^ n2) by (apply Z.pow_pos_nonneg; lia).
  assert (Hbound : shr_m r2 < 2 ^ prec).
  { rewrite Hm2. apply Z.div_lt_upper_bound; [ exact HB | ].
    rewrite <- Z.pow_add_r by lia. replace (n2 + prec) with (prec + n2) by lia. exact Hlt2. }
  destruct (shr_m r2) as [| p | p] eqn:Hp; try lia.
  destruct (e2 <=? emax - prec); [ | exact I ].
  split; [ reflexivity | ]. split; [ lia | ]. split; [ exact Hbound | ].
  replace (e2 - e) with (n1 + n2) by lia. rewrite Z.pow_add_r by lia.
  set (A := 2 ^ n1) in *. set (B := 2 ^ n2) in *. set (m1 := m / A) in *.
  (* the rounded mantissa against the exact one *)
  assert (Hmr_lo : (P - 1) * m <= P * (mr * A)) by nia.
  assert (Hmr_hi : P * (mr * A) <= (P + 1) * (m + inexact l)).
  { assert (Hin : 0 <= inexact l <= 1) by (destruct l; cbn; lia).
    destruct Hc1 as [[-> Hs] | [Hpos _]].
    - unfold A in *. change (2 ^ 0) with 1 in *. unfold m1 in *.
      rewrite Z.div_1_r in *. rewrite Hs in Hrne. nia.
    - replace (n1 =? 0) with false in Hhi1 by (symmetry; apply Z.eqb_neq; lia).
      nia. }
  split.
  - assert (H1 : (P - 1) * ((P - 1) * m) <= (P - 1) * (P * (mr * A)))
      by (apply Z.mul_le_mono_nonneg_l; lia).
    assert (H2 : P * A * ((P - 1) * mr) <= P * A * (P * (Zpos p * B)))
      by (apply Z.mul_le_mono_nonneg_l; nia).
    nia.
  - assert (H3 : P * (Zpos p * B * A) <= P * (mr * A)).
    { apply Z.mul_le_mono_nonneg_l; [ lia | ]. apply Z.mul_le_mono_nonneg_r; lia. }
    nia.
Qed.

End Accuracy.

(** ** Values as rationals *)

Lemma two_nonzero : ~ (2 == 0)%Q.
Proof. intros H. discriminate H. Qed.

Lemma two_power_pos (e : Z) : (0 < 2 ^ e)%Q.
Proof. apply Qpower_0_lt. reflexivity. Qed.

Lemma power_shift (m e n : Z) :
  0 <= n -> (inject_Z m * 2 ^ (e + n) == inject_Z (m * 2 ^ n) * 2 ^ e)%Q.
Proof.
  intros Hn. rewrite Qpower_plus by exact two_nonzero.
  rewrite inject_Z_mult, Zpower_Qpower by exact Hn.
  change (inject_Z 2) with 2%Q. ring.
Qed.

Lemma scale_lower (a b A M e : Z) :
  0 < a -> b * M <= a * A ->
  (Qmake b (Z.to_pos a) * (inject_Z M * 2 ^ e) <= inject_Z A * 2 ^ e)%Q.
Proof.
  intros Ha H. rewrite Qmult_assoc.
  apply Qmult_le_compat_r; [ | apply Qlt_le_weak, two_power_pos ].
  unfold Qle, Qmult, inject_Z. cbn [Qnum Qden].
  rewrite Pos.mul_1_r, Z2Pos.id by exact Ha. lia.
Qed.

Lemma scale_upper (a b A M e : Z) :
  0 < a -> a * A <= b * M ->
  (inject_Z A * 2 ^ e <= Qmake b (Z.to_pos a) * (inject_Z M * 2 ^ e))%Q.
Proof.
  intros Ha H. rewrite Qmult_assoc.
  apply Qmult_le_compat_r; [ | apply Qlt_le_weak, two_power_pos ].
  unfold Qle, Qmult, inject_Z. cbn [Qnum Qden].
  rewrite Pos.mul_1_r, Z2Pos.id by exact Ha. lia.
Qed.

Section Values.

Variables prec emax : Z.
Hypothesis prec_pos : 0 < prec.

Lemma least_nonneg : (0 <= Formula.least prec)%Q.
Proof.
  unfold Formula.least, Qle. cbn [Qnum Qden]. rewrite Z.mul_1_r.
  apply Z.square_nonneg.
Qed.

Lemma most_pos : (0 < Formula.most prec)%Q.
Proof.
  unfold Formula.most, Qlt. cbn [Qnum Qden]. rewrite Z.mul_1_r.
  assert (0 < 2 ^ (prec - 1)) by (apply Z.pow_pos_nonneg; lia). lia.
Qed.

(** The value of a rounded number against the value it was rounded
    from. *)
Lemma binary_round_aux_value (m e : Z) (l : location) (s' : bool) (m' : positive)
    (e' : Z) :
  0 < m -> emin prec emax <= e ->
  binary_round_aux prec emax false m e l = S754_finite s' m' e' ->
  s' = false /\ e <= e' /\ Zpos m' < 2 ^ prec /\
  (Formula.least prec * (inject_Z m * 2 ^ e) <= inject_Z (Zpos m') * 2 ^ e')%Q /\
  (inject_Z (Zpos m') * 2 ^ e' <= Formula.most prec * (inject_Z (m + inexact l) * 2 ^ e))%Q.
Proof.
  intros Hm He Hr.
  pose proof (binary_round_aux_accurate prec emax prec_pos false m e l Hm He) as H.
  rewrite Hr in H. destruct H as (-> & Hee & Hb & Hlo & Hhi).
  assert (HP : 0 < 2 ^ (prec - 1)) by (apply Z.pow_pos_nonneg; lia).
  split; [ reflexivity | ]. split; [ exact Hee | ]. split; [ exact Hb | ].
  assert (E : (inject_Z (Zpos m') * 2 ^ e'
               == inject_Z (Zpos m' * 2 ^ (e' - e)) * 2 ^ e)%Q).
  { rewrite <- (power_shift (Zpos m') e (e' - e)) by lia.
    replace (e + (e' - e)) with e' by lia. reflexivity. }
  rewrite E. split.
  - apply scale_lower; [ nia | exact Hlo ].
  - apply scale_upper; [ exact HP | exact Hhi ].
Qed.

End Values.

(** ** Multiplication, conversion and division *)

Lemma shl_align_snd (mx : positive) (ex ex' : Z) :
  snd (shl_align mx ex ex') = Z.min ex ex'.
Proof.
  unfold shl_align. destruct (ex' - ex) as [| d | d] eqn:Hd; cbn [snd]; lia.
Qed.

Lemma Qmult_le_left (x y z : Q) : (x <= y)%Q -> (0 <= z)%Q -> (z * x <= z * y)%Q.
Proof.
  intros H Hz. rewrite (Qmult_comm z x), (Qmult_comm z y).
  apply Qmult_le_compat_r; assumption.
Qed.

Section Operations.

Variables prec emax : Z.
Hypothesis prec_pos : 0 < prec.

Lemma tracks_finite (lo hi v : Q) (k : Z) (x : spec_float) :
  tracks prec lo hi v k x ->
  exists m e, x = S754_finite false m e /\ Zpos m < 2 ^ prec /\ k <= e /\
    (lo * v <= inject_Z (Zpos m) * 2 ^ e <= hi * v)%Q.
Proof.
  destruct x as [s | s | | [] m e]; cbn [tracks]; try contradiction.
  intros (Hm & He & Hv). exists m, e. auto.
Qed.

(** A rounded result that is known to be a zero or finite is finite and
    close to the exact value. *)
Lemma binary_round_aux_tracks (m e : Z) (l : location) (N : Z) :
  0 < m -> emin prec emax <= e ->
  Float.magnitude_le N (binary_round_aux prec emax false m e l) ->
  exists m' e',
    binary_round_aux prec emax false m e l = S754_finite false m' e' /\
    e <= e' /\ Zpos m' < 2 ^ prec /\
    (Formula.least prec * (inject_Z m * 2 ^ e) <= inject_Z (Zpos m') * 2 ^ e')%Q /\
    (inject_Z (Zpos m') * 2 ^ e' <= Formula.most prec * (inject_Z (m + inexact l) * 2 ^ e))%Q.
Proof.
  intros Hm He Hmag.
  pose proof (binary_round_aux_accurate prec emax prec_pos false m e l Hm He) as Hacc.
  destruct (binary_round_aux prec emax false m e l) as [s | s | | s m' e'] eqn:Hr;
    try contradiction.
  destruct (binary_round_aux_value prec emax prec_pos m e l s m' e' Hm He Hr)
    as (-> & H).
  exists m', e'. split; [ reflexivity | exact H ].
Qed.

Lemma SFmul_tracks (x y : spec_float) (lo1 hi1 v1 lo2 hi2 v2 : Q) (k1 k2 N : Z) :
  tracks prec lo1 hi1 v1 k1 x -> tracks prec lo2 hi2 v2 k2 y ->
  (0 <= lo1 * v1)%Q -> (0 <= lo2 * v2)%Q ->
  emin prec emax <= k1 + k2 ->
  Float.magnitude_le N (SFmul prec emax x y) ->
  tracks prec (Formula.least prec * (lo1 * lo2)) (Formula.most prec * (hi1 * hi2)) (v1 * v2)
    (k1 + k2) (SFmul prec emax x y).
Proof.
  intros Hx Hy H1 H2 Hk Hmag.
  apply tracks_finite in Hx as (mx & ex & -> & _ & Hex & Hvx).
  apply tracks_finite in Hy as (my & ey & -> & _ & Hey & Hvy).
  cbn [SFmul xorb] in *.
  destruct (binary_round_aux_tracks (Zpos (mx * my)) (ex + ey) loc_Exact N)
    as (m' & e' & -> & He' & Hm' & Hlo & Hhi); try lia; [ exact Hmag | ].
  cbn [tracks Formula.value cond_Zopp]. split; [ exact Hm' | ]. split; [ lia | ].
  cbn [inexact] in Hhi. rewrite Z.add_0_r in Hhi.
  assert (E : (inject_Z (Zpos (mx * my)) * 2 ^ (ex + ey)
               == (inject_Z (Zpos mx) * 2 ^ ex) * (inject_Z (Zpos my) * 2 ^ ey))%Q).
  { rewrite Pos2Z.inj_mul, inject_Z_mult, Qpower_plus by exact two_nonzero. ring. }
  rewrite E in Hlo, Hhi.
  set (X := (inject_Z (Zpos mx) * 2 ^ ex)%Q) in *.
  set (Y := (inject_Z (Zpos my) * 2 ^ ey)%Q) in *.
  set (R := (inject_Z (Zpos m') * 2 ^ e')%Q) in *.
  pose proof (least_nonneg prec) as HL. pose proof (most_pos prec prec_pos) as HM.
  set (L := Formula.least prec) in *. set (M := Formula.most prec) in *.
  assert (Hp1 : (lo1 * v1 * (lo2 * v2) <= X * Y)%Q)
    by (apply Qmult_le_compat_nonneg; split; tauto).
  assert (Hp2 : (X * Y <= hi1 * v1 * (hi2 * v2))%Q).
  { apply Qmult_le_compat_nonneg; split; try tauto.
    - apply Qle_trans with (lo1 * v1)%Q; tauto.
    - apply Qle_trans with (lo2 * v2)%Q; tauto. }
  split.
  - apply Qle_trans with (L * (X * Y))%Q; [ | exact Hlo ].
    setoid_replace (L * (lo1 * lo2) * (v1 * v2))%Q
      with (L * (lo1 * v1 * (lo2 * v2)))%Q using relation Qeq by ring.
    apply Qmult_le_left; assumption.
  - apply Qle_trans with (M * (X * Y))%Q; [ exact Hhi | ].
    setoid_replace (M * (hi1 * hi2) * (v1 * v2))%Q
      with (M * (hi1 * v1 * (hi2 * v2)))%Q using relation Qeq by ring.
    apply Qmult_le_left; [ assumption | ]. apply Qlt_le_weak. exact HM.
Qed.

Lemma binary_round_tracks (m : positive) (e N : Z) :
  emin prec emax <= e ->
  Float.magnitude_le N (binary_round prec emax false m e) ->
  tracks prec (Formula.least prec) (Formula.most prec) (inject_Z (Zpos m) * 2 ^ e)
    (e - prec) (binary_round prec emax false m e).
Proof.
  intros He Hmag. unfold binary_round in *.
  pose proof (shl_align_value m e (fexp prec emax (Zpos (digits2_pos m) + e))) as Hsh.
  pose proof (shl_align_snd m e (fexp prec emax (Zpos (digits2_pos m) + e))) as Hsnd.
  destruct (shl_align m e (fexp prec emax (Zpos (digits2_pos m) + e))) as [mz ez].
  cbn [snd] in Hsnd. destruct Hsh as [Hez Hmz].
  assert (Hemin : emin prec emax <= ez /\ e - prec <= ez)
    by (unfold fexp in Hsnd; lia).
  destruct (binary_round_aux_tracks (Zpos mz) ez loc_Exact N)
    as (m' & e' & -> & He' & Hm' & Hlo & Hhi); try lia; [ exact Hmag | ].
  cbn [tracks Formula.value cond_Zopp]. split; [ exact Hm' | ]. split; [ lia | ].
  cbn [inexact] in Hhi. rewrite Z.add_0_r in Hhi.
  assert (E : (inject_Z (Zpos mz) * 2 ^ ez == inject_Z (Zpos m) * 2 ^ e)%Q).
  { rewrite Hmz. rewrite <- (power_shift (Zpos m) ez (e - ez)) by lia.
    replace (ez + (e - ez)) with e by lia. reflexivity. }
  rewrite E in Hlo, Hhi. split; assumption.
Qed.

Lemma SFdiv_tracks (x : spec_float) (my : positive) (ey : Z) (lo hi v : Q) (k N : Z) :
  tracks prec lo hi v k x -> (0 <= lo * v)%Q ->
  emin prec emax <= k - ey ->
  emin prec emax + prec <= 1 + k - (Zdigits2 (Zpos my) + ey) ->
  Float.magnitude_le N (SFdiv prec emax x (S754_finite false my ey)) ->
  tracks prec (Formula.least prec * lo / Formula.most prec) (Formula.most prec * Formula.most prec * hi)
    (v / (inject_Z (Zpos my) * 2 ^ ey)) (emin prec emax)
    (SFdiv prec emax x (S754_finite false my ey)).
Proof.
  intros Hx Hlov Hk Hnorm Hmag.
  apply tracks_finite in Hx as (mx & ex & -> & _ & Hex & Hvx).
  cbn [SFdiv xorb] in *. unfold SFdiv_core_binary in *. cbv zeta in *.
  set (dx := Zdigits2 (Zpos mx)) in *. set (dy := Zdigits2 (Zpos my)) in *.
  assert (Hdx : 1 <= dx) by (unfold dx; cbn [Zdigits2]; lia).
  assert (Hdy : 1 <= dy) by (unfold dy; cbn [Zdigits2]; lia).
  set (e' := Z.min (fexp prec emax (dx + ex - (dy + ey))) (ex - ey)) in *.
  set (s := ex - ey - e') in *.
  assert (Hfexp : fexp prec emax (dx + ex - (dy + ey)) = dx + ex - (dy + ey) - prec)
    by (unfold fexp; lia).
  assert (Hs : 0 <= s) by (unfold s, e'; lia).
  assert (Hs' : prec - dx + dy <= s) by (unfold s, e'; lia).
  assert (He' : emin prec emax <= e') by (unfold e'; lia).
  set (m0 := match s with Zpos _ => Z.shiftl (Zpos mx) s | Z0 => Zpos mx | Zneg _ => 0 end)
    in *.
  assert (Hm0 : m0 = Zpos mx * 2 ^ s) by (apply shiftl_cases; exact Hs).
  pose proof (Z.div_eucl_eq m0 (Zpos my) ltac:(lia)) as Hdiv.
  pose proof (Z.mod_pos_bound m0 (Zpos my) ltac:(lia)) as Hrem.
  unfold Z.modulo in Hrem.
  destruct (Z.div_eucl m0 (Zpos my)) as [q r].
  set (P := 2 ^ (prec - 1)).
  assert (HP : 0 < P) by (apply Z.pow_pos_nonneg; lia).
  (* the dividend was shifted far enough for a quotient of [prec] bits *)
  assert (Hbig : Zpos my * P <= m0).
  { pose proof (Zdigits2_ge (Zpos mx) ltac:(lia)) as Hgx. fold dx in Hgx.
    pose proof (Zdigits2_lt (Zpos my) ltac:(lia)) as Hly. fold dy in Hly.
    rewrite Hm0.
    assert (Hpow : 2 ^ (dy + (prec - 1)) <= 2 ^ (dx - 1 + s))
      by (apply Z.pow_le_mono_r; lia).
    rewrite !Z.pow_add_r in Hpow by lia. fold P in Hpow.
    assert (0 < 2 ^ s) by (apply Z.pow_pos_nonneg; lia).
    assert (0 < 2 ^ dy) by (apply Z.pow_pos_nonneg; lia).
    assert (Zpos my * P <= 2 ^ dy * P) by (apply Z.mul_le_mono_nonneg_r; lia).
    assert (2 ^ (dx - 1) * 2 ^ s <= Zpos mx * 2 ^ s)
      by (apply Z.mul_le_mono_nonneg_r; lia).
    lia. }
  assert (Hq : P <= q) by nia.
  destruct (binary_round_aux_tracks q e' (new_location (Zpos my) r) N)
    as (m' & e2 & Hres & He2 & Hm' & Hlo & Hhi); try lia; [ exact Hmag | ].
  rewrite Hres. cbn [tracks Formula.value cond_Zopp].
  split; [ exact Hm' | ]. split; [ lia | ].
  set (i := inexact (new_location (Zpos my) r)) in *.
  assert (Hi : 0 <= i <= 1) by (unfold i; destruct (new_location _ _); cbn; lia).
  set (W := (inject_Z (Zpos my) * 2 ^ ey)%Q).
  assert (HW : (0 < W)%Q).
  { unfold W. apply Qmult_lt_0_compat; [ reflexivity | apply two_power_pos ]. }
  set (X := (inject_Z (Zpos mx) * 2 ^ ex)%Q) in *.
  assert (EX : (X == inject_Z m0 * 2 ^ (e' + ey))%Q).
  { unfold X. rewrite Hm0. rewrite <- (power_shift (Zpos mx) (e' + ey) s) by exact Hs.
    replace (e' + ey + s) with ex by (unfold s; lia). reflexivity. }
  assert (EW : forall z, (inject_Z z * 2 ^ e' * W == inject_Z (z * Zpos my) * 2 ^ (e' + ey))%Q).
  { intros z. unfold W. rewrite inject_Z_mult, Qpower_plus by exact two_nonzero. ring. }
  pose proof (least_nonneg prec) as HL. pose proof (most_pos prec prec_pos) as HM.
  fold P in Hlo, Hhi.
  set (L := Formula.least prec) in *. set (M := Formula.most prec) in *.
  set (R := (inject_Z (Zpos m') * 2 ^ e2)%Q) in *.
  (* the quotient before rounding against the exact quotient *)
  assert (Hq_lo : (X / W <= M * (inject_Z q * 2 ^ e'))%Q).
  { apply Qle_shift_div_r; [ exact HW | ].
    rewrite <- Qmult_assoc, EW, EX. unfold M, Formula.most. fold P.
    apply scale_upper; [ exact HP | nia ]. }
  assert (Hq_hi : (inject_Z (q + i) * 2 ^ e' <= M * (X / W))%Q).
  { setoid_replace (M * (X / W))%Q with ((M * X) / W)%Q using relation Qeq by (unfold Qdiv; ring).
    apply Qle_shift_div_l; [ exact HW | ].
    rewrite EW, EX. unfold M, Formula.most. fold P.
    apply scale_upper; [ exact HP | nia ]. }
  assert (HXW : (lo * (v / W) <= X / W <= hi * (v / W))%Q).
  { unfold Qdiv. rewrite !Qmult_assoc.
    split; apply Qmult_le_compat_r; try tauto;
      apply Qlt_le_weak, Qinv_lt_0_compat; exact HW. }
  assert (H0 : (0 <= X / W)%Q).
  { apply Qle_trans with (lo * (v / W))%Q; [ | tauto ].
    unfold Qdiv. rewrite Qmult_assoc. apply Qmult_le_0_compat; [ exact Hlov | ].
    apply Qlt_le_weak, Qinv_lt_0_compat; exact HW. }
  split.
  - apply Qle_trans with (L * (inject_Z q * 2 ^ e'))%Q; [ | exact Hlo ].
    setoid_replace (L * lo / M * (v / W))%Q with (L * (lo * (v / W) / M))%Q using relation Qeq by (unfold Qdiv; ring).
    apply Qmult_le_left; [ | exact HL ].
    apply Qle_shift_div_r; [ exact HM | ].
    apply Qle_trans with (X / W)%Q; [ tauto | ].
    rewrite (Qmult_comm _ M). exact Hq_lo.
  - apply Qle_trans with (M * (inject_Z (q + i) * 2 ^ e'))%Q; [ exact Hhi | ].
    setoid_replace (M * M * hi * (v / W))%Q with (M * (M * (hi * (v / W))))%Q using relation Qeq by ring.
    apply Qmult_le_left; [ | apply Qlt_le_weak; exact HM ].
    apply Qle_trans with (M * (X / W))%Q; [ exact Hq_hi | ].
    apply Qmult_le_left; [ tauto | apply Qlt_le_weak; exact HM ].
Qed.

End Operations.

(** * Loops *)

Lemma bind_Ok {A B : Type} (r : result A) (k : A -> result B) (b : B) :
  (r ≫= k) = Ok b <-> exists a, r = Ok a /\ k a = Ok b.
Proof.
  destruct r as [a | u]; cbn.
  - split; [ intros H; exists a; auto | intros (a' & [= <-] & H); exact H ].
  - split; [ discriminate | intros (a' & [=] & _) ].
Qed.

Lemma for_from_invariant {T : Type} (P : Z -> T -> Prop) (body : Z -> T -> result T) :
  forall (fuel : nat) (i : Z) (s s' : T),
    for_from fuel i body s = Ok s' ->
    P i s ->
    (forall k t t', i <= k < i + Z.of_nat fuel -> P k t -> body k t = Ok t' -> P (k + 1) t') ->
    P (i + Z.of_nat fuel) s'.
Proof.
  induction fuel as [| fuel IH]; intros i s s' Hrun Hinit Hstep.
  - cbn in Hrun. injection Hrun as <-. rewrite Z.add_0_r. exact Hinit.
  - cbn [for_from] in Hrun. apply bind_Ok in Hrun as (t & Hbody & Hrest).
    replace (i + Z.of_nat (S fuel)) with ((i + 1) + Z.of_nat fuel) by lia.
    apply IH with t; [ exact Hrest | apply Hstep with s; lia || assumption | ].
    intros k u u' Hk. apply Hstep. lia.
Qed.

Lemma for_from_total {T : Type} (P : Z -> T -> Prop) (body : Z -> T -> result T) :
  forall (fuel : nat) (i : Z) (s : T),
    P i s ->
    (forall k t, i <= k < i + Z.of_nat fuel -> P k t ->
                 exists t', body k t = Ok t' /\ P (k + 1) t') ->
    exists s', for_from fuel i body s = Ok s' /\ P (i + Z.of_nat fuel) s'.
Proof.
  induction fuel as [| fuel IH]; intros i s Hinit Hstep.
  - exists s. rewrite Z.add_0_r. auto.
  - destruct (Hstep i s ltac:(lia) Hinit) as (t & Hbody & Ht).
    destruct (IH (i + 1) t Ht) as (s' & Hrun & Hs').
    { intros k u Hk. apply Hstep. lia. }
    exists s'. cbn [for_from]. rewrite Hbody. cbn.
    replace (i + Z.of_nat (S fuel)) with ((i + 1) + Z.of_nat fuel) by lia. auto.
Qed.

Lemma waverate_value : waverate = 44100.
Proof. reflexivity. Qed.

Lemma int_value_Ok (z v : Z) :
  int_value z = Ok v <-> v = z /\ Int.INT_MIN <= z <= Int.INT_MAX.
Proof.
  unfold int_value.
  destruct (Z.leb_spec Int.INT_MIN z); destruct (Z.leb_spec z Int.INT_MAX); cbn;
    split; try discriminate; try (intros [= <-]; lia); try (intros [-> ?]; reflexivity || lia).
Qed.

Lemma sample_index_Ok (i j idx : Z) :
  0 <= i -> 0 <= j ->
  sample_index i j = Ok idx <-> idx = i * waverate + j /\ idx <= Int.INT_MAX.
Proof.
  intros Hi Hj. unfold sample_index. rewrite bind_Ok.
  pose proof waverate_value as Hw. unfold Int.INT_MIN, Int.INT_MAX.
  split.
  - intros (p & Hp & Hidx). apply int_value_Ok in Hp as [-> Hp].
    apply int_value_Ok in Hidx as [-> Hidx]. unfold Int.INT_MAX in *. lia.
  - intros [-> Hmax]. exists (i * waverate). split; apply int_value_Ok;
      unfold Int.INT_MIN, Int.INT_MAX; split; try reflexivity; nia.
Qed.

Lemma load_Ok (buf : list Z) (idx v : Z) :
  load buf idx = Ok v <-> 0 <= idx /\ buf !! Z.to_nat idx = Some v.
Proof.
  unfold load. destruct (Z.ltb_spec idx 0).
  - split; [ discriminate | lia ].
  - destruct (buf !! Z.to_nat idx) as [w |]; split;
      try discriminate; try (intros [= <-]; auto); try (intros [_ [= <-]]; reflexivity);
      try (intros [_ [=]]).
Qed.

Lemma store_Ok (buf buf' : list Z) (idx v : Z) :
  store buf idx v = Ok buf' <->
  0 <= idx < Z.of_nat (length buf) /\ buf' = <[Z.to_nat idx := v]> buf.
Proof.
  unfold store.
  destruct (Z.leb_spec 0 idx); destruct (Z.ltb_spec idx (Z.of_nat (length buf))); cbn;
    split; try discriminate; try (intros [= <-]; split; [ lia | reflexivity ]);
    try (intros [? ->]; reflexivity || lia).
Qed.

(** * Single-precision operations on bounded numbers *)

Lemma float_of_int_le (z n : Z) :
  - n <= z <= n -> n < 2 ^ 24 ->
  Float.magnitude_le n (Float.float_of_int z).
Proof.
  intros Hz Hn. unfold Float.float_of_int.
  replace n with (n * 2 ^ 0) by (change (2 ^ 0) with 1; lia).
  apply binary_normalize_le; try lia.
  unfold le2. change (Z.max 0 0) with 0. change (Z.max (- 0) 0) with 0.
  change (2 ^ 0) with 1. lia.
Qed.

Lemma fmul_le (x y : spec_float) (n1 n2 : Z) :
  n1 * n2 < 2 ^ 24 ->
  Float.magnitude_le n1 x -> Float.magnitude_le n2 y ->
  Float.magnitude_le (n1 * n2) (Float.fmul x y).
Proof.
  intros Hn Hx Hy. unfold Float.fmul.
  pose proof (magnitude_le_nonneg _ _ Hx). pose proof (magnitude_le_nonneg _ _ Hy).
  replace (n1 * n2) with (n1 * n2 * 2 ^ 0) by (change (2 ^ 0) with 1; lia).
  apply SFmul_le with n1 n2; lia || assumption.
Qed.

Lemma fadd_le (x y : spec_float) (n1 n2 : Z) :
  n1 + n2 < 2 ^ 24 ->
  Float.magnitude_le n1 x -> Float.magnitude_le n2 y ->
  Float.magnitude_le (n1 + n2) (Float.fadd x y).
Proof.
  intros Hn Hx Hy. unfold Float.fadd.
  pose proof (magnitude_le_nonneg _ _ Hx). pose proof (magnitude_le_nonneg _ _ Hy).
  replace (n1 + n2) with ((n1 + n2) * 2 ^ 0) by (change (2 ^ 0) with 1; lia).
  apply SFadd_le with n1 n2; lia || assumption.
Qed.

Lemma add_assign_le (s n1 n2 : Z) (h : spec_float) :
  - n1 <= s <= n1 -> Float.magnitude_le n2 h -> n1 + n2 <= Int.SHRT_MAX ->
  exists z, add_assign s h = Ok z /\ - (n1 + n2) <= z <= n1 + n2.
Proof.
  intros Hs Hh Hn. unfold add_assign. unfold Int.SHRT_MAX in Hn.
  apply to_short_le; [ exact Hn | ].
  apply fadd_le; try lia; [ | exact Hh ].
  pose proof (magnitude_le_nonneg _ _ Hh).
  apply float_of_int_le; lia.
Qed.

(** * The signal left in the buffer *)

Section Signal.

Variable sinf : spec_float -> spec_float.
Variable a : arguments.
Hypothesis freqsize_length : freqsize a = Z.of_nat (length (freqbuff a)).

Lemma add_harmonic_eq (i j idx k s f : Z) (buf : list Z) :
  sample_index i j = Ok idx -> 0 <= idx -> 0 <= k ->
  buf !! Z.to_nat idx = Some s -> freqbuff a !! Z.to_nat k = Some f ->
  add_harmonic sinf a i j k buf =
  (h ← harmonic sinf (freqsize a) f j;
   s' ← add_assign s h;
   Ok (<[Z.to_nat idx := s']> buf)).
Proof.
  intros Hidx Hidx0 Hk Hs Hf. unfold add_harmonic. rewrite Hidx. cbn.
  replace (load buf idx) with (Ok s) by (symmetry; apply load_Ok; auto).
  replace (load (freqbuff a) k) with (Ok f) by (symmetry; apply load_Ok; auto).
  cbn. destruct (harmonic sinf (freqsize a) f j) as [h | u]; cbn; [ | reflexivity ].
  destruct (add_assign s h) as [s' | u]; cbn; [ | reflexivity ].
  pose proof (lookup_lt_Some _ _ _ Hs) as Hlt.
  apply store_Ok. split; [ lia | reflexivity ].
Qed.

(** The loop over [k] adds the harmonics to the cell one by one. *)
Lemma harmonics_loop (i j idx : Z) :
  sample_index i j = Ok idx -> 0 <= idx ->
  forall (fuel : nat) (k : Z) (buf : list Z) (s : Z),
    buf !! Z.to_nat idx = Some s ->
    0 <= k -> k + Z.of_nat fuel = freqsize a ->
    for_from fuel k (add_harmonic sinf a i j) buf =
    (v ← accumulate sinf (freqsize a) j (drop (Z.to_nat k) (freqbuff a)) s;
     Ok (<[Z.to_nat idx := v]> buf)).
Proof.
  intros Hidx Hidx0. induction fuel as [| fuel IH]; intros k buf s Hs Hk Hlen.
  - rewrite drop_ge by lia. cbn. rewrite list_insert_id by exact Hs. reflexivity.
  - assert (Hk' : (Z.to_nat k < length (freqbuff a))%nat) by lia.
    destruct (lookup_lt_is_Some_2 _ _ Hk') as [f Hf].
    rewrite (drop_S _ _ _ Hf). cbn [for_from accumulate].
    rewrite (add_harmonic_eq i j idx k s f buf Hidx Hidx0 Hk Hs Hf).
    destruct (harmonic sinf (freqsize a) f j) as [h | u]; cbn; [ | reflexivity ].
    destruct (add_assign s h) as [s' | u]; cbn; [ | reflexivity ].
    pose proof (lookup_lt_Some _ _ _ Hs) as Hlt.
    rewrite (IH (k + 1) _ s').
    + replace (Z.to_nat (k + 1)) with (S (Z.to_nat k)) by lia.
      destruct (accumulate sinf (freqsize a) j (drop (S (Z.to_nat k)) (freqbuff a)) s');
        cbn; [ | reflexivity ].
      rewrite list_insert_insert_eq. reflexivity.
    + apply list_lookup_insert_eq. exact Hlt.
    + lia.
    + lia.
Qed.

(** Lines 144-148 put [sample j] into the cell [i * waverate + j]. *)
Lemma generate_sample_eq (i j idx : Z) (buf : list Z) :
  sample_index i j = Ok idx -> 0 <= idx < Z.of_nat (length buf) ->
  generate_sample sinf a i j buf =
  (v ← sample sinf a j; Ok (<[Z.to_nat idx := v]> buf)).
Proof.
  intros Hidx Hrange. unfold generate_sample, for_loop, sample.
  rewrite Hidx. cbn.
  replace (store buf idx 0) with (Ok (<[Z.to_nat idx := 0]> buf))
    by (symmetry; apply store_Ok; auto).
  cbn. rewrite (harmonics_loop i j idx Hidx (proj1 Hrange) _ 0 _ 0).
  - change (drop (Z.to_nat 0) (freqbuff a)) with (freqbuff a).
    destruct (accumulate sinf (freqsize a) j (freqbuff a) 0); cbn; [ | reflexivity ].
    rewrite list_insert_insert_eq. reflexivity.
  - apply list_lookup_insert_eq. lia.
  - lia.
  - lia.
Qed.

Lemma generate_sample_Ok (i j : Z) (buf buf' : list Z) :
  0 <= i -> 0 <= j ->
  generate_sample sinf a i j buf = Ok buf' ->
  i * waverate + j < Z.of_nat (length buf) /\
  i * waverate + j <= Int.INT_MAX /\
  exists v, sample sinf a j = Ok v /\
            buf' = <[Z.to_nat (i * waverate + j) := v]> buf.
Proof.
  intros Hi Hj Hrun.
  assert (Hidx : exists idx, sample_index i j = Ok idx /\ 0 <= idx < Z.of_nat (length buf)).
  { unfold generate_sample in Hrun. apply bind_Ok in Hrun as (idx & Hidx & Hrun).
    apply bind_Ok in Hrun as (buf0 & Hst & _). apply store_Ok in Hst as [Hr _]. eauto. }
  destruct Hidx as (idx & Hidx & Hrange).
  rewrite (generate_sample_eq i j idx buf Hidx Hrange) in Hrun.
  apply bind_Ok in Hrun as (v & Hv & [= <-]).
  apply sample_index_Ok in Hidx as [-> Hmax]; try assumption.
  repeat split; try lia. eauto.
Qed.

Lemma filled_insert (n v : Z) (buf : list Z) :
  0 <= n < Z.of_nat (length buf) ->
  filled sinf a n buf -> sample sinf a (n mod waverate) = Ok v ->
  filled sinf a (n + 1) (<[Z.to_nat n := v]> buf).
Proof.
  intros Hn Hfill Hv m Hm. destruct (Z.eq_dec m n) as [-> | Hne].
  - exists v. split; [ apply list_lookup_insert_eq; lia | exact Hv ].
  - destruct (Hfill m ltac:(lia)) as (w & Hw & Hsw). exists w.
    split; [ | exact Hsw ]. rewrite list_lookup_insert_ne by lia. exact Hw.
Qed.

Lemma second_loop_Ok (len : nat) (i : Z) (buf buf' : list Z) :
  0 <= i ->
  for_loop waverate (generate_sample sinf a i) buf = Ok buf' ->
  progress sinf a len i 0 buf -> progress sinf a len (i + 1) 0 buf'.
Proof.
  intros Hi Hrun Hinit. unfold for_loop in Hrun.
  pose proof waverate_value as Hw.
  apply (for_from_invariant (progress sinf a len i)) in Hrun.
  - rewrite Z.add_0_l, Z2Nat.id in Hrun by lia.
    destruct Hrun as (Hlen & Hle & Hfill). unfold progress.
    replace ((i + 1) * waverate + 0) with (i * waverate + waverate) by lia. auto.
  - exact Hinit.
  - intros j t t' Hj (Hlen & Hle & Hfill) Hbody.
    rewrite Z2Nat.id in Hj by lia.
    apply generate_sample_Ok in Hbody as (Hlt & _ & v & Hv & ->); try lia.
    unfold progress. rewrite length_insert.
    split; [ exact Hlen | ]. split; [ lia | ].
    replace (i * waverate + (j + 1)) with (i * waverate + j + 1) by lia.
    apply filled_insert; try lia; try assumption.
    replace ((i * waverate + j) mod waverate) with j; [ exact Hv | ].
    rewrite Z.add_comm, Z.mod_add by lia. symmetry. apply Z.mod_small. lia.
Qed.

(** Whatever [generate_signal] returns has the length it started with,
    room for every sample, and holds the signal. *)
Lemma generate_signal_Ok (buf buf' : list Z) :
  0 <= filetime a ->
  generate_signal sinf a buf = Ok buf' ->
  length buf' = length buf /\
  filetime a * waverate <= Z.of_nat (length buf) /\
  filled sinf a (filetime a * waverate) buf'.
Proof.
  intros Hft Hrun. unfold generate_signal, for_loop in Hrun.
  apply (for_from_invariant (fun i => progress sinf a (length buf) i 0)) in Hrun.
  - rewrite Z.add_0_l, Z2Nat.id in Hrun by lia.
    destruct Hrun as (Hlen & Hle & Hfill).
    rewrite Z.add_0_r in Hle, Hfill. auto.
  - unfold progress. split; [ reflexivity | ]. split; [ lia | ].
    intros m Hm. lia.
  - intros i t t' Hi Hprog Hbody. apply second_loop_Ok with t; try lia; assumption.
Qed.


Lemma generate_signal_total (buf : list Z) :
  0 <= filetime a ->
  filetime a * waverate <= Z.of_nat (length buf) ->
  filetime a * waverate <= Int.INT_MAX ->
  (forall j, 0 <= j < waverate -> exists v, sample sinf a j = Ok v) ->
  exists buf', generate_signal sinf a buf = Ok buf'.
Proof.
  intros Hft Hlen Hmax Hsample. pose proof waverate_value as Hw.
  unfold generate_signal, for_loop.
  destruct (for_from_total (fun _ t => length t = length buf)
              (fun i => for_from (Z.to_nat waverate) 0 (generate_sample sinf a i))
              (Z.to_nat (filetime a)) 0 buf eq_refl) as (buf' & Hrun & _);
    [ | exists buf'; exact Hrun ].
  intros i t Hi Ht. rewrite Z2Nat.id in Hi by lia.
  destruct (for_from_total (fun _ t' => length t' = length buf)
              (generate_sample sinf a i) (Z.to_nat waverate) 0 t Ht)
    as (t' & Hrun & Ht'); [ | exists t'; auto ].
  intros j u Hj Hu. rewrite Z2Nat.id in Hj by lia.
  destruct (Hsample j ltac:(lia)) as [v Hv].
  assert (Hidx : sample_index i j = Ok (i * waverate + j)).
  { apply sample_index_Ok; lia. }
  rewrite (generate_sample_eq i j _ u Hidx) by (rewrite Hu; nia).
  rewrite Hv. cbn. eexists. split; [ reflexivity | ].
  rewrite length_insert. exact Hu.
Qed.

(** ** No sample leaves the range of [short] *)

Lemma amplitude_bounds : 0 < freqsize a ->
  0 <= 32765 / freqsize a <= 32765 /\ freqsize a * (32765 / freqsize a) <= 32765.
Proof.
  intros Hpos. split.
  - split; [ apply Z.div_pos; lia | ].
    apply Z.div_le_upper_bound; nia.
  - apply Z.mul_div_le. lia.
Qed.

Lemma harmonic_le (f j : Z) :
  0 < freqsize a -> unit_sine sinf f j ->
  exists h, harmonic sinf (freqsize a) f j = Ok h /\
            Float.magnitude_le (32765 / freqsize a) h.
Proof.
  intros Hpos Hsin. unfold harmonic, amplitude.
  replace (freqsize a =? 0) with false by (symmetry; apply Z.eqb_neq; lia).
  cbn. eexists. split; [ reflexivity | ].
  destruct (amplitude_bounds Hpos) as [HA _].
  apply magnitude_le_mono with (1 * (32765 / freqsize a)); [ lia | ].
  apply fmul_le; try lia; [ exact Hsin | ].
  apply float_of_int_le; lia.
Qed.

Lemma accumulate_le (j : Z) (fs : list Z) :
  0 < freqsize a -> Forall (fun f => unit_sine sinf f j) fs ->
  forall s n, - n <= s <= n ->
    n + Z.of_nat (length fs) * (32765 / freqsize a) <= Int.SHRT_MAX ->
    exists z, accumulate sinf (freqsize a) j fs s = Ok z /\
              - (n + Z.of_nat (length fs) * (32765 / freqsize a)) <= z
              <= n + Z.of_nat (length fs) * (32765 / freqsize a).
Proof.
  intros Hpos Hall. destruct (amplitude_bounds Hpos) as [HA _].
  induction Hall as [| f fs Hf Hfs IH]; intros s n Hs Hn.
  - exists s. cbn. split; [ reflexivity | lia ].
  - cbn [accumulate]. destruct (harmonic_le f j Hpos Hf) as (h & -> & Hh). cbn.
    cbn [length] in Hn. rewrite Nat2Z.inj_succ in Hn.
    destruct (add_assign_le s n _ h Hs Hh ltac:(lia)) as (s' & -> & Hs'). cbn.
    destruct (IH s' (n + 32765 / freqsize a) Hs' ltac:(lia)) as (z & Hz & Hzr).
    exists z. split; [ exact Hz | ]. cbn [length]. rewrite Nat2Z.inj_succ. lia.
Qed.

End Signal.

(** ** The angles are finite and the reference sine is bounded *)

Lemma double_of_int_le (z n : Z) :
  - n <= z <= n -> n < 2 ^ 53 ->
  Float.magnitude_le n (Float.double_of_int z).
Proof.
  intros Hz Hn. unfold Float.double_of_int.
  replace n with (n * 2 ^ 0) by (change (2 ^ 0) with 1; lia).
  apply binary_normalize_le; try lia.
  unfold le2. change (Z.max 0 0) with 0. change (Z.max (- 0) 0) with 0.
  change (2 ^ 0) with 1. lia.
Qed.

Lemma two_pi_le : Float.magnitude_le 7 (Float.dmul (Float.double_of_int 2) Float.M_PI).
Proof. vm_compute. discriminate. Qed.

Lemma two_pi_freq_le (f : Z) :
  is_uint f ->
  Float.magnitude_le (7 * 2 ^ 32)
    (Float.dmul (Float.dmul (Float.double_of_int 2) Float.M_PI) (Float.double_of_int f)).
Proof.
  intros Hf. unfold is_uint, Int.UINT_MODULUS in Hf.
  replace (7 * 2 ^ 32) with (7 * 2 ^ 32 * 2 ^ 0) by reflexivity.
  apply SFmul_le with 7 (2 ^ 32); try lia.
  - apply two_pi_le.
  - apply double_of_int_le; lia.
Qed.

Lemma angle_le (f j : Z) :
  0 <= f < 2 ^ 32 -> 0 <= j < waverate ->
  Float.magnitude_le (7 * 2 ^ 32 * 44100) (angle f j).
Proof.
  intros Hf Hj. pose proof waverate_value as Hw. unfold angle.
  pose proof (two_pi_freq_le f Hf) as H1.
  assert (H2 : Float.magnitude_le (7 * 2 ^ 32 * 44100)
                 (Float.dmul
                    (Float.dmul (Float.dmul (Float.double_of_int 2) Float.M_PI)
                                (Float.double_of_int f))
                    (Float.double_of_int j))).
  { replace (7 * 2 ^ 32 * 44100) with (7 * 2 ^ 32 * 44100 * 2 ^ 0) by reflexivity.
    apply SFmul_le with (7 * 2 ^ 32) 44100; try lia.
    - exact H1.
    - apply double_of_int_le; lia. }
  change (Float.double_of_int waverate) with (S754_finite false 6061057848115200 (-37)).
  replace (7 * 2 ^ 32 * 44100) with (7 * 2 ^ 32 * 44100 * 2 ^ 0) by reflexivity.
  apply SFdiv_le with (7 * 2 ^ 32 * 44100); try lia. exact H2.
Qed.

Lemma float_of_double_le (x : spec_float) (n : Z) :
  n <= 2 ^ 51 -> Float.magnitude_le n x ->
  Float.magnitude_le (2 ^ 51) (Float.float_of_double x).
Proof.
  intros Hn Hx. destruct x as [s | s | | s m e]; cbn [Float.magnitude_le] in Hx;
    try contradiction; cbn [Float.float_of_double Float.magnitude_le]; try lia.
  replace (2 ^ 51) with (1 * 2 ^ 51) by reflexivity.
  apply binary_round_le; try lia.
  apply le2_mono with (Zpos m) n; lia || assumption.
Qed.

Lemma zero_or_finite (n : Z) (x : spec_float) :
  Float.magnitude_le n x ->
  (exists s, x = S754_zero s) \/ (exists s m e, x = S754_finite s m e).
Proof.
  destruct x as [s | s | | s m e]; cbn [Float.magnitude_le]; try contradiction; eauto.
Qed.

Lemma angle_at_zero (f : Z) : is_uint f -> exists s, angle f 0 = S754_zero s.
Proof.
  intros Hf. unfold angle.
  change (Float.double_of_int 0) with (S754_zero false).
  change (Float.double_of_int waverate) with (S754_finite false 6061057848115200 (-37)).
  destruct (zero_or_finite _ _ (two_pi_freq_le f Hf)) as [[s ->] | (s & m & e & ->)];
    cbn; eauto.
Qed.

Lemma sin_reduced_bounds (x : Z) : - Sine.ONE <= Sine.sin_reduced x <= Sine.ONE.
Proof.
  unfold Sine.sin_reduced. cbv zeta.
  assert (0 < Sine.ONE) by reflexivity. lia.
Qed.

(** The reference sine of a finite number is a finite number of
    magnitude at most one. *)
Lemma sinf_unit (x : spec_float) (n : Z) :
  Float.magnitude_le n x -> Float.magnitude_le 1 (Sine.sinf x).
Proof.
  intros Hx. destruct x as [s | s | | s m e]; cbn [Float.magnitude_le] in Hx;
    try contradiction; cbn [Sine.sinf].
  - cbn. lia.
  - destruct (Z.leb_spec (Zpos (digits2_pos m) + e) (-12)) as [Hsmall | Hbig].
    + cbn [Float.magnitude_le].
      pose proof (digits2_pos_bounds m) as [_ Hhi].
      rewrite Z.max_r, Z.max_l by lia. change (2 ^ 0) with 1.
      assert (2 ^ Zpos (digits2_pos m) <= 2 ^ (- e)) by (apply Z.pow_le_mono_r; lia).
      lia.
    + set (y := Sine.sin_reduced _).
      pose proof (sin_reduced_bounds (Z.shiftl (Zpos m) (e + Sine.SCALE))) as Hy.
      fold y in Hy. change Sine.ONE with (2 ^ 80) in Hy.
      replace 1 with (1 * 2 ^ 0) by reflexivity.
      apply binary_normalize_le; try lia.
      unfold le2. change (Z.max (- Sine.SCALE) 0) with 0.
      change (Z.max (- - Sine.SCALE) 0) with 80. change (2 ^ 0) with 1.
      destruct s; cbn [cond_Zopp]; lia.
Qed.

Lemma sine_bounded_reference (a : arguments) :
  Forall is_uint (freqbuff a) -> sine_bounded Sine.sinf a.
Proof.
  intros Hall f j Hin Hj. rewrite Forall_forall in Hall.
  apply sinf_unit with (2 ^ 51).
  apply float_of_double_le with (7 * 2 ^ 32 * 44100); [ lia | ].
  apply angle_le; [ apply Hall, list_elem_of_In; exact Hin | exact Hj ].
Qed.

(** * The command line *)

Lemma to_uint_is_uint (z : Z) : is_uint (Int.to_uint z).
Proof. apply Z.mod_pos_bound. reflexivity. Qed.

Lemma read_arguments_Some (argv : list string) (a : arguments) :
  read_arguments argv = Some a ->
  3 < argc argv /\
  a = {| filename := arg argv 1;
         filetime := Int.to_uint (Libc.atol (arg argv 2));
         freqsize := argc argv - 3;
         freqbuff := map (fun s => Int.to_uint (Libc.atol s)) (skipn 3 argv) |}.
Proof.
  unfold read_arguments. destruct (Z.ltb_spec 3 (argc argv)); [ | discriminate ].
  intros [= <-]. auto.
Qed.

Lemma read_arguments_well_formed (argv : list string) (a : arguments) :
  read_arguments argv = Some a -> well_formed a.
Proof.
  intros Ha. apply read_arguments_Some in Ha as [Hargc ->].
  unfold well_formed, argc in *. cbn [freqsize freqbuff filetime].
  rewrite length_map, length_skipn. repeat split; try lia.
  - apply to_uint_is_uint.
  - apply to_uint_is_uint.
  - apply Forall_forall. intros f Hf. apply list_elem_of_In, in_map_iff in Hf as (s & <- & _).
    apply to_uint_is_uint.
Qed.

(** * Allocation and generation *)

Lemma samples_per_second : wavechnl * (wavebits / 8) * waverate = 2 * waverate.
Proof. reflexivity. Qed.

Lemma wavesize_le (ft : Z) : 0 <= ft -> wavesize ft <= 2 * waverate * ft.
Proof.
  intros Hft. unfold wavesize. rewrite samples_per_second.
  pose proof waverate_value as Hw. unfold Int.to_int, Int.to_uint, Int.UINT_MODULUS.
  pose proof (Z.mod_le (2 * waverate * ft) (2 ^ 32) ltac:(lia) ltac:(lia)).
  destruct (_ <=? Int.INT_MAX); lia.
Qed.

Lemma wavesize_small (ft : Z) :
  0 <= ft -> 2 * waverate * ft <= Int.INT_MAX -> wavesize ft = 2 * waverate * ft.
Proof.
  intros Hft Hmax. unfold wavesize. rewrite samples_per_second.
  pose proof waverate_value as Hw.
  unfold Int.to_int, Int.to_uint, Int.UINT_MODULUS, Int.INT_MAX in *.
  rewrite Z.mod_small by lia.
  destruct (Z.leb_spec (2 * waverate * ft) (2 ^ 31 - 1)); lia.
Qed.

Lemma length_malloc (size : Z) :
  Z.of_nat (length (malloc size)) = if size <? 0 then 0 else size / 2.
Proof.
  unfold malloc. rewrite length_replicate.
  destruct (Z.ltb_spec size 0); [ reflexivity | ].
  apply Z2Nat.id. apply Z.div_pos; lia.
Qed.

Section Generation.

Variable sinf : spec_float -> spec_float.
Variable a : arguments.
Hypothesis a_well_formed : well_formed a.

(** When generation completes, the block holds exactly
    [filetime * waverate] samples, its size in bytes has not wrapped, and
    each cell holds the sample of its position inside the second. *)
Lemma generate_Ok (wavebuff : list Z) :
  generate sinf a = Ok wavebuff ->
  Z.of_nat (length wavebuff) = filetime a * waverate /\
  wavesize (filetime a) = 2 * Z.of_nat (length wavebuff) /\
  filled sinf a (filetime a * waverate) wavebuff.
Proof.
  destruct a_well_formed as (Hlen & Hpos & [Hft0 Hft1] & Hfs).
  intros Hrun. unfold generate in Hrun.
  apply generate_signal_Ok in Hrun as (Hlen' & Hroom & Hfill); try assumption.
  pose proof (length_malloc (wavesize (filetime a))) as Hm.
  pose proof (wavesize_le (filetime a) Hft0) as Hle.
  pose proof waverate_value as Hw.
  rewrite Hlen'. split; [ | split; [ | exact Hfill ] ].
  - destruct (Z.ltb_spec (wavesize (filetime a)) 0); [ lia | ].
    pose proof (Z.mul_div_le (wavesize (filetime a)) 2 ltac:(lia)). lia.
  - destruct (Z.ltb_spec (wavesize (filetime a)) 0).
    + assert (filetime a = 0) by lia.
      assert (wavesize (filetime a) = 0) by (replace (filetime a) with 0; reflexivity). lia.
    + pose proof (Z.mul_div_le (wavesize (filetime a)) 2 ltac:(lia)).
      pose proof (Z.mul_succ_div_gt (wavesize (filetime a)) 2 ltac:(lia)). lia.
Qed.

Lemma sample_total (j : Z) :
  sine_bounded sinf a -> 0 <= j < waverate ->
  exists v, sample sinf a j = Ok v /\ -32765 <= v <= 32765.
Proof.
  destruct a_well_formed as (Hlen & Hpos & _ & _).
  intros Hsin Hj. unfold sample.
  destruct (amplitude_bounds a Hpos) as [HA HfA].
  destruct (accumulate_le sinf a j (freqbuff a) Hpos) with (s := 0) (n := 0)
    as (z & Hz & Hzr).
  - apply Forall_forall. intros f Hf. apply Hsin; [ apply list_elem_of_In; exact Hf | exact Hj ].
  - lia.
  - unfold Int.SHRT_MAX. lia.
  - exists z. split; [ exact Hz | lia ].
Qed.

(** Generation completes for every duration whose buffer size fits
    [int], that is up to 24347 seconds. *)
Lemma generate_total :
  sine_bounded sinf a -> filetime a <= 24347 ->
  exists wavebuff, generate sinf a = Ok wavebuff.
Proof.
  destruct a_well_formed as (Hlen & Hpos & [Hft0 Hft1] & Hfs).
  intros Hsin Hft. unfold generate.
  pose proof waverate_value as Hw.
  assert (Hws : wavesize (filetime a) = 2 * waverate * filetime a)
    by (apply wavesize_small; unfold Int.INT_MAX; lia).
  rewrite Hws. apply generate_signal_total; try assumption.
  - pose proof (length_malloc (2 * waverate * filetime a)) as Hm.
    replace ((2 * waverate * filetime a) / 2) with (filetime a * waverate) in Hm
      by (apply Z.div_unique_exact; lia).
    destruct (Z.ltb_spec (2 * waverate * filetime a) 0); lia.
  - unfold Int.INT_MAX. lia.
  - intros j Hj. destruct (sample_total j Hsin Hj) as (v & Hv & _). eauto.
Qed.

End Generation.

(** * Bytes *)

Lemma Z_of_byte_of_Z (z : Z) : Memory.Z_of_byte (Memory.byte_of_Z z) = z mod 256.
Proof.
  unfold Memory.Z_of_byte, Memory.byte_of_Z.
  pose proof (Z.mod_pos_bound z 256 ltac:(lia)) as Hr.
  destruct (Byte.of_N (Z.to_N (z mod 256))) as [b |] eqn:Hb.
  - apply Byte.to_of_N in Hb. rewrite Hb. lia.
  - apply Byte.of_N_None_iff in Hb. lia.
Qed.

Lemma le_value_le_bytes (n : nat) (z : Z) :
  Wave.le_value (Memory.le_bytes n z) = z mod 256 ^ Z.of_nat n.
Proof.
  revert z. induction n as [| n IH]; intros z.
  - cbn. symmetry. apply Z.mod_1_r.
  - cbn [Memory.le_bytes Wave.le_value fold_right].
    change (fold_right _ 0 (Memory.le_bytes n (z / 256)))
      with (Wave.le_value (Memory.le_bytes n (z / 256))).
    rewrite IH, Z_of_byte_of_Z, Nat2Z.inj_succ, Z.pow_succ_r by lia.
    rewrite Z.rem_mul_r by lia. reflexivity.
Qed.

Lemma length_le_bytes (n : nat) (z : Z) : length (Memory.le_bytes n z) = n.
Proof. revert z. induction n as [| n IH]; intros z; cbn; [ | rewrite IH ]; reflexivity. Qed.

Lemma length_of_shorts (buf : list Z) :
  length (Memory.of_shorts buf) = (2 * length buf)%nat.
Proof.
  unfold Memory.of_shorts. induction buf as [| s buf IH]; [ reflexivity | ].
  cbn [flat_map]. rewrite length_app, length_le_bytes, IH. cbn [length]. lia.
Qed.

(** * Writing the file *)

Lemma fwrite_whole (ptr : list byte) (n : Z) (f : FILE) :
  n = Z.of_nat (length ptr) ->
  fwrite ptr n f =
  Ok (Z.of_nat (length (take (space f) ptr)),
      {| written := written f ++ take (space f) ptr;
         space := (space f - length ptr)%nat |}).
Proof.
  intros ->. unfold fwrite. rewrite Z.ltb_irrefl, Nat2Z.id, firstn_all.
  do 3 f_equal. rewrite length_take. lia.
Qed.

Lemma take_app_minus (n : nat) (l k : list byte) :
  take n l ++ take (n - length l) k = take n (l ++ k).
Proof. symmetry. apply take_app. Qed.

(** The file holds as much of the image as the device had room for; the
    status and what is printed do not depend on it. *)
Lemma write_out_creatable (d : device) (name : string) (wavesize : Z)
    (wavebuff : list Z) :
  creatable d = true ->
  wavesize = 2 * Z.of_nat (length wavebuff) -> wavesize <= Int.INT_MAX ->
  write_out d name wavesize wavebuff =
  Ok {| status := 0; stdout := [];
        output := Some (take (room d) (image wavesize wavebuff)) |}.
Proof.
  intros Hd Hws Hmax. unfold write_out, fopen. rewrite Hd.
  rewrite (fwrite_whole (Memory.of_riffhead _)) by reflexivity. cbn [mbind result_bind].
  rewrite (fwrite_whole (Memory.of_frmthead _)) by reflexivity. cbn [mbind result_bind].
  rewrite (fwrite_whole (Memory.of_datahead _)) by reflexivity. cbn [mbind result_bind].
  rewrite (fwrite_whole (Memory.of_shorts _)).
  - cbn [mbind result_bind written space app]. do 3 f_equal.
    unfold image. rewrite <- !app_assoc.
    rewrite <- (take_app_minus (room d) (Memory.of_riffhead _)). f_equal.
    rewrite <- (take_app_minus _ (Memory.of_frmthead _)). f_equal.
    rewrite <- (take_app_minus _ (Memory.of_datahead _)). reflexivity.
  - rewrite length_of_shorts. unfold Int.to_size_t, Int.INT_MAX in *.
    rewrite Z.mod_small; lia.
Qed.

(** * The run as a whole *)

Section Run.

Variable sinf : spec_float -> spec_float.
Variable fs : string -> device.

Lemma main_generates (argv : list string) (a : arguments) :
  read_arguments argv = Some a -> validate argv a = None ->
  main sinf fs argv =
  (wavebuff ← generate sinf a;
   write_out (fs (filename a)) (filename a) (wavesize (filetime a)) wavebuff).
Proof. intros Ha Hv. unfold main. rewrite Ha, Hv. reflexivity. Qed.

Lemma main_rejects (argv : list string) (a : arguments) (msgs : list printed) :
  read_arguments argv = Some a -> validate argv a = Some msgs ->
  main sinf fs argv = Ok {| status := 0; stdout := msgs; output := None |}.
Proof. intros Ha Hv. unfold main. rewrite Ha, Hv. reflexivity. Qed.

Lemma wavesize_int (ft : Z) : wavesize ft <= Int.INT_MAX.
Proof.
  unfold wavesize, Int.to_int.
  pose proof (Z.mod_pos_bound (wavechnl * (wavebits / 8) * waverate * ft) Int.UINT_MODULUS
                ltac:(reflexivity)) as Hr.
  fold (Int.to_uint (wavechnl * (wavebits / 8) * waverate * ft)) in Hr.
  unfold Int.INT_MAX, Int.UINT_MODULUS in *.
  destruct (Z.leb_spec (Int.to_uint (wavechnl * (wavebits / 8) * waverate * ft)) (2 ^ 31 - 1)); lia.
Qed.

(** A run that generates the signal and can create the file ends with
    status 0 and prints nothing; the file holds the first [room] bytes of
    the image. *)
Lemma main_writes (argv : list string) (a : arguments) (wavebuff : list Z) :
  read_arguments argv = Some a -> validate argv a = None ->
  generate sinf a = Ok wavebuff ->
  creatable (fs (filename a)) = true ->
  main sinf fs argv =
  Ok {| status := 0; stdout := [];
        output := Some (take (room (fs (filename a)))
                             (image (wavesize (filetime a)) wavebuff)) |}.
Proof.
  intros Ha Hv Hgen Hd. rewrite (main_generates argv a Ha Hv), Hgen. cbn [mbind result_bind].
  apply write_out_creatable; [ exact Hd | | apply wavesize_int ].
  apply (generate_Ok sinf a (read_arguments_well_formed argv a Ha) wavebuff Hgen).
Qed.

(** Every file the program leaves is a prefix of the image of a
    generated signal. *)
Lemma main_output (argv : list string) (out : outcome) (file : list byte) :
  main sinf fs argv = Ok out -> output out = Some file ->
  exists a wavebuff,
    read_arguments argv = Some a /\ validate argv a = None /\
    generate sinf a = Ok wavebuff /\
    file = take (room (fs (filename a))) (image (wavesize (filetime a)) wavebuff).
Proof.
  intros Hmain Hout. unfold main in Hmain.
  destruct (read_arguments argv) as [a |] eqn:Ha;
    [ | injection Hmain as <-; discriminate ].
  destruct (validate argv a) as [msgs |] eqn:Hv;
    [ injection Hmain as <-; discriminate | ].
  apply bind_Ok in Hmain as (wavebuff & Hgen & Hwrite).
  exists a, wavebuff. repeat split; try assumption.
  destruct (creatable (fs (filename a))) eqn:Hd.
  - rewrite write_out_creatable in Hwrite; try assumption.
    + injection Hwrite as <-. cbn in Hout. injection Hout as <-. reflexivity.
    + apply (generate_Ok sinf a (read_arguments_well_formed argv a Ha) wavebuff Hgen).
    + apply wavesize_int.
  - unfold write_out, fopen in Hwrite. rewrite Hd in Hwrite.
    injection Hwrite as <-. discriminate.
Qed.

End Run.

(** * The headers, read back *)

Lemma image_headers (wavesize : Z) (wavebuff : list Z) :
  image wavesize wavebuff = headers wavesize ++ Memory.of_shorts wavebuff.
Proof. unfold image, headers. rewrite <- !app_assoc. reflexivity. Qed.

Lemma length_image (wavesize : Z) (wavebuff : list Z) :
  length (image wavesize wavebuff) = (44 + 2 * length wavebuff)%nat.
Proof. rewrite image_headers, length_app, length_of_shorts. reflexivity. Qed.

Lemma field_take (off len n : nat) (file : list byte) :
  (off + len <= n)%nat ->
  Wave.field off len (take n file) = Wave.field off len file.
Proof.
  intros Hn. unfold Wave.field.
  rewrite !take_drop_commute, take_take. f_equal. f_equal. lia.
Qed.

(** A file that has its first 44 bytes has the headers in them. *)
Lemma field_of_file (off len room : nat) (wavesize : Z) (wavebuff : list Z) :
  (off + len <= 44)%nat ->
  (44 <= length (take room (image wavesize wavebuff)))%nat ->
  Wave.field off len (take room (image wavesize wavebuff)) =
  Wave.field off len (headers wavesize).
Proof.
  intros Hoff Hlen. rewrite length_take in Hlen.
  rewrite <- (field_take off len 44 (take room _)) by exact Hoff.
  rewrite take_take. replace (44 `min` room)%nat with 44%nat by lia.
  rewrite image_headers, take_app_length' by reflexivity. reflexivity.
Qed.

Lemma chunk2size_small (wavesize : Z) :
  0 <= wavesize <= Int.INT_MAX ->
  Wave.le_value (Wave.field 40 4 (headers wavesize)) = wavesize.
Proof.
  intros Hws. change (Wave.field 40 4 (headers wavesize))
    with (Memory.le_bytes 4 (Int.to_uint wavesize)).
  rewrite le_value_le_bytes. unfold Int.to_uint, Int.UINT_MODULUS, Int.INT_MAX in *.
  change (256 ^ Z.of_nat 4) with (2 ^ 32). rewrite Z.mod_mod by lia.
  apply Z.mod_small. lia.
Qed.

Lemma chunk0size_small (wavesize : Z) :
  0 <= wavesize <= Int.INT_MAX ->
  Wave.le_value (Wave.field 4 4 (headers wavesize)) =
  sizeof_riffhead + sizeof_frmthead + sizeof_datahead + wavesize - 8.
Proof.
  intros Hws. change (Wave.field 4 4 (headers wavesize))
    with (Memory.le_bytes 4 (chunk0size (riffhead wavesize))).
  rewrite le_value_le_bytes. cbn [riffhead chunk0size].
  unfold Int.to_uint, Int.to_size_t, Int.UINT_MODULUS, Int.INT_MAX in *.
  unfold sizeof_riffhead, sizeof_frmthead, sizeof_datahead.
  change (256 ^ Z.of_nat 4) with (2 ^ 32).
  rewrite (Z.mod_small wavesize) by lia.
  rewrite (Z.mod_small _ (2 ^ 64)) by lia.
  rewrite Z.mod_mod by lia. apply Z.mod_small. lia.
Qed.

Section Container.

Variable sinf : spec_float -> spec_float.
Variable fs : string -> device.

(** C2.  Reading back the format chunk and the header of the data chunk
    of a file the program wrote gives PCM (format 1), one channel, 16 bits
    per sample, 44100 samples per second, a byte rate of
    sample rate x channels x bytes per sample, a block align of
    channels x bytes per sample, and a data size of twice the number of
    samples in the buffer. *)
Theorem format_chunk_round_trip (argv : list string) (a : arguments)
    (wavebuff : list Z) (out : outcome) (file : list byte) :
  read_arguments argv = Some a ->
  generate sinf a = Ok wavebuff ->
  main sinf fs argv = Ok out ->
  output out = Some file ->
  (44 <= length file)%nat ->
  exists frmt data,
    Wave.read_frmthead file = Some frmt /\
    Wave.read_datahead file = Some data /\
    chunk1id frmt = list_byte_of_string "fmt " /\
    clsize frmt = 16 /\
    audioformat frmt = 1 /\
    audiochannels frmt = 1 /\
    samplerate frmt = 44100 /\
    bitspersample frmt = 16 /\
    byterate frmt = samplerate frmt * audiochannels frmt * (bitspersample frmt / 8) /\
    blockalign frmt = audiochannels frmt * (bitspersample frmt / 8) /\
    chunk2id data = list_byte_of_string "data" /\
    chunk2size data = 2 * Z.of_nat (length wavebuff).
Proof.
  intros Ha Hgen Hmain Hout Hlen.
  destruct (main_output sinf fs argv out file Hmain Hout)
    as (a' & wavebuff' & Ha' & _ & Hgen' & ->).
  rewrite Ha in Ha'. injection Ha' as <-.
  rewrite Hgen in Hgen'. injection Hgen' as <-.
  destruct (generate_Ok sinf a (read_arguments_well_formed argv a Ha) wavebuff Hgen)
    as (_ & Hws & _).
  pose proof (wavesize_int (filetime a)) as Hmax.
  unfold Wave.read_frmthead, Wave.read_datahead.
  replace (36 <=? _)%nat with true by (symmetry; apply Nat.leb_le; lia).
  replace (44 <=? _)%nat with true by (symmetry; apply Nat.leb_le; lia).
  do 2 eexists. split; [ reflexivity | ]. split; [ reflexivity | ].
  cbn [chunk1id clsize audioformat audiochannels samplerate bitspersample byterate
       blockalign chunk2id chunk2size].
  rewrite !field_of_file by (lia || exact Hlen).
  rewrite chunk2size_small by lia.
  repeat split; try reflexivity. exact Hws.
Qed.

(** C3.  The chunk size in the RIFF header of a file the program wrote is
    36 plus the number of sample bytes, which is the three header sizes
    plus the sample bytes minus 8; when the device took the whole image
    it is the size of the file minus 8. *)
Theorem riff_chunk_size (argv : list string) (a : arguments)
    (wavebuff : list Z) (out : outcome) (file : list byte) :
  read_arguments argv = Some a ->
  generate sinf a = Ok wavebuff ->
  main sinf fs argv = Ok out ->
  output out = Some file ->
  (44 <= length file)%nat ->
  exists riff,
    Wave.read_riffhead file = Some riff /\
    chunk0id riff = list_byte_of_string "RIFF" /\
    format riff = list_byte_of_string "WAVE" /\
    chunk0size riff = 36 + Z.of_nat (length (Memory.of_shorts wavebuff)) /\
    chunk0size riff =
      sizeof_riffhead + sizeof_frmthead + sizeof_datahead
      + Z.of_nat (length (Memory.of_shorts wavebuff)) - 8 /\
    ((length (image (wavesize (filetime a)) wavebuff) <= room (fs (filename a)))%nat ->
     Z.of_nat (length file) = chunk0size riff + 8).
Proof.
  intros Ha Hgen Hmain Hout Hlen.
  destruct (main_output sinf fs argv out file Hmain Hout)
    as (a' & wavebuff' & Ha' & _ & Hgen' & ->).
  rewrite Ha in Ha'. injection Ha' as <-.
  rewrite Hgen in Hgen'. injection Hgen' as <-.
  destruct (generate_Ok sinf a (read_arguments_well_formed argv a Ha) wavebuff Hgen)
    as (_ & Hws & _).
  pose proof (wavesize_int (filetime a)) as Hmax.
  unfold Wave.read_riffhead.
  replace (12 <=? _)%nat with true by (symmetry; apply Nat.leb_le; lia).
  eexists. split; [ reflexivity | ].
  cbn [chunk0id chunk0size format].
  rewrite !field_of_file by (lia || exact Hlen).
  rewrite chunk0size_small by lia.
  rewrite length_of_shorts.
  unfold sizeof_riffhead, sizeof_frmthead, sizeof_datahead.
  split; [ reflexivity | ]. split; [ reflexivity | ]. split; [ lia | ]. split; [ lia | ].
  intros Hroom. rewrite take_ge by exact Hroom. rewrite length_image. lia.
Qed.

End Container.

(** * Validation of the command line *)

Lemma out_of_range_false (f : Z) :
  out_of_range f = false <-> MIN_FREQ <= f <= MAX_FREQ.
Proof.
  unfold out_of_range. rewrite orb_false_iff, !Z.ltb_ge. lia.
Qed.

Lemma first_rejected_None (i : Z) (fs : list Z) :
  first_rejected i fs = None <-> Forall (fun f => MIN_FREQ <= f <= MAX_FREQ) fs.
Proof.
  revert i. induction fs as [| f fs IH]; intros i; cbn [first_rejected].
  - split; [ constructor | reflexivity ].
  - destruct (out_of_range f) eqn:Hf.
    + split; [ discriminate | ]. intros H. inversion H as [| ? ? Hin _]; subst.
      apply out_of_range_false in Hin. congruence.
    + rewrite IH. apply out_of_range_false in Hf. split.
      * intros H. constructor; assumption.
      * intros H. inversion H; assumption.
Qed.

Lemma first_rejected_Some (i k : Z) (fs : list Z) :
  first_rejected k fs = Some i ->
  k <= i < k + Z.of_nat (length fs) /\
  exists f, fs !! Z.to_nat (i - k) = Some f /\ out_of_range f = true.
Proof.
  revert k. induction fs as [| f fs IH]; intros k; cbn [first_rejected]; [ discriminate | ].
  destruct (out_of_range f) eqn:Hf.
  - intros [= <-]. cbn [length]. split; [ lia | ].
    exists f. rewrite Z.sub_diag. auto.
  - intros H. apply IH in H as (Hr & g & Hg & Hout). cbn [length].
    split; [ lia | ]. exists g. split; [ | exact Hout ].
    replace (Z.to_nat (i - k)) with (S (Z.to_nat (i - (k + 1)))) by lia. exact Hg.
Qed.

Section Validation.

Variable sinf : spec_float -> spec_float.
Variable fs : string -> device.

(** C8.  The frequency check passes exactly the values from 20 to 22050:
    with 20 or 22050 on the command line the run goes on to generate the
    signal, with 19 or 22051 it prints the rejection and exits before
    anything is generated. *)
Theorem frequency_range_is_closed :
  (forall f, out_of_range f = false <-> 20 <= f <= 22050) /\
  (forall freqs, first_rejected 0 freqs = None <->
                 Forall (fun f => 20 <= f <= 22050) freqs) /\
  read_arguments (Example.one_frequency "20") = Some (Example.request 1 [20]) /\
  main sinf fs (Example.one_frequency "20") =
    (wavebuff ← generate sinf (Example.request 1 [20]);
     write_out (fs "a.wav") "a.wav" (wavesize 1) wavebuff) /\
  read_arguments (Example.one_frequency "22050") = Some (Example.request 1 [22050]) /\
  main sinf fs (Example.one_frequency "22050") =
    (wavebuff ← generate sinf (Example.request 1 [22050]);
     write_out (fs "a.wav") "a.wav" (wavesize 1) wavebuff) /\
  main sinf fs (Example.one_frequency "19") =
    Ok {| status := 0;
          stdout := [InvalidArguments; FrequencyOutsideRange 20 22050; CurrentValue None];
          output := None |} /\
  main sinf fs (Example.one_frequency "22051") =
    Ok {| status := 0;
          stdout := [InvalidArguments; FrequencyOutsideRange 20 22050; CurrentValue None];
          output := None |}.
Proof.
  split; [ exact out_of_range_false | ].
  split; [ exact (first_rejected_None 0) | ].
  repeat split.
Qed.

End Validation.

Section Duration.

Variable sinf : spec_float -> spec_float.
Variable fs : string -> device.

(** C9 (amended).  A duration argument that [atol] reads as a negative
    number which is not a multiple of 2^32 passes the duration check: the
    duration is that number modulo 2^32, which is not zero, validation
    goes on to the frequencies, and when these pass the run goes on to
    generate the signal for the wrapped duration. *)
Theorem negative_duration_wraps (argv : list string) (a : arguments) :
  read_arguments argv = Some a ->
  Libc.atol (arg argv 2) < 0 ->
  Libc.atol (arg argv 2) mod 2 ^ 32 <> 0 ->
  filetime a = Libc.atol (arg argv 2) mod 2 ^ 32 /\
  0 < filetime a /\
  (- 2 ^ 32 < Libc.atol (arg argv 2) -> filetime a = 2 ^ 32 + Libc.atol (arg argv 2)) /\
  (forall msgs, validate argv a = Some msgs -> ~ In DurationNotPositive msgs) /\
  (first_rejected 0 (freqbuff a) = None ->
   main sinf fs argv =
   (wavebuff ← generate sinf a;
    write_out (fs (filename a)) (filename a) (wavesize (filetime a)) wavebuff)).
Proof.
  intros Ha Hneg Hmod.
  pose proof (read_arguments_Some argv a Ha) as [_ Heq].
  assert (Hft : filetime a = Libc.atol (arg argv 2) mod 2 ^ 32) by (rewrite Heq; reflexivity).
  pose proof (Z.mod_pos_bound (Libc.atol (arg argv 2)) (2 ^ 32) ltac:(lia)) as Hr.
  assert (Hcheck : (filetime a =? 0) = false) by (apply Z.eqb_neq; lia).
  split; [ exact Hft | ]. split; [ lia | ]. split; [ | split ].
  - intros Hlow. rewrite Hft. symmetry.
    apply Z.mod_unique with (-1); lia.
  - intros msgs. unfold validate. rewrite Hcheck.
    destruct (first_rejected 0 (freqbuff a)); [ | discriminate ].
    intros [= <-]. cbn. intros [H | [H | [H | []]]]; discriminate.
  - intros Hfreq. apply main_generates; [ exact Ha | ].
    unfold validate. rewrite Hcheck, Hfreq. reflexivity.
Qed.

End Duration.

(** C9, witness: [wavdump a.wav -1 440]. *)
Lemma negative_duration_wraps_witness :
  exists a,
    read_arguments (Example.with_duration "-1") = Some a /\
    Libc.atol (arg (Example.with_duration "-1") 2) < 0 /\
    Libc.atol (arg (Example.with_duration "-1") 2) mod 2 ^ 32 <> 0 /\
    filetime a = 4294967295 /\
    main Sine.sinf Example.roomy (Example.with_duration "-1") =
    (wavebuff ← generate Sine.sinf a;
     write_out (Example.roomy (filename a)) (filename a) (wavesize (filetime a)) wavebuff).
Proof.
  eexists. split; [ reflexivity | ].
  assert (H1 : Libc.atol (arg (Example.with_duration "-1") 2) < 0) by reflexivity.
  assert (H2 : Libc.atol (arg (Example.with_duration "-1") 2) mod 2 ^ 32 <> 0) by discriminate.
  split; [ exact H1 | ]. split; [ exact H2 | ].
  destruct (negative_duration_wraps Sine.sinf Example.roomy (Example.with_duration "-1") _
              eq_refl H1 H2) as (_ & _ & _ & _ & Hmain).
  split; [ reflexivity | ]. apply Hmain. reflexivity.
Defined.

(** C9, counterexample: [wavdump a.wav -4294967296 440].  The argument
    reads as a negative number and the duration check rejects it, because
    the number converts to the [unsigned int] zero. *)
Lemma negative_duration_rejected :
  Libc.atol (arg (Example.with_duration "-4294967296") 2) = -4294967296 /\
  main Sine.sinf Example.roomy (Example.with_duration "-4294967296") =
  Ok {| status := 0;
        stdout := [InvalidArguments; DurationNotPositive;
                   CurrentValue (Some "-4294967296"%string)];
        output := None |}.
Proof. split; reflexivity. Qed.

Section Rejection.

Variable sinf : spec_float -> spec_float.
Variable fs : string -> device.

(** C10 (amended).  When the first frequency outside the range is the
    [i]-th of the list, the rejection shows [argv[5 + i]] where the
    rejected argument is [argv[3 + i]]: the argument two places further
    on, which is a different place on the command line (its text is the
    rejected one only when the two arguments are spelled alike), and no
    argument at all when the rejected frequency is the last or the last
    but one. *)
Theorem rejection_shows_later_argument (argv : list string) (a : arguments) (i : Z) :
  read_arguments argv = Some a ->
  filetime a <> 0 ->
  first_rejected 0 (freqbuff a) = Some i ->
  main sinf fs argv =
    Ok {| status := 0;
          stdout := [InvalidArguments; FrequencyOutsideRange MIN_FREQ MAX_FREQ;
                     CurrentValue (argv !! Z.to_nat (5 + i))];
          output := None |} /\
  0 <= i < freqsize a /\
  (exists s, argv !! Z.to_nat (3 + i) = Some s /\
             out_of_range (Int.to_uint (Libc.atol s)) = true) /\
  argv !! Z.to_nat (5 + i) = argv !! Z.to_nat (3 + (i + 2)) /\
  (argv !! Z.to_nat (5 + i) = None <-> freqsize a - 2 <= i).
Proof.
  intros Ha Hft Hrej.
  pose proof (read_arguments_Some argv a Ha) as [Hargc Heq].
  pose proof (read_arguments_well_formed argv a Ha) as (Hlen & _).
  apply first_rejected_Some in Hrej as Hi. destruct Hi as (Hi & f & Hf & Hout).
  rewrite Z.sub_0_r in Hf.
  split; [ | split; [ lia | split; [ | split ] ] ].
  - apply (main_rejects sinf fs argv a); [ exact Ha | ]. unfold validate.
    replace (filetime a =? 0) with false by (symmetry; apply Z.eqb_neq; exact Hft).
    rewrite Hrej. reflexivity.
  - rewrite Heq in Hf. cbn [freqbuff] in Hf.
    change (map ?g ?l) with (g <$> l) in Hf.
    rewrite list_lookup_fmap, lookup_drop in Hf.
    replace (Z.to_nat (3 + i)) with (3 + Z.to_nat i)%nat by lia.
    destruct (argv !! (3 + Z.to_nat i)%nat) as [s |]; [ | discriminate ].
    injection Hf as <-. eauto.
  - f_equal. lia.
  - rewrite lookup_ge_None. unfold argc in *. rewrite Heq in *. cbn [freqsize] in *. lia.
Qed.

End Rejection.

(** C10, witness: [wavdump a.wav 1 5 440 5]. *)
Lemma rejection_shows_later_argument_witness :
  exists a,
    read_arguments Example.repeated_frequency = Some a /\
    filetime a <> 0 /\
    first_rejected 0 (freqbuff a) = Some 0 /\
    main Sine.sinf Example.roomy Example.repeated_frequency =
    Ok {| status := 0;
          stdout := [InvalidArguments; FrequencyOutsideRange MIN_FREQ MAX_FREQ;
                     CurrentValue (Example.repeated_frequency !! 5%nat)];
          output := None |}.
Proof.
  eexists. split; [ reflexivity | ].
  assert (H1 : 1 <> 0) by discriminate.
  split; [ exact H1 | ]. split; [ reflexivity | ].
  exact (proj1 (rejection_shows_later_argument Sine.sinf Example.roomy
                  Example.repeated_frequency _ 0 eq_refl H1 eq_refl)).
Defined.

(** C10, counterexample: [wavdump a.wav 1 5 440 5].  The first frequency,
    5, is rejected, and the value the message shows is 5, the text of the
    rejected argument. *)
Lemma rejection_can_show_rejected_value :
  main Sine.sinf Example.roomy Example.repeated_frequency =
  Ok {| status := 0;
        stdout := [InvalidArguments; FrequencyOutsideRange 20 22050;
                   CurrentValue (Some "5"%string)];
        output := None |} /\
  Example.repeated_frequency !! 3%nat = Some "5"%string /\
  first_rejected 0 [5; 440; 5] = Some 0.
Proof. repeat split. Qed.

(** * Runs with the reference sine *)

Lemma reference_generates (argv : list string) (a : arguments) :
  read_arguments argv = Some a -> filetime a <= 24347 ->
  exists wavebuff, generate Sine.sinf a = Ok wavebuff.
Proof.
  intros Ha Hft. pose proof (read_arguments_well_formed argv a Ha) as Hwf.
  apply generate_total; try assumption.
  apply sine_bounded_reference. apply Hwf.
Qed.

(** A request of up to 24347 seconds whose sines are bounded runs to
    completion: the signal is generated and, when the file can be
    created, written. *)
Lemma main_completes (sinf : spec_float -> spec_float) (fs : string -> device)
    (argv : list string) (a : arguments) :
  read_arguments argv = Some a -> validate argv a = None ->
  filetime a <= 24347 -> sine_bounded sinf a ->
  exists out, main sinf fs argv = Ok out /\ status out = 0.
Proof.
  intros Ha Hv Hft Hsin.
  destruct (generate_total sinf a (read_arguments_well_formed argv a Ha) Hsin Hft)
    as [wavebuff Hgen].
  destruct (creatable (fs (filename a))) eqn:Hd.
  - eexists. split; [ apply (main_writes sinf fs argv a wavebuff); eassumption | reflexivity ].
  - rewrite (main_generates sinf fs argv a Ha Hv), Hgen. cbn [mbind result_bind].
    unfold write_out, fopen. rewrite Hd. eexists. split; reflexivity.
Qed.

Section Writing.

Variable sinf : spec_float -> spec_float.
Variable fs : string -> device.

(** C7 (amended).  The program does not look at what [fwrite] returns:
    once the signal is generated and the file is created, the run ends
    with status 0 and prints nothing, whatever part of the image the device
    took; only a failure to create the file is reported, as three printed
    lines, and that run ends with status 0 as well. *)
Theorem write_failures_are_ignored (argv : list string) (a : arguments)
    (wavebuff : list Z) :
  read_arguments argv = Some a ->
  validate argv a = None ->
  generate sinf a = Ok wavebuff ->
  (creatable (fs (filename a)) = true ->
   main sinf fs argv =
   Ok {| status := 0; stdout := [];
         output := Some (take (room (fs (filename a)))
                              (image (wavesize (filetime a)) wavebuff)) |}) /\
  (creatable (fs (filename a)) = false ->
   main sinf fs argv =
   Ok {| status := 0;
         stdout := [CouldNotOpen (filename a); Reason; Aborting];
         output := None |}).
Proof.
  intros Ha Hv Hgen. split; intros Hd.
  - apply main_writes; assumption.
  - rewrite (main_generates sinf fs argv a Ha Hv), Hgen. cbn [mbind result_bind].
    unfold write_out, fopen. rewrite Hd. reflexivity.
Qed.

End Writing.

(** C7, witness: [wavdump a.wav 1 440] on a device that fails after ten
    bytes. *)
Lemma write_failures_are_ignored_witness :
  exists wavebuff,
    read_arguments (Example.one_frequency "440") = Some (Example.request 1 [440]) /\
    validate (Example.one_frequency "440") (Example.request 1 [440]) = None /\
    generate Sine.sinf (Example.request 1 [440]) = Ok wavebuff /\
    main Sine.sinf Example.cramped (Example.one_frequency "440") =
    Ok {| status := 0; stdout := [];
          output := Some (take 10 (image (wavesize 1) wavebuff)) |}.
Proof.
  set (a := Example.request 1 [440]).
  assert (Ha : read_arguments (Example.one_frequency "440") = Some a) by reflexivity.
  assert (Hv : validate (Example.one_frequency "440") a = None) by reflexivity.
  destruct (reference_generates _ a Ha) as [wavebuff Hgen]; [ discriminate | ].
  exists wavebuff. split; [ exact Ha | ]. split; [ exact Hv | ]. split; [ exact Hgen | ].
  exact (proj1 (write_failures_are_ignored Sine.sinf Example.cramped
                  (Example.one_frequency "440") a wavebuff Ha Hv Hgen)
               eq_refl).
Defined.

(** C7, counterexample: [wavdump a.wav 1 440] on a device that fails
    after ten bytes.  Ten of the 88244 bytes reach the file, and the run
    ends with status 0 and prints nothing. *)
Lemma write_failure_goes_unreported :
  exists wavebuff out file,
    generate Sine.sinf (Example.request 1 [440]) = Ok wavebuff /\
    main Sine.sinf Example.cramped (Example.one_frequency "440") = Ok out /\
    status out = 0 /\ stdout out = [] /\ output out = Some file /\
    length file = 10%nat /\
    length (image (wavesize 1) wavebuff) = Z.to_nat 88244.
Proof.
  set (a := Example.request 1 [440]).
  assert (Ha : read_arguments (Example.one_frequency "440") = Some a) by reflexivity.
  destruct (reference_generates _ a Ha) as [wavebuff Hgen]; [ discriminate | ].
  pose proof (generate_Ok Sine.sinf a (read_arguments_well_formed _ a Ha) wavebuff Hgen)
    as (Hlen & _ & _).
  change (filetime a * waverate) with 44100 in Hlen.
  exists wavebuff. do 2 eexists. split; [ exact Hgen | ].
  split; [ apply (main_writes Sine.sinf Example.cramped _ a wavebuff Ha eq_refl Hgen eq_refl) | ].
  cbn [status stdout output].
  split; [ reflexivity | ]. split; [ reflexivity | ]. split; [ reflexivity | ]. split.
  - rewrite length_take, length_image. cbn [Example.cramped room]. lia.
  - rewrite length_image. lia.
Qed.

(** * The buffer and the duration *)

(** C4 (the defect).  For [wavdump a.wav 48696 440] the size of the
    buffer wraps around: 48696 seconds are 2147493600 samples, the block
    is 19904 bytes, 9952 samples, and every run is undefined (the loop
    stores past the end of the block). *)
Theorem buffer_size_wraps_at_48696_seconds :
  read_arguments (Example.with_duration "48696") = Some (Example.request 48696 [440]) /\
  48696 * waverate = 2147493600 /\
  wavesize 48696 = 19904 /\
  Z.of_nat (length (malloc (wavesize 48696))) = 9952 /\
  forall sinf fs, exists u, main sinf fs (Example.with_duration "48696") = UB u.
Proof.
  split; [ reflexivity | ]. split; [ reflexivity | ]. split; [ reflexivity | ].
  split; [ rewrite length_malloc; reflexivity | ].
  intros sinf fs.
  rewrite (main_generates sinf fs (Example.with_duration "48696") _ eq_refl eq_refl).
  destruct (generate sinf _) as [wavebuff | u] eqn:Hgen; [ exfalso | exists u; reflexivity ].
  pose proof (generate_Ok sinf _
                (read_arguments_well_formed (Example.with_duration "48696") _ eq_refl)
                wavebuff Hgen) as (Hlen & Hws & _).
  change (filetime _) with 48696 in Hlen, Hws.
  change (wavesize 48696) with 19904 in Hws.
  change (48696 * waverate) with 2147493600 in Hlen. lia.
Qed.

(** * The sine argument *)

Ltac rational_constants := apply Qle_bool_imp_le; vm_compute; reflexivity.

Lemma tracks_weaken (prec : Z) (lo hi v lo' hi' v' : Q) (k k' : Z) (x : spec_float) :
  tracks prec lo hi v k x ->
  k' <= k -> (v == v')%Q -> (0 <= v)%Q -> (lo' <= lo)%Q -> (hi <= hi')%Q ->
  tracks prec lo' hi' v' k' x.
Proof.
  destruct x as [s | s | | [] m e]; cbn [tracks]; try contradiction.
  intros (Hm & He & Hlo & Hhi) Hk Hv H0 Hl Hh.
  split; [ exact Hm | ]. split; [ lia | ]. rewrite <- Hv. split.
  - apply Qle_trans with (lo * v)%Q; [ | exact Hlo ].
    apply Qmult_le_compat_r; assumption.
  - apply Qle_trans with (hi * v)%Q; [ exact Hhi | ].
    apply Qmult_le_compat_r; assumption.
Qed.

Lemma exponent_from_value (m : positive) (e a b : Z) :
  0 <= a -> Zpos m < 2 ^ a -> (2 ^ b <= inject_Z (Zpos m) * 2 ^ e)%Q -> b - a < e.
Proof.
  intros Ha Hm Hv.
  assert (Hlt : (2 ^ b < 2 ^ (a + e))%Q).
  { eapply Qle_lt_trans; [ exact Hv | ].
    rewrite Qpower_plus by exact two_nonzero.
    apply Qmult_lt_compat_r; [ apply two_power_pos | ].
    change 2%Q with (inject_Z 2). rewrite <- Zpower_Qpower by exact Ha.
    rewrite <- Zlt_Qlt. exact Hm. }
  apply Qpower_lt_compat_l_inv in Hlt; [ lia | reflexivity ].
Qed.

(** ** The sine argument against [2 pi f t] *)

Lemma two_pi_tracks :
  tracks 53 1 1 (2 * Formula.value Float.M_PI) (-50)
    (Float.dmul (Float.double_of_int 2) Float.M_PI).
Proof.
  change (Float.dmul (Float.double_of_int 2) Float.M_PI)
    with (S754_finite false 7074237752028440 (-50)).
  cbn [tracks]. split; [ reflexivity | ]. split; [ lia | ].
  split; apply Qle_bool_imp_le; vm_compute; reflexivity.
Qed.

Lemma double_of_int_tracks (z : Z) :
  0 < z < 2 ^ 53 ->
  tracks 53 (Formula.least 53) (Formula.most 53) (inject_Z z) (-53) (Float.double_of_int z).
Proof.
  intros Hz. pose proof (double_of_int_le z z ltac:(lia) ltac:(lia)) as Hmag.
  unfold Float.double_of_int in *. destruct z as [| p | p]; try lia.
  cbn [binary_normalize] in *.
  apply tracks_weaken with (Formula.least 53) (Formula.most 53) (inject_Z (Zpos p) * 2 ^ 0)%Q (0 - 53);
    try apply Qle_refl; try lia.
  - apply (binary_round_tracks 53 1024 ltac:(lia) p 0 (Zpos p)); [ | exact Hmag ].
    unfold emin. lia.
  - change (2 ^ 0)%Q with 1%Q. ring.
  - change (2 ^ 0)%Q with 1%Q. rewrite Qmult_1_r. rewrite <- (Zle_Qle 0). lia.
Qed.

Lemma two_pi_freq_index_le (f j : Z) :
  0 <= f < 2 ^ 32 -> 0 <= j < 44100 ->
  Float.magnitude_le (7 * 2 ^ 32 * 44100)
    (Float.dmul
       (Float.dmul (Float.dmul (Float.double_of_int 2) Float.M_PI) (Float.double_of_int f))
       (Float.double_of_int j)).
Proof.
  intros Hf Hj.
  replace (7 * 2 ^ 32 * 44100) with (7 * 2 ^ 32 * 44100 * 2 ^ 0) by reflexivity.
  apply SFmul_le with (7 * 2 ^ 32) 44100; try lia.
  - apply two_pi_freq_le. exact Hf.
  - apply double_of_int_le; lia.
Qed.

(** The factors by which the double and the float the program computes
    may differ from the exact product [2 * M_PI * f * j / 44100]. *)
Lemma angle_tracks (f j : Z) :
  0 < f < 2 ^ 32 -> 0 < j < 44100 ->
  tracks 53 (1 - (1 # 2 ^ 48)) (1 + (1 # 2 ^ 48))
    (2 * Formula.value Float.M_PI * inject_Z f * (j # 44100)) (-1074) (angle f j).
Proof.
  intros Hf Hj.
  pose proof (angle_le f j ltac:(lia) ltac:(rewrite waverate_value; lia)) as Hmag.
  unfold angle in *.
  change (Float.double_of_int waverate) with (S754_finite false 6061057848115200 (-37)) in *.
  pose proof two_pi_tracks as HC.
  pose proof (double_of_int_tracks f ltac:(lia)) as HF.
  pose proof (double_of_int_tracks j ltac:(lia)) as HJ.
  assert (Hpi : (0 <= Formula.value Float.M_PI)%Q) by (rational_constants).
  assert (Hfq : (0 <= inject_Z f)%Q) by (rewrite <- (Zle_Qle 0); lia).
  assert (Hjq : (0 <= inject_Z j)%Q) by (rewrite <- (Zle_Qle 0); lia).
  assert (HL : (0 <= Formula.least 53)%Q) by (rational_constants).
  pose proof (SFmul_tracks 53 1024 ltac:(lia) _ _ _ _ _ _ _ _ _ _ (7 * 2 ^ 32) HC HF) as HCF.
  specialize (HCF ltac:(rewrite Qmult_1_l; apply Qmult_le_0_compat; [ rational_constants | exact Hpi ])
                  ltac:(apply Qmult_le_0_compat; assumption)
                  ltac:(unfold emin; lia)
                  (two_pi_freq_le f ltac:(unfold is_uint, Int.UINT_MODULUS; lia))).
  pose proof (SFmul_tracks 53 1024 ltac:(lia) _ _ _ _ _ _ _ _ _ _ (7 * 2 ^ 32 * 44100) HCF HJ)
    as HCFJ.
  assert (H2pif : (0 <= 2 * Formula.value Float.M_PI * inject_Z f)%Q).
  { apply Qmult_le_0_compat; [ | exact Hfq ].
    apply Qmult_le_0_compat; [ rational_constants | exact Hpi ]. }
  specialize (HCFJ ltac:(apply Qmult_le_0_compat; [ rational_constants | exact H2pif ])
                   ltac:(apply Qmult_le_0_compat; assumption)
                   ltac:(unfold emin; lia)
                   (two_pi_freq_index_le f j ltac:(lia) ltac:(lia))).
  pose proof (SFdiv_tracks 53 1024 ltac:(lia) _ 6061057848115200 (-37) _ _ _ _
                (7 * 2 ^ 32 * 44100) HCFJ) as HA.
  specialize (HA ltac:(apply Qmult_le_0_compat;
                         [ rational_constants
                         | apply Qmult_le_0_compat; assumption ])
                 ltac:(unfold emin; lia)
                 ltac:(unfold emin; cbn [Zdigits2 digits2_pos]; lia)
                 Hmag).
  eapply tracks_weaken; [ exact HA | unfold emin; lia | | | | ].
  - change (inject_Z 6061057848115200 * 2 ^ (-37))%Q with (6061057848115200 # 137438953472)%Q.
    unfold Qdiv. setoid_replace (/ (6061057848115200 # 137438953472))%Q with (1 # 44100)%Q
      using relation Qeq by reflexivity.
    setoid_replace (j # 44100)%Q with (inject_Z j * (1 # 44100))%Q using relation Qeq
      by (unfold Qeq, Qmult, inject_Z; cbn [Qnum Qden]; lia).
    ring.
  - unfold Qdiv. apply Qmult_le_0_compat; [ | rational_constants ].
    apply Qmult_le_0_compat; assumption.
  - rational_constants.
  - rational_constants.
Qed.

Lemma tracks_through (prec : Z) (lo hi v lo0 hi0 v0 : Q) (k : Z) (x : spec_float) :
  tracks prec lo hi v k x -> (lo0 * v0 <= v <= hi0 * v0)%Q ->
  (0 <= lo)%Q -> (0 <= hi)%Q ->
  tracks prec (lo * lo0) (hi * hi0) v0 k x.
Proof.
  destruct x as [s | s | | [] m e]; cbn [tracks]; try contradiction.
  intros (Hm & He & Hlo & Hhi) [Hv1 Hv2] Hl Hh.
  split; [ exact Hm | ]. split; [ exact He | ]. split.
  - apply Qle_trans with (lo * v)%Q; [ | exact Hlo ].
    rewrite <- Qmult_assoc. apply Qmult_le_left; assumption.
  - apply Qle_trans with (hi * v)%Q; [ exact Hhi | ].
    rewrite <- Qmult_assoc. apply Qmult_le_left; assumption.
Qed.

(** The smallest angle that is not zero is well above the smallest
    normal [float]. *)
Lemma angle_not_tiny (f j : Z) :
  0 < f -> 0 < j ->
  (2 ^ (-14) <= (1 - (1 # 2 ^ 48)) * (2 * Formula.value Float.M_PI * inject_Z f * (j # 44100)))%Q.
Proof.
  intros Hf Hj.
  apply Qle_trans with ((1 - (1 # 2 ^ 48)) * (2 * Formula.value Float.M_PI * 1 * (1 # 44100)))%Q;
    [ rational_constants | ].
  apply Qmult_le_left; [ | rational_constants ].
  apply Qmult_le_compat_nonneg.
  - split; [ rational_constants | ]. apply Qmult_le_left; [ | rational_constants ].
    change 1%Q with (inject_Z 1). rewrite <- Zle_Qle. lia.
  - split; [ rational_constants | ]. unfold Qle. cbn [Qnum Qden]. lia.
Qed.

Lemma sine_argument_tracks (f j : Z) :
  0 < f < 2 ^ 32 -> 0 < j < 44100 ->
  tracks 24 (1 - (1 # 2 ^ 21)) (1 + (1 # 2 ^ 21))
    (2 * Formula.value Float.M_PI * inject_Z f * (j # 44100)) (-149)
    (Float.float_of_double (angle f j)).
Proof.
  intros Hf Hj.
  pose proof (angle_le f j ltac:(lia) ltac:(rewrite waverate_value; lia)) as Hmag.
  apply float_of_double_le in Hmag; [ | lia ].
  pose proof (angle_not_tiny f j ltac:(lia) ltac:(lia)) as Htiny.
  destruct (tracks_finite 53 _ _ _ _ _ (angle_tracks f j Hf Hj))
    as (m & e & Ha & Hm & _ & Hv).
  rewrite Ha in *. cbn [Float.float_of_double] in *.
  assert (He : -67 < e).
  { apply (exponent_from_value m e 53 (-14)); [ lia | exact Hm | ].
    apply Qle_trans with (1 := Htiny). tauto. }
  pose proof (binary_round_tracks 24 128 ltac:(lia) m e (2 ^ 51) ltac:(unfold emin; lia) Hmag)
    as Hr.
  apply (tracks_through 24 _ _ _ _ _ _ _ _ Hr) in Hv; [ | rational_constants | rational_constants ].
  eapply tracks_weaken; [ exact Hv | lia | reflexivity | | rational_constants | rational_constants ].
  apply Qmult_le_0_compat; [ | unfold Qle; cbn [Qnum Qden]; lia ].
  apply Qmult_le_0_compat; [ rational_constants | ]. rewrite <- (Zle_Qle 0). lia.
Qed.

Lemma angle_zero_freq (j : Z) : 0 <= j < 44100 -> exists s, angle 0 j = S754_zero s.
Proof.
  intros Hj. unfold angle.
  change (Float.double_of_int waverate) with (S754_finite false 6061057848115200 (-37)).
  change (Float.dmul (Float.dmul (Float.double_of_int 2) Float.M_PI) (Float.double_of_int 0))
    with (S754_zero false).
  destruct (zero_or_finite _ _ (double_of_int_le j 44100 ltac:(lia) ltac:(lia)))
    as [[s ->] | (s & m & e & ->)]; cbn; eauto.
Qed.

Lemma close_zero (eps y : Q) : (y == 0)%Q -> Formula.close eps 0 y.
Proof.
  intros Hy. unfold Formula.close. rewrite Hy, !Qmult_0_r. split; apply Qle_refl.
Qed.

Lemma tracks_close (prec : Z) (eps v : Q) (k : Z) (x : spec_float) :
  tracks prec (1 - eps) (1 + eps) v k x -> Formula.close eps (Formula.value x) v.
Proof.
  destruct x as [s | s | | [] m e]; cbn [tracks]; try contradiction.
  intros (_ & _ & H). exact H.
Qed.

(** The double the program divides out and the float it hands to [sinf]
    are [2 * M_PI * f * t] for [t = (n mod 44100) / 44100], up to the
    rounding of the double operations and of the conversion to [float]. *)
Lemma sine_argument (f n : Z) :
  0 <= f < 2 ^ 32 ->
  Formula.close (1 # 2 ^ 48) (Formula.value (angle f (n mod 44100))) (Formula.phase f n) /\
  Formula.close (1 # 2 ^ 21) (Formula.value (Float.float_of_double (angle f (n mod 44100))))
    (Formula.phase f n).
Proof.
  intros Hf. pose proof (Z.mod_pos_bound n 44100 ltac:(lia)) as Hj.
  unfold Formula.phase, Formula.time. set (j := n mod 44100) in *.
  destruct (Z.eq_dec f 0) as [-> | Hf0]; [ | destruct (Z.eq_dec j 0) as [Hj0 | Hj0] ].
  - destruct (angle_zero_freq j Hj) as [s ->]. cbn [Float.float_of_double Formula.value].
    split; apply close_zero; change (inject_Z 0) with 0%Q; ring.
  - rewrite Hj0. destruct (angle_at_zero f) as [s ->];
      [ unfold is_uint, Int.UINT_MODULUS; lia | ].
    cbn [Float.float_of_double Formula.value].
    split; apply close_zero; setoid_replace (0 # 44100)%Q with 0%Q using relation Qeq
      by reflexivity; ring.
  - split.
    + apply (tracks_close 53 _ _ (-1074)). apply angle_tracks; lia.
    + apply (tracks_close 24 _ _ (-149)). apply sine_argument_tracks; lia.
Qed.

Lemma foldl_UB {A : Type} (step : result Z -> A -> result Z) (u : undefined) (l : list A) :
  (forall x, step (UB u) x = UB u) -> foldl step (UB u) l = UB u.
Proof.
  intros Hstep. induction l as [| x l IH]; cbn [foldl]; [ reflexivity | ].
  rewrite Hstep. exact IH.
Qed.

(** The harmonics of a cell, added one after the other. *)
Lemma accumulate_foldl (sinf : spec_float -> spec_float) (freqsize j : Z)
    (freqs : list Z) (s : Z) :
  freqsize <> 0 ->
  accumulate sinf freqsize j freqs s =
  foldl (fun r f =>
           s ← r;
           add_assign s
             (Float.fmul (sinf (Float.float_of_double (angle f j)))
                         (Float.float_of_int (32765 / freqsize))))
        (Ok s) freqs.
Proof.
  intros Hfs. revert s. induction freqs as [| f freqs IH]; intros s; [ reflexivity | ].
  cbn [accumulate foldl]. unfold harmonic, amplitude.
  replace (freqsize =? 0) with false by (symmetry; apply Z.eqb_neq; exact Hfs).
  cbn [mbind mret result_bind result_ret].
  destruct (add_assign s _) as [s' | u]; cbn [mbind result_bind].
  - apply IH.
  - symmetry. apply foldl_UB. reflexivity.
Qed.

Section Samples.

Variable sinf : spec_float -> spec_float.

(** C5.  When [sinf] stays within [-1, 1] on the angles of the request,
    every sample is a [short]: in each cell, the sum after any number of
    harmonics is defined, so each narrowing to [short] was in range, and
    lies between -32768 and 32767; so does every cell of the buffer a run
    generates. *)
Theorem samples_fit_short (argv : list string) (a : arguments) :
  read_arguments argv = Some a ->
  sine_bounded sinf a ->
  (forall j k, 0 <= j < waverate ->
     exists v, accumulate sinf (freqsize a) j (take k (freqbuff a)) 0 = Ok v /\
               Int.SHRT_MIN <= v <= Int.SHRT_MAX) /\
  (forall wavebuff, generate sinf a = Ok wavebuff ->
     Forall (fun v => Int.SHRT_MIN <= v <= Int.SHRT_MAX) wavebuff).
Proof.
  intros Ha Hsin. pose proof (read_arguments_well_formed argv a Ha) as Hwf.
  destruct Hwf as (Hlen & Hpos & Hft & Hfs) eqn:Hwf'. clear Hwf'.
  destruct (amplitude_bounds a Hpos) as [HA HfA].
  unfold Int.SHRT_MIN, Int.SHRT_MAX. split.
  - intros j k Hj.
    pose proof (length_take (freqbuff a) k) as Hk.
    destruct (accumulate_le sinf a j (take k (freqbuff a)) Hpos) with (s := 0) (n := 0)
      as (z & Hz & Hzr).
    + apply Forall_forall. intros f Hf. apply Hsin; [ | exact Hj ].
      apply list_elem_of_In. apply (subseteq_take k (freqbuff a)). exact Hf.
    + lia.
    + unfold Int.SHRT_MAX. nia.
    + exists z. split; [ exact Hz | nia ].
  - intros wavebuff Hgen.
    pose proof (generate_Ok sinf a (conj Hlen (conj Hpos (conj Hft Hfs))) wavebuff Hgen)
      as (Hl & _ & Hfill).
    pose proof waverate_value as Hw.
    apply Forall_lookup. intros n v Hv.
    pose proof (lookup_lt_Some _ _ _ Hv) as Hn.
    destruct (Hfill (Z.of_nat n) ltac:(lia)) as (v' & Hv' & Hs).
    rewrite Nat2Z.id, Hv in Hv'. injection Hv' as <-.
    destruct (sample_total sinf a (conj Hlen (conj Hpos (conj Hft Hfs)))
                (Z.of_nat n mod waverate) Hsin) as (w & Hw' & Hr).
    + apply Z.mod_pos_bound. lia.
    + rewrite Hs in Hw'. injection Hw' as <-. lia.
Qed.

(** C6.  In the buffer a run generates, the sample at index [n] is the
    one computed for the position [n mod 44100] inside its second, and the
    signal of the first second is repeated in every later second.  The
    sample is the sum, narrowed after every harmonic, of [sinf] of the
    arguments [(float)((2 * M_PI * f * (n mod 44100)) / 44100)] times the
    amplitude; each of these arguments is [2 pi f t] for the time
    [t = (n mod 44100) / 44100] of the specification and [M_PI] for pi, to
    one part in 2^48 as the double and to one part in 2^21 as the float
    that [sinf] receives. *)
Theorem phase_restarts_each_second (argv : list string) (a : arguments)
    (wavebuff : list Z) (n : Z) :
  read_arguments argv = Some a ->
  generate sinf a = Ok wavebuff ->
  0 <= n < Z.of_nat (length wavebuff) ->
  (exists v,
     wavebuff !! Z.to_nat n = Some v /\
     sample sinf a (n mod waverate) = Ok v /\
     wavebuff !! Z.to_nat (n mod waverate) = Some v /\
     foldl (fun r f =>
              s ← r;
              add_assign s
                (Float.fmul (sinf (Float.float_of_double (angle f (n mod 44100))))
                            (Float.float_of_int (32765 / freqsize a))))
           (Ok 0) (freqbuff a) = Ok v) /\
  (forall f, In f (freqbuff a) ->
     Formula.close (1 # 2 ^ 48) (Formula.value (angle f (n mod 44100))) (Formula.phase f n) /\
     Formula.close (1 # 2 ^ 21)
       (Formula.value (Float.float_of_double (angle f (n mod 44100)))) (Formula.phase f n)).
Proof.
  intros Ha Hgen Hn.
  pose proof (read_arguments_well_formed argv a Ha) as Hwf.
  pose proof (generate_Ok sinf a Hwf wavebuff Hgen) as (Hl & _ & Hfill).
  destruct Hwf as (_ & Hpos & _ & Hfs).
  pose proof waverate_value as Hw.
  split.
  - destruct (Hfill n ltac:(lia)) as (v & Hv & Hs).
    exists v. split; [ exact Hv | ]. split; [ exact Hs | ].
    pose proof (Z.mod_pos_bound n waverate ltac:(lia)) as Hm.
    pose proof (Z.mod_le n waverate ltac:(lia) ltac:(lia)) as Hle.
    destruct (Hfill (n mod waverate) ltac:(lia)) as (v' & Hv' & Hs').
    rewrite Z.mod_mod in Hs' by lia. rewrite Hs in Hs'. injection Hs' as <-.
    split; [ exact Hv' | ].
    unfold sample in Hs. rewrite (accumulate_foldl sinf) in Hs by lia.
    rewrite Hw in Hs. exact Hs.
  - intros f Hf. apply sine_argument.
    rewrite Forall_forall in Hfs. specialize (Hfs f (proj2 (list_elem_of_In _ _) Hf)).
    exact Hfs.
Qed.

(** How the program builds the samples of [wavdump a.wav 1 440 880]: in
    two steps, each ending in a truncation to [short].  The cell is
    cleared, [sinf] of the first angle times 16382 is added and the sum
    truncated, then [sinf] of the second angle times 16382 is added to
    that integer and the sum truncated again.  The factor 16382 is the
    integer quotient of 32765 by the number of harmonics. *)
Lemma two_harmonics_samples (wavebuff : list Z) (n : Z) :
  generate sinf (Example.request 1 [440; 880]) = Ok wavebuff ->
  0 <= n < 44100 ->
  read_arguments Example.two_harmonics = Some (Example.request 1 [440; 880]) /\
  32765 / freqsize (Example.request 1 [440; 880]) = 16382 /\
  exists s1 s2,
    add_assign 0
      (Float.fmul (sinf (Float.float_of_double (angle 440 n))) (Float.float_of_int 16382))
    = Ok s1 /\
    add_assign s1
      (Float.fmul (sinf (Float.float_of_double (angle 880 n))) (Float.float_of_int 16382))
    = Ok s2 /\
    wavebuff !! Z.to_nat n = Some s2.
Proof.
  intros Hgen Hn.
  assert (Ha : read_arguments Example.two_harmonics = Some (Example.request 1 [440; 880]))
    by reflexivity.
  split; [ exact Ha | ]. split; [ reflexivity | ].
  pose proof (generate_Ok sinf _ (read_arguments_well_formed _ _ Ha) wavebuff Hgen)
    as (_ & _ & Hfill).
  change (filetime _ * waverate) with 44100 in Hfill.
  destruct (Hfill n Hn) as (v & Hv & Hs).
  rewrite Z.mod_small in Hs by (rewrite waverate_value; exact Hn).
  assert (Hs' : (s1 ← add_assign 0
                          (Float.fmul (sinf (Float.float_of_double (angle 440 n)))
                                      (Float.float_of_int 16382));
                 s2 ← add_assign s1
                          (Float.fmul (sinf (Float.float_of_double (angle 880 n)))
                                      (Float.float_of_int 16382));
                 Ok s2) = Ok v) by exact Hs.
  apply bind_Ok in Hs' as (s1 & Hs1 & Hs').
  apply bind_Ok in Hs' as (s2 & Hs2 & [= <-]).
  exists s1, s2. split; [ exact Hs1 | ]. split; [ exact Hs2 | exact Hv ].
Qed.

End Samples.

(** * The theorems at concrete runs *)

(** [wavdump a.wav 1 440] with the reference sine on a device with room
    for the file: the run completes and leaves all 88244 bytes. *)
Lemma one_second_run :
  exists wavebuff,
    generate Sine.sinf (Example.request 1 [440]) = Ok wavebuff /\
    length wavebuff = Z.to_nat 44100 /\
    main Sine.sinf Example.roomy (Example.one_frequency "440") =
    Ok {| status := 0; stdout := [];
          output := Some (image (wavesize 1) wavebuff) |} /\
    length (image (wavesize 1) wavebuff) = Z.to_nat 88244.
Proof.
  set (a := Example.request 1 [440]).
  assert (Ha : read_arguments (Example.one_frequency "440") = Some a) by reflexivity.
  destruct (reference_generates _ a Ha) as [wavebuff Hgen]; [ discriminate | ].
  pose proof (generate_Ok Sine.sinf a (read_arguments_well_formed _ a Ha) wavebuff Hgen)
    as (Hlen & _ & _).
  change (filetime a * waverate) with 44100 in Hlen.
  assert (Himg : length (image (wavesize 1) wavebuff) = Z.to_nat 88244)
    by (rewrite length_image; lia).
  exists wavebuff. split; [ exact Hgen | ]. split; [ lia | ]. split; [ | exact Himg ].
  rewrite (main_writes Sine.sinf Example.roomy _ a wavebuff Ha eq_refl Hgen eq_refl).
  change (filetime a) with 1. cbn [Example.roomy room].
  rewrite take_ge by lia. reflexivity.
Qed.

(** C2, witness: [wavdump a.wav 1 440]. *)
Lemma format_chunk_round_trip_witness :
  exists a wavebuff out file,
    read_arguments (Example.one_frequency "440") = Some a /\
    generate Sine.sinf a = Ok wavebuff /\
    main Sine.sinf Example.roomy (Example.one_frequency "440") = Ok out /\
    output out = Some file /\
    (44 <= length file)%nat /\
    exists frmt data,
      Wave.read_frmthead file = Some frmt /\
      Wave.read_datahead file = Some data /\
      samplerate frmt = 44100 /\
      chunk2size data = 88200.
Proof.
  destruct one_second_run as (wavebuff & Hgen & Hlen & Hmain & Himg).
  eexists. exists wavebuff. do 2 eexists.
  split; [ reflexivity | ]. split; [ exact Hgen | ]. split; [ exact Hmain | ].
  split; [ reflexivity | ].
  assert (H44 : (44 <= length (image (wavesize 1) wavebuff))%nat) by lia.
  split; [ exact H44 | ].
  destruct (format_chunk_round_trip Sine.sinf Example.roomy (Example.one_frequency "440")
              _ wavebuff _ _ eq_refl Hgen Hmain eq_refl H44)
    as (frmt & data & Hf & Hd & _ & _ & _ & _ & Hrate & _ & _ & _ & _ & Hsize).
  exists frmt, data.
  split; [ exact Hf | ]. split; [ exact Hd | ]. split; [ exact Hrate | ]. lia.
Defined.

(** C3, witness: [wavdump a.wav 1 440]. *)
Lemma riff_chunk_size_witness :
  exists a wavebuff out file,
    read_arguments (Example.one_frequency "440") = Some a /\
    generate Sine.sinf a = Ok wavebuff /\
    main Sine.sinf Example.roomy (Example.one_frequency "440") = Ok out /\
    output out = Some file /\
    (44 <= length file)%nat /\
    exists riff,
      Wave.read_riffhead file = Some riff /\
      chunk0size riff = 88236 /\
      chunk0size riff = Z.of_nat (length file) - 8.
Proof.
  destruct one_second_run as (wavebuff & Hgen & Hlen & Hmain & Himg).
  eexists. exists wavebuff. do 2 eexists.
  split; [ reflexivity | ]. split; [ exact Hgen | ]. split; [ exact Hmain | ].
  split; [ reflexivity | ].
  assert (H44 : (44 <= length (image (wavesize 1) wavebuff))%nat) by lia.
  split; [ exact H44 | ].
  destruct (riff_chunk_size Sine.sinf Example.roomy (Example.one_frequency "440")
              _ wavebuff _ _ eq_refl Hgen Hmain eq_refl H44)
    as (riff & Hr & _ & _ & Hsize & _ & _).
  exists riff. rewrite length_of_shorts in Hsize.
  split; [ exact Hr | ]. split; lia.
Defined.

(** C5, witness: [wavdump a.wav 1 440 880] with the reference sine. *)
Lemma samples_fit_short_witness :
  exists a,
    read_arguments Example.two_harmonics = Some a /\
    sine_bounded Sine.sinf a /\
    forall wavebuff, generate Sine.sinf a = Ok wavebuff ->
      Forall (fun v => Int.SHRT_MIN <= v <= Int.SHRT_MAX) wavebuff.
Proof.
  set (a := Example.request 1 [440; 880]).
  assert (Ha : read_arguments Example.two_harmonics = Some a) by reflexivity.
  assert (Hsin : sine_bounded Sine.sinf a).
  { apply sine_bounded_reference. apply (read_arguments_well_formed _ a Ha). }
  exists a. split; [ exact Ha | ]. split; [ exact Hsin | ].
  exact (proj2 (samples_fit_short Sine.sinf Example.two_harmonics a Ha Hsin)).
Defined.

(** C6, witness: [wavdump a.wav 2 440].  Sample 44115, in the second
    second, is sample 15 again, 26466: [sinf] of the float nearest
    [2 pi 440 (15 / 44100)], times 32765. *)
Lemma phase_restarts_each_second_witness :
  exists wavebuff,
    read_arguments (Example.with_duration "2") = Some (Example.request 2 [440]) /\
    generate Sine.sinf (Example.request 2 [440]) = Ok wavebuff /\
    0 <= 44115 < Z.of_nat (length wavebuff) /\
    wavebuff !! Z.to_nat 44115 = Some 26466 /\
    wavebuff !! 15%nat = Some 26466 /\
    Float.to_short
      (Float.fmul (Sine.sinf (Float.float_of_double (angle 440 15)))
                  (Float.float_of_int 32765)) = Ok 26466 /\
    Formula.close (1 # 2 ^ 21) (Formula.value (Float.float_of_double (angle 440 15)))
      (2 * Formula.value Float.M_PI * 440 * (15 # 44100)).
Proof.
  set (a := Example.request 2 [440]).
  assert (Ha : read_arguments (Example.with_duration "2") = Some a) by reflexivity.
  destruct (reference_generates _ a Ha) as [wavebuff Hgen]; [ discriminate | ].
  pose proof (generate_Ok Sine.sinf a (read_arguments_well_formed _ a Ha) wavebuff Hgen)
    as (Hlen & _ & _).
  change (filetime a * waverate) with 88200 in Hlen.
  assert (Hn : 0 <= 44115 < Z.of_nat (length wavebuff)) by lia.
  destruct (phase_restarts_each_second Sine.sinf (Example.with_duration "2") a wavebuff
              44115 Ha Hgen Hn) as ((v & Hv & Hs & Hv' & Hfold) & Hphase).
  assert (E : sample Sine.sinf a (44115 mod waverate) = Ok 26466)
    by (vm_compute; reflexivity).
  rewrite E in Hs. injection Hs as <-.
  exists wavebuff.
  split; [ exact Ha | ]. split; [ exact Hgen | ]. split; [ exact Hn | ].
  split; [ exact Hv | ]. split; [ exact Hv' | ].
  split; [ vm_compute; reflexivity | ].
  exact (proj2 (Hphase 440 (or_introl eq_refl))).
Defined.

(** Sample 15 of [wavdump a.wav 1 440 880] with the reference sine is
    28833, reached through 13232. *)
Lemma two_harmonics_samples_witness :
  exists wavebuff,
    generate Sine.sinf (Example.request 1 [440; 880]) = Ok wavebuff /\
    0 <= 15 < 44100 /\
    add_assign 0
      (Float.fmul (Sine.sinf (Float.float_of_double (angle 440 15)))
                  (Float.float_of_int 16382)) = Ok 13232 /\
    wavebuff !! 15%nat = Some 28833.
Proof.
  set (a := Example.request 1 [440; 880]).
  assert (Ha : read_arguments Example.two_harmonics = Some a) by reflexivity.
  destruct (reference_generates _ a Ha) as [wavebuff Hgen]; [ discriminate | ].
  assert (Hn : 0 <= 15 < 44100) by lia.
  destruct (two_harmonics_samples Sine.sinf wavebuff 15 Hgen Hn)
    as (_ & _ & s1 & s2 & Hs1 & Hs2 & Hv).
  exists wavebuff. split; [ exact Hgen | ]. split; [ exact Hn | ].
  assert (E1 : add_assign 0
                 (Float.fmul (Sine.sinf (Float.float_of_double (angle 440 15)))
                             (Float.float_of_int 16382)) = Ok 13232)
    by (vm_compute; reflexivity).
  split; [ exact E1 | ].
  rewrite E1 in Hs1. injection Hs1 as <-.
  assert (E2 : add_assign 13232
                 (Float.fmul (Sine.sinf (Float.float_of_double (angle 880 15)))
                             (Float.float_of_int 16382)) = Ok 28833)
    by (vm_compute; reflexivity).
  rewrite E2 in Hs2. injection Hs2 as <-. exact Hv.
Defined.

(** C1 (the defect).  Sample 15 of [wavdump a.wav 1 440 880].  The
    comment above the loops asks for the mean of the harmonics, scaled to
    32765, and holds that dividing each harmonic by their number before
    summing gives the same result; the formula states that value: each
    sine times 32765/2 = 16382.5, the exact sum truncated once.  The
    program divides 32765 by 2 as integers, which gives 16382, and narrows
    the sum to [short] after each harmonic: with the reference sine it
    leaves 28833 in the buffer where the formula gives 28835. *)
Theorem two_harmonics_sample_differs :
  exists wavebuff,
    read_arguments Example.two_harmonics = Some (Example.request 1 [440; 880]) /\
    generate Sine.sinf (Example.request 1 [440; 880]) = Ok wavebuff /\
    wavebuff !! 15%nat = Some 28833 /\
    Formula.two_harmonics Sine.sinf 440 880 15 = 28835.
Proof.
  set (a := Example.request 1 [440; 880]).
  assert (Ha : read_arguments Example.two_harmonics = Some a) by reflexivity.
  destruct (reference_generates _ a Ha) as [wavebuff Hgen]; [ discriminate | ].
  pose proof (generate_Ok Sine.sinf a (read_arguments_well_formed _ a Ha) wavebuff Hgen)
    as (_ & _ & Hfill).
  change (filetime a * waverate) with 44100 in Hfill.
  destruct (Hfill 15 ltac:(lia)) as (v & Hv & Hs).
  assert (E : sample Sine.sinf a (15 mod waverate) = Ok 28833) by (vm_compute; reflexivity).
  rewrite E in Hs. injection Hs as <-.
  exists wavebuff. split; [ exact Ha | ]. split; [ exact Hgen | ].
  split; [ exact Hv | ]. vm_compute. reflexivity.
Qed.

(** * Further properties of the program *)

Section Further.

Variable sinf : spec_float -> spec_float.
Variable fs : string -> device.

(** X1.  A duration that converts to zero is rejected before anything is
    generated: the run prints the rejection with the duration argument and
    exits with status 0. *)
Theorem zero_duration_is_rejected (argv : list string) (a : arguments) :
  read_arguments argv = Some a ->
  filetime a = 0 ->
  main sinf fs argv =
  Ok {| status := 0;
        stdout := [InvalidArguments; DurationNotPositive; CurrentValue (argv !! 2%nat)];
        output := None |}.
Proof.
  intros Ha Hft. apply (main_rejects sinf fs argv a); [ exact Ha | ].
  unfold validate. rewrite Hft. reflexivity.
Qed.

(** X2.  With fewer than three arguments after the program name the run
    prints the usage text and exits with status 0. *)
Theorem too_few_arguments_print_usage (argv : list string) :
  (length argv <= 3)%nat ->
  main sinf fs argv = Ok {| status := 0; stdout := usage; output := None |}.
Proof.
  intros Hlen. unfold main, read_arguments, argc.
  replace (3 <? Z.of_nat (length argv)) with false by (symmetry; apply Z.ltb_ge; lia).
  reflexivity.
Qed.

(** X3.  A request that passes validation, lasts at most 24347 seconds
    and has bounded sines runs to completion: the buffer holds exactly
    [filetime * 44100] samples and the run ends with status 0. *)
Theorem valid_requests_complete (argv : list string) (a : arguments) :
  read_arguments argv = Some a -> validate argv a = None ->
  filetime a <= 24347 -> sine_bounded sinf a ->
  exists wavebuff out,
    generate sinf a = Ok wavebuff /\
    Z.of_nat (length wavebuff) = filetime a * 44100 /\
    main sinf fs argv = Ok out /\ status out = 0.
Proof.
  intros Ha Hv Hft Hsin.
  pose proof (read_arguments_well_formed argv a Ha) as Hwf.
  destruct (generate_total sinf a Hwf Hsin Hft) as [wavebuff Hgen].
  destruct (generate_Ok sinf a Hwf wavebuff Hgen) as (Hlen & _ & _).
  rewrite waverate_value in Hlen.
  destruct (main_completes sinf fs argv a Ha Hv Hft Hsin) as (out & Hmain & Hst).
  exists wavebuff, out. split; [ exact Hgen | ]. split; [ exact Hlen | ].
  split; [ exact Hmain | exact Hst ].
Qed.

End Further.

(** X1, witness: [wavdump a.wav 0 440]. *)
Lemma zero_duration_is_rejected_witness :
  read_arguments (Example.with_duration "0") = Some (Example.request 0 [440]) /\
  filetime (Example.request 0 [440]) = 0 /\
  main Sine.sinf Example.roomy (Example.with_duration "0") =
  Ok {| status := 0;
        stdout := [InvalidArguments; DurationNotPositive; CurrentValue (Some "0"%string)];
        output := None |}.
Proof.
  split; [ reflexivity | ]. split; [ reflexivity | ].
  exact (zero_duration_is_rejected Sine.sinf Example.roomy (Example.with_duration "0")
           (Example.request 0 [440]) eq_refl eq_refl).
Defined.

(** X2, witness: [wavdump a.wav 1], without a frequency. *)
Lemma too_few_arguments_print_usage_witness :
  (length (firstn 3 (Example.one_frequency "440")) <= 3)%nat /\
  main Sine.sinf Example.roomy (firstn 3 (Example.one_frequency "440")) =
  Ok {| status := 0; stdout := usage; output := None |}.
Proof.
  assert (H : (length (firstn 3 (Example.one_frequency "440")) <= 3)%nat) by (cbn; lia).
  split; [ exact H | ].
  exact (too_few_arguments_print_usage Sine.sinf Example.roomy _ H).
Defined.

(** X3, witness: [wavdump a.wav 1 440 880] with the reference sine. *)
Lemma valid_requests_complete_witness :
  read_arguments Example.two_harmonics = Some (Example.request 1 [440; 880]) /\
  validate Example.two_harmonics (Example.request 1 [440; 880]) = None /\
  filetime (Example.request 1 [440; 880]) <= 24347 /\
  sine_bounded Sine.sinf (Example.request 1 [440; 880]) /\
  exists wavebuff out,
    generate Sine.sinf (Example.request 1 [440; 880]) = Ok wavebuff /\
    Z.of_nat (length wavebuff) = 44100 /\
    main Sine.sinf Example.roomy Example.two_harmonics = Ok out /\ status out = 0.
Proof.
  set (a := Example.request 1 [440; 880]).
  assert (Ha : read_arguments Example.two_harmonics = Some a) by reflexivity.
  assert (Hv : validate Example.two_harmonics a = None) by reflexivity.
  assert (Hft : filetime a <= 24347) by discriminate.
  assert (Hsin : sine_bounded Sine.sinf a).
  { apply sine_bounded_reference. apply (read_arguments_well_formed _ a Ha). }
  split; [ exact Ha | ]. split; [ exact Hv | ]. split; [ exact Hft | ].
  split; [ exact Hsin | ].
  exact (valid_requests_complete Sine.sinf Example.roomy Example.two_harmonics a
           Ha Hv Hft Hsin).
Defined.

(** ** The first sample of every second *)

Section FirstSample.

Variable sinf : spec_float -> spec_float.
Hypothesis sinf_zero : forall s, sinf (S754_zero s) = S754_zero s.

Lemma accumulate_at_zero (freqsize : Z) (freqs : list Z) :
  0 < freqsize -> Forall is_uint freqs ->
  accumulate sinf freqsize 0 freqs 0 = Ok 0.
Proof.
  intros Hpos Hall. induction Hall as [| f freqs Hf _ IH]; [ reflexivity | ].
  cbn [accumulate]. unfold harmonic, amplitude.
  replace (freqsize =? 0) with false by (symmetry; apply Z.eqb_neq; lia).
  cbn [mbind mret result_bind result_ret].
  destruct (angle_at_zero f Hf) as [s ->]. cbn [Float.float_of_double].
  rewrite sinf_zero.
  assert (HA : 0 <= 32765 / freqsize <= 32765).
  { split; [ apply Z.div_pos; lia | apply Z.div_le_upper_bound; nia ]. }
  destruct (zero_or_finite _ _ (float_of_int_le (32765 / freqsize) 32765 ltac:(lia) ltac:(lia)))
    as [[t ->] | (t & m & e & ->)]; cbn [Float.fmul SFmul];
    unfold add_assign; change (Float.float_of_int 0) with (S754_zero false);
    destruct (xorb s t); cbn; exact IH.
Qed.

(** X4.  When [sinf] maps the zeros to themselves, the first sample of
    every second is 0. *)
Theorem seconds_start_at_zero (argv : list string) (a : arguments)
    (wavebuff : list Z) (i : Z) :
  read_arguments argv = Some a ->
  generate sinf a = Ok wavebuff ->
  0 <= i < filetime a ->
  wavebuff !! Z.to_nat (i * 44100) = Some 0.
Proof.
  intros Ha Hgen Hi.
  pose proof (read_arguments_well_formed argv a Ha) as Hwf.
  destruct (generate_Ok sinf a Hwf wavebuff Hgen) as (_ & _ & Hfill).
  destruct Hwf as (_ & Hpos & _ & Hfs).
  rewrite waverate_value in Hfill.
  destruct (Hfill (i * 44100) ltac:(lia)) as (v & Hv & Hs).
  rewrite waverate_value, Z.mod_mul in Hs by lia.
  unfold sample in Hs. rewrite (accumulate_at_zero _ _ Hpos Hfs) in Hs.
  injection Hs as <-. exact Hv.
Qed.

End FirstSample.

(** X4, witness: second 1 of [wavdump a.wav 2 440] starts at sample
    44100. *)
Lemma seconds_start_at_zero_witness :
  (forall s, Sine.sinf (S754_zero s) = S754_zero s) /\
  exists wavebuff,
    generate Sine.sinf (Example.request 2 [440]) = Ok wavebuff /\
    0 <= 1 < filetime (Example.request 2 [440]) /\
    wavebuff !! Z.to_nat (1 * 44100) = Some 0.
Proof.
  assert (Hz : forall s, Sine.sinf (S754_zero s) = S754_zero s) by reflexivity.
  set (a := Example.request 2 [440]).
  assert (Ha : read_arguments (Example.with_duration "2") = Some a) by reflexivity.
  destruct (reference_generates _ a Ha) as [wavebuff Hgen]; [ discriminate | ].
  assert (Hi : 0 <= 1 < filetime a) by (change (filetime a) with 2; lia).
  split; [ exact Hz | ]. exists wavebuff. split; [ exact Hgen | ]. split; [ exact Hi | ].
  exact (seconds_start_at_zero Sine.sinf Hz (Example.with_duration "2") a wavebuff 1
           Ha Hgen Hi).
Defined.

(** ** The samples, read back *)

Lemma drop_of_shorts (n : nat) (buf : list Z) :
  drop (2 * n) (Memory.of_shorts buf) = Memory.of_shorts (drop n buf).
Proof.
  revert buf. induction n as [| n IH]; intros buf; [ reflexivity | ].
  destruct buf as [| v buf]; [ reflexivity | ].
  replace (2 * S n)%nat with (S (S (2 * n))) by lia. cbn [drop]. apply IH.
Qed.

Lemma field_of_samples (n : nat) (wavesize v : Z) (wavebuff : list Z) :
  wavebuff !! n = Some v ->
  Wave.field (44 + 2 * n) 2 (image wavesize wavebuff) = Memory.le_bytes 2 v.
Proof.
  intros Hv. unfold Wave.field.
  rewrite image_headers, drop_app_add' by reflexivity.
  rewrite drop_of_shorts, (drop_S _ _ _ Hv). reflexivity.
Qed.

Section SampleBytes.

Variable sinf : spec_float -> spec_float.
Variable fs : string -> device.

(** X5.  In a file the device took whole, sample [n] lies at offset
    [44 + 2 n] as two bytes, least significant first, in two's
    complement: read as an unsigned number they give the sample modulo
    65536. *)
Theorem samples_are_little_endian (argv : list string) (a : arguments)
    (wavebuff : list Z) (out : outcome) (file : list byte) (n : nat) (v : Z) :
  read_arguments argv = Some a ->
  generate sinf a = Ok wavebuff ->
  main sinf fs argv = Ok out ->
  output out = Some file ->
  length file = (44 + 2 * length wavebuff)%nat ->
  wavebuff !! n = Some v ->
  Wave.field (44 + 2 * n) 2 file = Memory.le_bytes 2 v /\
  Wave.le_value (Wave.field (44 + 2 * n) 2 file) = v mod 65536.
Proof.
  intros Ha Hgen Hmain Hout Hlen Hv.
  destruct (main_output sinf fs argv out file Hmain Hout)
    as (a' & wavebuff' & Ha' & _ & Hgen' & ->).
  rewrite Ha in Ha'. injection Ha' as <-.
  rewrite Hgen in Hgen'. injection Hgen' as <-.
  rewrite length_take, length_image in Hlen.
  rewrite take_ge by (rewrite length_image; lia).
  rewrite (field_of_samples n _ v wavebuff Hv).
  split; [ reflexivity | ]. rewrite le_value_le_bytes. reflexivity.
Qed.

End SampleBytes.

(** X5, witness: sample 15 of [wavdump a.wav 1 440]. *)
Lemma samples_are_little_endian_witness :
  exists wavebuff out file v,
    read_arguments (Example.one_frequency "440") = Some (Example.request 1 [440]) /\
    generate Sine.sinf (Example.request 1 [440]) = Ok wavebuff /\
    main Sine.sinf Example.roomy (Example.one_frequency "440") = Ok out /\
    output out = Some file /\
    length file = (44 + 2 * length wavebuff)%nat /\
    wavebuff !! 15%nat = Some v /\
    Wave.le_value (Wave.field (44 + 2 * 15) 2 file) = v mod 65536.
Proof.
  destruct one_second_run as (wavebuff & Hgen & Hlen & Hmain & Himg).
  assert (H15 : (15 < length wavebuff)%nat) by lia.
  destruct (lookup_lt_is_Some_2 _ _ H15) as [v Hv].
  assert (Hfile : length (image (wavesize 1) wavebuff) = (44 + 2 * length wavebuff)%nat)
    by apply length_image.
  exists wavebuff. do 2 eexists. exists v.
  split; [ reflexivity | ]. split; [ exact Hgen | ]. split; [ exact Hmain | ].
  split; [ reflexivity | ]. split; [ exact Hfile | ]. split; [ exact Hv | ].
  exact (proj2 (samples_are_little_endian Sine.sinf Example.roomy
                  (Example.one_frequency "440") _ wavebuff _ _ 15 v
                  eq_refl Hgen Hmain eq_refl Hfile Hv)).
Defined.

(** ** How a run can end *)

Lemma write_out_Ok (d : device) (name : string) (wavesize : Z)
    (wavebuff : list Z) (out : outcome) :
  write_out d name wavesize wavebuff = Ok out ->
  status out = 0 /\
  (stdout out = [] /\ (exists file, output out = Some file) \/
   stdout out = [CouldNotOpen name; Reason; Aborting] /\ output out = None).
Proof.
  unfold write_out. destruct (fopen d) as [ofile |].
  - intros H.
    apply bind_Ok in H as ([n1 f1] & _ & H).
    apply bind_Ok in H as ([n2 f2] & _ & H).
    apply bind_Ok in H as ([n3 f3] & _ & H).
    apply bind_Ok in H as ([n4 f4] & _ & H).
    injection H as <-. split; [ reflexivity | ]. left. split; [ reflexivity | ].
    eexists. reflexivity.
  - intros [= <-]. split; [ reflexivity | ]. right. split; reflexivity.
Qed.

Lemma validate_Some (argv : list string) (a : arguments) (msgs : list printed) :
  validate argv a = Some msgs ->
  exists p, msgs = [InvalidArguments; DurationNotPositive; CurrentValue p] \/
            msgs = [InvalidArguments; FrequencyOutsideRange 20 22050; CurrentValue p].
Proof.
  unfold validate. destruct (filetime a =? 0).
  - intros [= <-]. eexists. left. reflexivity.
  - destruct (first_rejected 0 (freqbuff a)); [ | discriminate ].
    intros [= <-]. eexists. right. reflexivity.
Qed.

Section Endings.

Variable sinf : spec_float -> spec_float.
Variable fs : string -> device.

(** X6.  Every run that ends exits with status 0, and it either prints
    something and leaves no file or prints nothing and leaves a file: the
    usage text, a rejection and a failure to create the file are told
    apart from success by the printed lines alone. *)
Theorem every_run_exits_zero (argv : list string) (out : outcome) :
  main sinf fs argv = Ok out ->
  status out = 0 /\
  (stdout out = [] <-> exists file, output out = Some file).
Proof.
  unfold main. destruct (read_arguments argv) as [a |].
  - destruct (validate argv a) as [msgs |] eqn:Hv.
    + intros [= <-]. cbn [status stdout output]. split; [ reflexivity | ].
      apply validate_Some in Hv as [p [-> | ->]];
        (split; [ discriminate | intros [file [=]] ]).
    + intros H. apply bind_Ok in H as (wavebuff & _ & H).
      apply write_out_Ok in H as [Hst [[Hp [file Hf]] | [Hp Hf]]].
      * split; [ exact Hst | ]. split; [ exists file; exact Hf | intros _; exact Hp ].
      * split; [ exact Hst | ]. rewrite Hp, Hf.
        split; [ discriminate | intros [file [=]] ].
  - intros [= <-]. cbn [status stdout output]. split; [ reflexivity | ].
    split; [ discriminate | intros [file [=]] ].
Qed.

(** ** Durations the buffer cannot hold *)

(** X7.  Every request that passes validation and lasts more than 24347
    seconds has undefined behaviour: 88200 bytes a second no longer fit
    [int], so the block is null or too small for the loops that fill
    it. *)
Theorem long_durations_are_undefined (argv : list string) (a : arguments) :
  read_arguments argv = Some a -> validate argv a = None ->
  24347 < filetime a ->
  exists u, main sinf fs argv = UB u.
Proof.
  intros Ha Hv Hft.
  rewrite (main_generates sinf fs argv a Ha Hv).
  destruct (generate sinf a) as [wavebuff | u] eqn:Hgen; [ exfalso | exists u; reflexivity ].
  destruct (generate_Ok sinf a (read_arguments_well_formed argv a Ha) wavebuff Hgen)
    as (Hlen & Hws & _).
  pose proof (wavesize_int (filetime a)) as Hmax.
  rewrite waverate_value in Hlen. unfold Int.INT_MAX in Hmax. lia.
Qed.

(** ** How loud the signal gets *)

(** X8.  When [sinf] stays within [-1, 1], every sample lies within
    [freqsize * (32765 / freqsize)] of zero, which is at most 32765: the
    integer division of the amplitude by the number of harmonics is paid
    for in loudness, never in overflow. *)
Theorem samples_within_amplitude (argv : list string) (a : arguments)
    (wavebuff : list Z) :
  read_arguments argv = Some a -> sine_bounded sinf a ->
  generate sinf a = Ok wavebuff ->
  freqsize a * (32765 / freqsize a) <= 32765 /\
  Forall (fun v => - (freqsize a * (32765 / freqsize a)) <= v
                   <= freqsize a * (32765 / freqsize a)) wavebuff.
Proof.
  intros Ha Hsin Hgen. pose proof (read_arguments_well_formed argv a Ha) as Hwf.
  destruct (generate_Ok sinf a Hwf wavebuff Hgen) as (Hl & _ & Hfill).
  destruct Hwf as (Hlen & Hpos & Hft & Hfs).
  destruct (amplitude_bounds a Hpos) as [HA HfA].
  split; [ exact HfA | ].
  pose proof waverate_value as Hw.
  apply Forall_lookup. intros n v Hv.
  pose proof (lookup_lt_Some _ _ _ Hv) as Hn.
  destruct (Hfill (Z.of_nat n) ltac:(lia)) as (v' & Hv' & Hs).
  rewrite Nat2Z.id, Hv in Hv'. injection Hv' as <-.
  destruct (accumulate_le sinf a (Z.of_nat n mod waverate) (freqbuff a) Hpos)
    with (s := 0) (n := 0) as (z & Hz & Hzr).
  - apply Forall_forall. intros f Hf. apply Hsin; [ apply list_elem_of_In; exact Hf | ].
    apply Z.mod_pos_bound. lia.
  - lia.
  - unfold Int.SHRT_MAX. lia.
  - unfold sample in Hs. rewrite Hs in Hz. injection Hz as <-. lia.
Qed.

End Endings.

(** X6, witness: [wavdump a.wav 1 440]. *)
Lemma every_run_exits_zero_witness :
  exists out,
    main Sine.sinf Example.roomy (Example.one_frequency "440") = Ok out /\
    status out = 0 /\
    (stdout out = [] <-> exists file, output out = Some file).
Proof.
  destruct one_second_run as (wavebuff & _ & _ & Hmain & _).
  eexists. split; [ exact Hmain | ].
  exact (every_run_exits_zero Sine.sinf Example.roomy _ _ Hmain).
Defined.

(** X7, witness: [wavdump a.wav 24348 440]. *)
Lemma long_durations_are_undefined_witness :
  read_arguments (Example.with_duration "24348") = Some (Example.request 24348 [440]) /\
  validate (Example.with_duration "24348") (Example.request 24348 [440]) = None /\
  24347 < filetime (Example.request 24348 [440]) /\
  exists u, main Sine.sinf Example.roomy (Example.with_duration "24348") = UB u.
Proof.
  split; [ reflexivity | ]. split; [ reflexivity | ]. split; [ reflexivity | ].
  exact (long_durations_are_undefined Sine.sinf Example.roomy
           (Example.with_duration "24348") (Example.request 24348 [440])
           eq_refl eq_refl eq_refl).
Defined.

(** X8, witness: [wavdump a.wav 1 440 880]; the bound is 2 x 16382. *)
Lemma samples_within_amplitude_witness :
  exists wavebuff,
    read_arguments Example.two_harmonics = Some (Example.request 1 [440; 880]) /\
    sine_bounded Sine.sinf (Example.request 1 [440; 880]) /\
    generate Sine.sinf (Example.request 1 [440; 880]) = Ok wavebuff /\
    Forall (fun v => - 32764 <= v <= 32764) wavebuff.
Proof.
  set (a := Example.request 1 [440; 880]).
  assert (Ha : read_arguments Example.two_harmonics = Some a) by reflexivity.
  assert (Hsin : sine_bounded Sine.sinf a).
  { apply sine_bounded_reference. apply (read_arguments_well_formed _ a Ha). }
  destruct (reference_generates _ a Ha) as [wavebuff Hgen]; [ discriminate | ].
  exists wavebuff. split; [ exact Ha | ]. split; [ exact Hsin | ]. split; [ exact Hgen | ].
  exact (proj2 (samples_within_amplitude Sine.sinf Example.two_harmonics a wavebuff
                  Ha Hsin Hgen)).
Defined.

Lemma accumulate_silent (sinf : spec_float -> spec_float) (freqsize j : Z)
    (freqs : list Z) (v : Z) :
  32765 < freqsize ->
  accumulate sinf freqsize j freqs 0 = Ok v -> v = 0.
Proof.
  intros Hbig. induction freqs as [| f freqs IH]; cbn [accumulate].
  - intros [= <-]. reflexivity.
  - unfold harmonic, amplitude.
    replace (freqsize =? 0) with false by (symmetry; apply Z.eqb_neq; lia).
    rewrite Z.div_small by lia.
    change (Float.float_of_int 0) with (S754_zero false).
    cbn [mbind mret result_bind result_ret].
    destruct (sinf (Float.float_of_double (angle f j))) as [s | s | | s m e];
      cbn [Float.fmul SFmul]; unfold add_assign;
      change (Float.float_of_int 0) with (S754_zero false);
      try destruct s; cbn; (exact IH || discriminate).
Qed.

Section Silence.

Variable sinf : spec_float -> spec_float.

(** X9.  With more than 32765 frequencies the amplitude [32765 / freqsize]
    is 0, and every sample of a signal the program generates is 0,
    whatever [sinf] returns. *)
Theorem many_frequencies_are_silent (argv : list string) (a : arguments)
    (wavebuff : list Z) :
  read_arguments argv = Some a -> 32765 < freqsize a ->
  generate sinf a = Ok wavebuff ->
  Forall (fun v => v = 0) wavebuff.
Proof.
  intros Ha Hbig Hgen.
  destruct (generate_Ok sinf a (read_arguments_well_formed argv a Ha) wavebuff Hgen)
    as (Hl & _ & Hfill).
  pose proof waverate_value as Hw.
  apply Forall_lookup. intros n v Hv.
  pose proof (lookup_lt_Some _ _ _ Hv) as Hn.
  destruct (Hfill (Z.of_nat n) ltac:(lia)) as (v' & Hv' & Hs).
  rewrite Nat2Z.id, Hv in Hv'. injection Hv' as <-.
  exact (accumulate_silent sinf _ _ _ v Hbig Hs).
Qed.

End Silence.

(** [wavdump a.wav 1] followed by 32766 times [440]. *)
Lemma read_many_frequencies :
  read_arguments Example.many_frequencies =
  Some (Example.request 1 (repeat 440 (Z.to_nat 32766))).
Proof.
  unfold read_arguments, Example.many_frequencies, Example.request, argc, arg.
  rewrite length_app, repeat_length.
  change (skipn 3 (_ ++ ?l)) with l.
  rewrite map_repeat. reflexivity.
Qed.

(** X9, witness: [wavdump a.wav 1 440 ... 440] with 32766 frequencies. *)
Lemma many_frequencies_are_silent_witness :
  exists wavebuff,
    read_arguments Example.many_frequencies =
      Some (Example.request 1 (repeat 440 (Z.to_nat 32766))) /\
    32765 < freqsize (Example.request 1 (repeat 440 (Z.to_nat 32766))) /\
    generate Sine.sinf (Example.request 1 (repeat 440 (Z.to_nat 32766))) = Ok wavebuff /\
    Forall (fun v => v = 0) wavebuff.
Proof.
  pose proof read_many_frequencies as Ha.
  assert (Hbig : 32765 < freqsize (Example.request 1 (repeat 440 (Z.to_nat 32766)))).
  { unfold Example.request. cbn [freqsize]. rewrite repeat_length. lia. }
  destruct (reference_generates _ _ Ha) as [wavebuff Hgen].
  { unfold Example.request. cbn [filetime]. lia. }
  exists wavebuff. split; [ exact Ha | ]. split; [ exact Hbig | ]. split; [ exact Hgen | ].
  exact (many_frequencies_are_silent Sine.sinf Example.many_frequencies _ wavebuff
           Ha Hbig Hgen).
Defined.

(** ** The duration a file announces *)

Section Announced.

Variable sinf : spec_float -> spec_float.
Variable fs : string -> device.

(** X10.  The headers announce the duration asked for: the size of the
    data chunk is [filetime] times the byte rate, 88200, and a file written
    whole is [44 + 88200 * filetime] bytes long. *)
Theorem header_announces_duration (argv : list string) (a : arguments)
    (wavebuff : list Z) (out : outcome) (file : list byte) :
  read_arguments argv = Some a ->
  generate sinf a = Ok wavebuff ->
  main sinf fs argv = Ok out ->
  output out = Some file ->
  (44 <= length file)%nat ->
  exists frmt data,
    Wave.read_frmthead file = Some frmt /\
    Wave.read_datahead file = Some data /\
    byterate frmt = 88200 /\
    chunk2size data = filetime a * byterate frmt /\
    (length file = (44 + 2 * length wavebuff)%nat ->
     Z.of_nat (length file) = 44 + 88200 * filetime a).
Proof.
  intros Ha Hgen Hmain Hout Hlen.
  destruct (main_output sinf fs argv out file Hmain Hout)
    as (a' & wavebuff' & Ha' & _ & Hgen' & ->).
  rewrite Ha in Ha'. injection Ha' as <-.
  rewrite Hgen in Hgen'. injection Hgen' as <-.
  destruct (generate_Ok sinf a (read_arguments_well_formed argv a Ha) wavebuff Hgen)
    as (Hl & Hws & _).
  pose proof (wavesize_int (filetime a)) as Hmax.
  rewrite waverate_value in Hl.
  unfold Wave.read_frmthead, Wave.read_datahead.
  replace (36 <=? _)%nat with true by (symmetry; apply Nat.leb_le; lia).
  replace (44 <=? _)%nat with true by (symmetry; apply Nat.leb_le; lia).
  do 2 eexists. split; [ reflexivity | ]. split; [ reflexivity | ].
  cbn [byterate chunk2size].
  rewrite !field_of_file by (lia || exact Hlen).
  rewrite chunk2size_small by lia.
  split; [ reflexivity | ].
  change (Wave.le_value (Wave.field 28 4 (headers (wavesize (filetime a))))) with 88200.
  split; lia.
Qed.

(** ** Runs of different lengths *)

(** X11.  The duration only sets the length of the signal: of two runs
    with the same frequencies, the longer one begins with the samples of
    the shorter. *)
Theorem longer_run_extends_shorter (argv argv' : list string) (a a' : arguments)
    (wavebuff wavebuff' : list Z) :
  read_arguments argv = Some a -> read_arguments argv' = Some a' ->
  freqbuff a = freqbuff a' -> filetime a <= filetime a' ->
  generate sinf a = Ok wavebuff -> generate sinf a' = Ok wavebuff' ->
  wavebuff = take (length wavebuff) wavebuff'.
Proof.
  intros Ha Ha' Hfreq Hft Hgen Hgen'.
  pose proof (read_arguments_well_formed argv a Ha) as Hwf.
  pose proof (read_arguments_well_formed argv' a' Ha') as Hwf'.
  destruct (generate_Ok sinf a Hwf wavebuff Hgen) as (Hl & _ & Hfill).
  destruct (generate_Ok sinf a' Hwf' wavebuff' Hgen') as (Hl' & _ & Hfill').
  destruct Hwf as (Hlen & _ & [Hft0 _] & _). destruct Hwf' as (Hlen' & _).
  pose proof waverate_value as Hw.
  assert (Hsame : forall j, sample sinf a j = sample sinf a' j).
  { intros j. unfold sample. rewrite Hlen, Hlen', Hfreq. reflexivity. }
  apply list_eq. intros n.
  destruct (Nat.lt_ge_cases n (length wavebuff)) as [Hn | Hn].
  - rewrite lookup_take_lt by exact Hn.
    destruct (Hfill (Z.of_nat n) ltac:(lia)) as (v & Hv & Hs).
    destruct (Hfill' (Z.of_nat n) ltac:(nia)) as (v' & Hv' & Hs').
    rewrite Nat2Z.id in Hv, Hv'. rewrite Hsame, Hs' in Hs. injection Hs as ->.
    rewrite Hv, Hv'. reflexivity.
  - rewrite lookup_take_ge by exact Hn. apply lookup_ge_None_2. exact Hn.
Qed.

End Announced.

(** X10, witness: [wavdump a.wav 1 440]. *)
Lemma header_announces_duration_witness :
  exists wavebuff out file,
    read_arguments (Example.one_frequency "440") = Some (Example.request 1 [440]) /\
    generate Sine.sinf (Example.request 1 [440]) = Ok wavebuff /\
    main Sine.sinf Example.roomy (Example.one_frequency "440") = Ok out /\
    output out = Some file /\
    (44 <= length file)%nat /\
    exists frmt data,
      Wave.read_frmthead file = Some frmt /\
      Wave.read_datahead file = Some data /\
      chunk2size data = 1 * byterate frmt /\
      Z.of_nat (length file) = 44 + 88200 * 1.
Proof.
  destruct one_second_run as (wavebuff & Hgen & Hlen & Hmain & Himg).
  exists wavebuff. do 2 eexists.
  split; [ reflexivity | ]. split; [ exact Hgen | ]. split; [ exact Hmain | ].
  split; [ reflexivity | ].
  assert (H44 : (44 <= length (image (wavesize 1) wavebuff))%nat) by lia.
  split; [ exact H44 | ].
  destruct (header_announces_duration Sine.sinf Example.roomy (Example.one_frequency "440")
              _ wavebuff _ _ eq_refl Hgen Hmain eq_refl H44)
    as (frmt & data & Hf & Hd & _ & Hsize & Hfile).
  exists frmt, data. split; [ exact Hf | ]. split; [ exact Hd | ]. split; [ exact Hsize | ].
  apply Hfile. apply length_image.
Defined.

(** X11, witness: [wavdump a.wav 1 440] and [wavdump a.wav 2 440]. *)
Lemma longer_run_extends_shorter_witness :
  exists wavebuff wavebuff',
    read_arguments (Example.with_duration "1") = Some (Example.request 1 [440]) /\
    read_arguments (Example.with_duration "2") = Some (Example.request 2 [440]) /\
    generate Sine.sinf (Example.request 1 [440]) = Ok wavebuff /\
    generate Sine.sinf (Example.request 2 [440]) = Ok wavebuff' /\
    wavebuff = take (length wavebuff) wavebuff'.
Proof.
  set (a := Example.request 1 [440]). set (a' := Example.request 2 [440]).
  assert (Ha : read_arguments (Example.with_duration "1") = Some a) by reflexivity.
  assert (Ha' : read_arguments (Example.with_duration "2") = Some a') by reflexivity.
  assert (Hfreq : freqbuff a = freqbuff a') by reflexivity.
  assert (Hft : filetime a <= filetime a') by discriminate.
  destruct (reference_generates _ a Ha) as [wavebuff Hgen]; [ discriminate | ].
  destruct (reference_generates _ a' Ha') as [wavebuff' Hgen']; [ discriminate | ].
  exists wavebuff, wavebuff'.
  split; [ exact Ha | ]. split; [ exact Ha' | ]. split; [ exact Hgen | ].
  split; [ exact Hgen' | ].
  exact (longer_run_extends_shorter Sine.sinf _ _ a a' wavebuff wavebuff'
           Ha Ha' Hfreq Hft Hgen Hgen').
Defined.

(** ** What the command line is read as *)

Lemma atol_cases (s : string) :
  Libc.atol s =
  match Libc.skip_space s with
  | String x r =>
      if Ascii.eqb x "-" then Libc.clamp_long (- Libc.digits 0 r)
      else if Ascii.eqb x "+" then Libc.clamp_long (Libc.digits 0 r)
      else Libc.clamp_long (Libc.digits 0 (String x r))
  | EmptyString => Libc.clamp_long (Libc.digits 0 EmptyString)
  end.
Proof.
  unfold Libc.atol. destruct (Libc.skip_space s) as [| x r]; [ reflexivity | ].
  destruct x as [[] [] [] [] [] [] [] []]; reflexivity.
Qed.

Lemma skip_space_append (s t : string) (c : ascii) :
  Libc.isspace c = false ->
  Libc.skip_space (s ++ String c t)%string = (Libc.skip_space s ++ String c t)%string.
Proof.
  intros Hc. induction s as [| x s IH]; cbn [append Libc.skip_space].
  - rewrite Hc. reflexivity.
  - destruct (Libc.isspace x); [ exact IH | reflexivity ].
Qed.

Lemma digits_append (acc : Z) (r t : string) (c : ascii) :
  Libc.digit_of c = None ->
  Libc.digits acc (r ++ String c t)%string = Libc.digits acc r.
Proof.
  intros Hc. revert acc. induction r as [| x r IH]; intros acc; cbn [append Libc.digits].
  - rewrite Hc. reflexivity.
  - destruct (Libc.digit_of x); [ apply IH | reflexivity ].
Qed.

Lemma atol_append (s t : string) (c : ascii) :
  Libc.digit_of c = None -> Libc.isspace c = false ->
  c <> "+"%char -> c <> "-"%char ->
  Libc.atol (s ++ String c t)%string = Libc.atol s.
Proof.
  intros Hd Hs Hplus Hminus. rewrite !atol_cases, skip_space_append by exact Hs.
  destruct (Libc.skip_space s) as [| x r].
  - cbn [append]. apply Ascii.eqb_neq in Hplus, Hminus. rewrite Hplus, Hminus.
    cbn [Libc.digits]. rewrite Hd. reflexivity.
  - cbn [append]. rewrite (digits_append 0 r t c Hd).
    replace (Libc.digits 0 (String x (r ++ String c t)%string))
      with (Libc.digits 0 (String x r))
      by (symmetry; apply (digits_append 0 (String x r) t c Hd)).
    reflexivity.
Qed.

Lemma nth_middle_eq {A B : Type} (f : A -> B) (n : nat) (l p : list A) (x y d : A) :
  f x = f y -> f (nth n (l ++ x :: p) d) = f (nth n (l ++ y :: p) d).
Proof.
  intros Hxy. revert n. induction l as [| z l IH]; intros [| n]; cbn; auto.
Qed.

Lemma map_skipn_middle {A B : Type} (f : A -> B) (n : nat) (l p : list A) (x y : A) :
  f x = f y -> map f (skipn n (l ++ x :: p)) = map f (skipn n (l ++ y :: p)).
Proof.
  intros Hxy. revert n. induction l as [| z l IH]; intros [| n]; cbn [app skipn map].
  - rewrite Hxy. reflexivity.
  - reflexivity.
  - f_equal. apply (IH 0%nat).
  - apply IH.
Qed.

(** X12.  What follows the number in the duration or in a frequency is
    not looked at: appending text that starts with a character other than
    a digit, white space or a sign to such an argument leaves the request
    unchanged, so [440Hz] is read as [440]. *)
Theorem text_after_number_is_ignored (pre post : list string) (s t : string)
    (c : ascii) :
  (2 <= length pre)%nat ->
  Libc.digit_of c = None -> Libc.isspace c = false ->
  c <> "+"%char -> c <> "-"%char ->
  read_arguments (pre ++ (s ++ String c t)%string :: post) =
  read_arguments (pre ++ s :: post).
Proof.
  intros Hpre Hd Hs Hplus Hminus.
  pose proof (atol_append s t c Hd Hs Hplus Hminus) as Hatol.
  unfold read_arguments, argc, arg. rewrite !length_app. cbn [length].
  destruct (3 <? _); [ | reflexivity ].
  change (Z.to_nat 1) with 1%nat. change (Z.to_nat 2) with 2%nat.
  rewrite (app_nth1 pre (_ :: post) EmptyString (n := 1%nat)) by lia.
  rewrite (app_nth1 pre (s :: post) EmptyString (n := 1%nat)) by lia.
  rewrite (nth_middle_eq Libc.atol 2 pre post _ s EmptyString Hatol).
  rewrite (map_skipn_middle (fun s => Int.to_uint (Libc.atol s)) 3 pre post
             (s ++ String c t)%string s) by (cbv beta; rewrite Hatol; reflexivity).
  reflexivity.
Qed.

(** X13.  Validation looks at the numbers modulo 2^32: it passes exactly
    when the duration is not a multiple of 2^32 and every frequency,
    reduced modulo 2^32, lies between 20 and 22050. *)
Theorem validation_passes_exactly (argv : list string) (a : arguments) :
  read_arguments argv = Some a ->
  validate argv a = None <->
  Libc.atol (arg argv 2) mod 2 ^ 32 <> 0 /\
  Forall (fun s => 20 <= Libc.atol s mod 2 ^ 32 <= 22050) (skipn 3 argv).
Proof.
  intros Ha. apply read_arguments_Some in Ha as [Hargc ->].
  unfold validate. cbn [filetime freqbuff]. unfold Int.to_uint, Int.UINT_MODULUS.
  destruct (Z.eqb_spec (Libc.atol (arg argv 2) mod 2 ^ 32) 0) as [E | E].
  - split; [ discriminate | intros [H _]; contradiction ].
  - destruct (first_rejected 0 _) as [i |] eqn:Hr.
    + split; [ discriminate | ]. intros [_ HF].
      apply (List.Forall_map (fun s => Libc.atol s mod 2 ^ 32)
               (fun f => 20 <= f <= 22050)) in HF.
      apply (first_rejected_None 0) in HF. congruence.
    + split; [ | reflexivity ]. intros _. split; [ exact E | ].
      apply first_rejected_None in Hr.
      apply (List.Forall_map (fun s => Libc.atol s mod 2 ^ 32)
               (fun f => 20 <= f <= 22050)). exact Hr.
Qed.

(** X12, witness: [wavdump a.wav 1 440Hz]. *)
Lemma text_after_number_is_ignored_witness :
  (2 <= length (firstn 3 (Example.one_frequency "440")))%nat /\
  Libc.digit_of "H" = None /\ Libc.isspace "H" = false /\
  "H"%char <> "+"%char /\ "H"%char <> "-"%char /\
  read_arguments (Example.one_frequency "440Hz") =
  read_arguments (Example.one_frequency "440").
Proof.
  assert (Hpre : (2 <= length (firstn 3 (Example.one_frequency "440")))%nat)
    by (cbn; lia).
  assert (Hplus : "H"%char <> "+"%char) by discriminate.
  assert (Hminus : "H"%char <> "-"%char) by discriminate.
  split; [ exact Hpre | ]. split; [ reflexivity | ]. split; [ reflexivity | ].
  split; [ exact Hplus | ]. split; [ exact Hminus | ].
  exact (text_after_number_is_ignored (firstn 3 (Example.one_frequency "440")) []
           "440" "z" "H" Hpre eq_refl eq_refl Hplus Hminus).
Defined.

(** X13, witness: [wavdump a.wav 1 4294967736], read as 440 Hz. *)
Lemma validation_passes_exactly_witness :
  read_arguments (Example.one_frequency "4294967736") = Some (Example.request 1 [440]) /\
  (validate (Example.one_frequency "4294967736") (Example.request 1 [440]) = None <->
   Libc.atol (arg (Example.one_frequency "4294967736") 2) mod 2 ^ 32 <> 0 /\
   Forall (fun s => 20 <= Libc.atol s mod 2 ^ 32 <= 22050)
          (skipn 3 (Example.one_frequency "4294967736"))).
Proof.
  split; [ reflexivity | ].
  exact (validation_passes_exactly (Example.one_frequency "4294967736")
           (Example.request 1 [440]) eq_refl).
Defined.

(** ** The frequency a rejection is about *)

Lemma first_rejected_least (i k : Z) (fs : list Z) :
  first_rejected k fs = Some i ->
  forall m f, k <= m < i -> fs !! Z.to_nat (m - k) = Some f -> out_of_range f = false.
Proof.
  revert k. induction fs as [| g fs IH]; intros k; cbn [first_rejected]; [ discriminate | ].
  destruct (out_of_range g) eqn:Hg.
  - intros [= <-] m f Hm. lia.
  - intros H m f Hm Hf. destruct (Z.eq_dec m k) as [-> | Hne].
    + rewrite Z.sub_diag in Hf. injection Hf as <-. exact Hg.
    + apply (IH (k + 1) H m f); [ lia | ].
      replace (Z.to_nat (m - k)) with (S (Z.to_nat (m - (k + 1)))) in Hf by lia. exact Hf.
Qed.

Section Offender.

Variable sinf : spec_float -> spec_float.
Variable fs : string -> device.

(** X14.  When the duration is accepted and some frequency is out of
    range, the run is rejected at the first such frequency in command-line
    order: the frequencies before it are in range, nothing is generated,
    and the line printed shows [argv[5 + i]] for its index [i]. *)
Theorem first_offender_is_reported (argv : list string) (a : arguments) :
  read_arguments argv = Some a -> filetime a <> 0 ->
  Exists (fun f => f < 20 \/ 22050 < f) (freqbuff a) ->
  exists i f,
    0 <= i /\ freqbuff a !! Z.to_nat i = Some f /\ (f < 20 \/ 22050 < f) /\
    (forall m g, 0 <= m < i -> freqbuff a !! Z.to_nat m = Some g -> 20 <= g <= 22050) /\
    main sinf fs argv =
    Ok {| status := 0;
          stdout := [InvalidArguments; FrequencyOutsideRange 20 22050;
                     CurrentValue (argv !! Z.to_nat (5 + i))];
          output := None |}.
Proof.
  intros Ha Hft Hex.
  destruct (first_rejected 0 (freqbuff a)) as [i |] eqn:Hr.
  - destruct (first_rejected_Some i 0 _ Hr) as (Hi & f & Hf & Hout).
    rewrite Z.sub_0_r in Hf.
    exists i, f. split; [ lia | ]. split; [ exact Hf | ]. split.
    { unfold out_of_range, MIN_FREQ, MAX_FREQ in Hout.
      apply orb_true_iff in Hout as [H | H]; apply Z.ltb_lt in H; lia. }
    split.
    { intros m g Hm Hg. apply out_of_range_false.
      apply (first_rejected_least i 0 _ Hr m g Hm). rewrite Z.sub_0_r. exact Hg. }
    apply (main_rejects sinf fs argv a); [ exact Ha | ].
    unfold validate. rewrite Hr.
    replace (filetime a =? 0) with false by (symmetry; apply Z.eqb_neq; exact Hft).
    reflexivity.
  - exfalso. apply first_rejected_None in Hr.
    apply Exists_exists in Hex as (f & Hin & Hf).
    rewrite Forall_forall in Hr. specialize (Hr f Hin).
    unfold MIN_FREQ, MAX_FREQ in Hr. lia.
Qed.

End Offender.

(** X14, witness: [wavdump a.wav 1 440 880 5]. *)
Lemma first_offender_is_reported_witness :
  read_arguments (Example.two_harmonics ++ ["5"%string]) =
    Some (Example.request 1 [440; 880; 5]) /\
  filetime (Example.request 1 [440; 880; 5]) <> 0 /\
  Exists (fun f => f < 20 \/ 22050 < f) (freqbuff (Example.request 1 [440; 880; 5])) /\
  exists i f,
    0 <= i /\ freqbuff (Example.request 1 [440; 880; 5]) !! Z.to_nat i = Some f /\
    (f < 20 \/ 22050 < f) /\
    main Sine.sinf Example.roomy (Example.two_harmonics ++ ["5"%string]) =
    Ok {| status := 0;
          stdout := [InvalidArguments; FrequencyOutsideRange 20 22050;
                     CurrentValue ((Example.two_harmonics ++ ["5"%string])
                                     !! Z.to_nat (5 + i))];
          output := None |}.
Proof.
  assert (Hft : filetime (Example.request 1 [440; 880; 5]) <> 0) by discriminate.
  assert (Hex : Exists (fun f => f < 20 \/ 22050 < f)
                  (freqbuff (Example.request 1 [440; 880; 5]))).
  { do 2 apply Exists_cons_tl. apply Exists_cons_hd. left. reflexivity. }
  split; [ reflexivity | ]. split; [ exact Hft | ]. split; [ exact Hex | ].
  destruct (first_offender_is_reported Sine.sinf Example.roomy
              (Example.two_harmonics ++ ["5"%string]) (Example.request 1 [440; 880; 5])
              eq_refl Hft Hex) as (i & f & Hi & Hf & Hout & _ & Hmain).
  exists i, f. split; [ exact Hi | ]. split; [ exact Hf | ]. split; [ exact Hout | exact Hmain ].
Defined.

(** ** A single frequency *)

Lemma add_assign_to_zero (h : spec_float) : add_assign 0 h = Float.to_short h.
Proof.
  unfold add_assign. change (Float.float_of_int 0) with (S754_zero false).
  destruct h as [[] | [] | | s m e]; reflexivity.
Qed.

Section Single.

Variable sinf : spec_float -> spec_float.

(** X15.  With a single frequency, clearing the cell and adding the one
    harmonic changes nothing: each sample is [sinf] of its angle times
    32765, rounded to single precision and truncated toward zero. *)
Theorem single_frequency_sample (argv : list string) (a : arguments)
    (wavebuff : list Z) (f n v : Z) :
  read_arguments argv = Some a -> freqbuff a = [f] ->
  generate sinf a = Ok wavebuff ->
  0 <= n -> wavebuff !! Z.to_nat n = Some v ->
  Float.to_short
    (Float.fmul (sinf (Float.float_of_double (angle f (n mod 44100))))
                (Float.float_of_int 32765)) = Ok v.
Proof.
  intros Ha Hfreq Hgen Hn Hv.
  pose proof (read_arguments_well_formed argv a Ha) as Hwf.
  destruct (generate_Ok sinf a Hwf wavebuff Hgen) as (Hl & _ & Hfill).
  destruct Hwf as (Hlen & _).
  pose proof (lookup_lt_Some _ _ _ Hv) as Hlt.
  destruct (Hfill n ltac:(lia)) as (v' & Hv' & Hs).
  rewrite Hv in Hv'. injection Hv' as <-.
  rewrite waverate_value in Hs. unfold sample in Hs.
  rewrite Hlen, Hfreq in Hs. cbn [length accumulate] in Hs.
  unfold harmonic, amplitude in Hs.
  change (Z.of_nat 1 =? 0) with false in Hs.
  change (32765 / Z.of_nat 1) with 32765 in Hs.
  cbn [mbind mret result_bind result_ret] in Hs.
  rewrite add_assign_to_zero in Hs.
  destruct (Float.to_short _) as [s | u]; [ exact Hs | discriminate ].
Qed.

End Single.

(** X15, witness: sample 15 of [wavdump a.wav 1 440] is 26466. *)
Lemma single_frequency_sample_witness :
  exists wavebuff,
    read_arguments (Example.one_frequency "440") = Some (Example.request 1 [440]) /\
    freqbuff (Example.request 1 [440]) = [440] /\
    generate Sine.sinf (Example.request 1 [440]) = Ok wavebuff /\
    0 <= 15 /\ wavebuff !! Z.to_nat 15 = Some 26466.
Proof.
  set (a := Example.request 1 [440]).
  assert (Ha : read_arguments (Example.one_frequency "440") = Some a) by reflexivity.
  assert (Hfreq : freqbuff a = [440]) by reflexivity.
  destruct (reference_generates _ a Ha) as [wavebuff Hgen]; [ discriminate | ].
  pose proof (generate_Ok Sine.sinf a (read_arguments_well_formed _ a Ha) wavebuff Hgen)
    as (Hlen & _ & _).
  change (filetime a * waverate) with 44100 in Hlen.
  assert (H15 : (Z.to_nat 15 < length wavebuff)%nat) by lia.
  destruct (lookup_lt_is_Some_2 _ _ H15) as [v Hv].
  assert (Hn : 0 <= 15) by lia.
  pose proof (single_frequency_sample Sine.sinf (Example.one_frequency "440") a wavebuff
                440 15 v Ha Hfreq Hgen Hn Hv) as Hs.
  assert (E : Float.to_short
                (Float.fmul (Sine.sinf (Float.float_of_double (angle 440 (15 mod 44100))))
                            (Float.float_of_int 32765)) = Ok 26466)
    by (vm_compute; reflexivity).
  rewrite E in Hs. injection Hs as <-.
  exists wavebuff. split; [ exact Ha | ]. split; [ exact Hfreq | ]. split; [ exact Hgen | ].
  split; [ exact Hn | exact Hv ].
Defined.
